(** * Gpq: the entity simulation core of the 3D arena shooter

    A shallow embedding of the simulation code of the repository
    (WeaponManager.js, Enemy.js, Bullets.js, InputState.js, UIManager.js)
    and the properties its specification states about it, followed by
    further properties read off the code: of the same classes and of
    [InputState], [Physics] and [LocalizationService].

    Conventions of the embedding.
    - A JavaScript number is a rational [Q]: arithmetic is exact and
      rounding is not modelled.  The fields that can hold [Infinity] or
      [NaN] (ammunition, the shoot timer and the distances of an enemy)
      have a type with constructors for these values.
    - A JavaScript object that is shared and mutated in place (an entity
      held by a pool and by an active list) lives in a store indexed by
      references; a list of entities is a list of references.
    - A JavaScript array is a list in index order; [push] appends at the
      end and [pop] removes the last element.
    - [Math.random()] is read from an explicit source: the value of a call
      is an argument of the function that makes it, or is taken from a
      stream indexed by the number of calls made so far.
    - Rendering and logging (materials, colours, animation mixers,
      console output, HUD text) are left out; scene membership of a mesh
      is kept because the specification speaks about it. *)

From Stdlib Require Import QArith Qminmax Qround Lqa ZArith Lia.
From stdpp Require Import base gmap strings list pretty.

Open Scope Q_scope.

(** ** Numbers *)

(** [x < y] and [x <= y] on JavaScript numbers, as tests. *)
Definition Qltb (x y : Q) : bool := negb (Qle_bool y x).
Definition Qleb (x y : Q) : bool := Qle_bool x y.

(** A number that may be [Infinity] or [NaN]; the timers and distances
    of an enemy take these values before the first [reset] and for
    enemies that cannot shoot. *)
Inductive ExtNum : Type :=
| Fin (q : Q)
| Infinity
| NaN.

(** [a - d] for a finite [d]. *)
Definition ext_sub (a : ExtNum) (d : Q) : ExtNum :=
  match a with Fin q => Fin (q - d) | Infinity => Infinity | NaN => NaN end.

(** [a <= 0]. *)
Definition ext_le0 (a : ExtNum) : bool :=
  match a with Fin q => Qleb q 0 | Infinity => false | NaN => false end.

(** [Math.min(a, d)] for a finite [d]. *)
Definition ext_min (a : ExtNum) (d : Q) : ExtNum :=
  match a with Fin q => Fin (Qmin q d) | Infinity => Fin d | NaN => NaN end.

(** [r * a] for a finite [r]. *)
Definition ext_scale (r : Q) (a : ExtNum) : ExtNum :=
  match a with
  | Fin q => Fin (r * q)
  | Infinity => if Qeq_bool r 0 then NaN else if Qltb 0 r then Infinity else NaN
  | NaN => NaN
  end.

(** [d <= a * a] for a finite [d]. *)
Definition le_square (d : Q) (a : ExtNum) : bool :=
  match a with Fin q => Qleb d (q * q) | Infinity => true | NaN => false end.

(** [o || d] on a number that may be missing: [undefined] and [0] are
    falsy. *)
Definition or_default (o : option Q) (d : Q) : Q :=
  match o with
  | Some q => if Qeq_bool q 0 then d else q
  | None => d
  end.

(** What a call yields: a value; the [TypeError] JavaScript throws when
    a property of [undefined] or [null] is read; or [WrongClass], when a
    field or method of one entity class is used on an object of another
    class (JavaScript goes on with [undefined] values there, which the
    embedding does not follow). *)
Inductive Outcome (A : Type) : Type :=
| Ok (a : A)
| TypeError
| WrongClass.
Arguments Ok {A} a.
Arguments TypeError {A}.
Arguments WrongClass {A}.

Definition obind {A B : Type} (o : Outcome A) (k : A -> Outcome B)
  : Outcome B :=
  match o with
  | Ok a => k a
  | TypeError => TypeError
  | WrongClass => WrongClass
  end.

(** [THREE.Vector3] with the operations the simulation uses. *)
Record Vector3 : Type := mkVector3 { vx : Q; vy : Q; vz : Q }.

Definition v3_add (a b : Vector3) : Vector3 :=
  mkVector3 (vx a + vx b) (vy a + vy b) (vz a + vz b).

Definition v3_scale (a : Vector3) (k : Q) : Vector3 :=
  mkVector3 (vx a * k) (vy a * k) (vz a * k).

(** [a.distanceToSquared(b)]. *)
Definition distanceToSquared (a b : Vector3) : Q :=
  (vx a - vx b) * (vx a - vx b) + (vy a - vy b) * (vy a - vy b)
  + (vz a - vz b) * (vz a - vz b).

(** A request to [engine.spawnBullet(origin, direction, damage, isPlayerBullet)]
    made by a weapon or by an enemy; the engine serves it. *)
Record SpawnBullet : Type := mkSpawnBullet {
  sb_origin : Vector3;
  sb_direction : Vector3;
  sb_damage : Q;
  sb_isPlayerBullet : bool
}.

(** ** WeaponManager (WeaponManager.js, lines 1-179) *)

Module WeaponManager.

(** Ammunition is a count of rounds, or [Infinity]. *)
Inductive Ammo : Type :=
| Rounds (n : Z)
| InfiniteAmmo.

Definition is_infinite (a : Ammo) : bool :=
  match a with Rounds _ => false | InfiniteAmmo => true end.

(** [a <= 0]. *)
Definition ammo_le0 (a : Ammo) : bool :=
  match a with Rounds n => (n <=? 0)%Z | InfiniteAmmo => false end.

(** [a > 0]. *)
Definition ammo_gt0 (a : Ammo) : bool :=
  match a with Rounds n => (0 <? n)%Z | InfiniteAmmo => true end.

(** [a--]. *)
Definition ammo_dec (a : Ammo) : Ammo :=
  match a with Rounds n => Rounds (n - 1) | InfiniteAmmo => InfiniteAmmo end.

(** [a + (b || 0)]: a count of zero is falsy and replaced by 0. *)
Definition ammo_add (a b : Ammo) : Ammo :=
  match a, b with
  | Rounds n, Rounds m => Rounds (n + m)
  | _, _ => InfiniteAmmo
  end.

(** [Math.min(a, b)]. *)
Definition ammo_min (a b : Ammo) : Ammo :=
  match a, b with
  | Rounds n, Rounds m => Rounds (Z.min n m)
  | Rounds n, InfiniteAmmo => Rounds n
  | InfiniteAmmo, b => b
  end.

(** One entry of the weapon registry. *)
Record Weapon : Type := mkWeapon {
  name : string;
  damage : Q;
  cooldown : Q;
  range : Q;
  automatic : bool;
  ammoMax : Ammo;
  ammoCurrent : Ammo
}.

Definition pistol : Weapon :=
  mkWeapon "Pistol" 8 0.3 50 false InfiniteAmmo InfiniteAmmo.

Definition rifle : Weapon :=
  mkWeapon "Rifle" 15 0.1 100 true (Rounds 150) (Rounds 150).

(** [defaultWeapons], in the order [for ... in] enumerates it. *)
Definition defaultWeapons : list (string * Weapon) :=
  [("pistol"%string, pistol); ("rifle"%string, rifle)].

(** The manager.  [weapons] is the [Map] in insertion order.
    [this.currentWeapon] is not a field of its own: the code assigns it
    only in [equipWeapon], together with [equippedWeaponId], to the very
    object stored in the map, and never removes or replaces an entry, so
    it always is the entry of [equippedWeaponId] (see [currentWeapon]);
    the decrement of [currentWeapon.ammoCurrent] in [fire] therefore
    updates the entry of the map. *)
Record t : Type := mk {
  weapons : list (string * Weapon);
  equippedWeaponId : option string;
  fireTimer : Q
}.

(** [weapons.get(id)]. *)
Fixpoint get (id : string) (ws : list (string * Weapon)) : option Weapon :=
  match ws with
  | [] => None
  | (k, w) :: rest => if String.eqb k id then Some w else get id rest
  end.

(** [weapons.has(id)]. *)
Definition has (id : string) (ws : list (string * Weapon)) : bool :=
  match get id ws with Some _ => true | None => false end.

(** In-place update of the entry stored under [id]. *)
Fixpoint modify (id : string) (f : Weapon -> Weapon)
  (ws : list (string * Weapon)) : list (string * Weapon) :=
  match ws with
  | [] => []
  | (k, w) :: rest =>
      if String.eqb k id then (k, f w) :: rest else (k, w) :: modify id f rest
  end.

(** [Array.from(weapons.keys())]. *)
Definition keys (ws : list (string * Weapon)) : list string := map fst ws.

Definition currentWeapon (m : t) : option Weapon :=
  match equippedWeaponId m with
  | Some id => get id (weapons m)
  | None => None
  end.

(** [this.equippedWeaponId === id]. *)
Definition is_equipped (m : t) (id : string) : bool :=
  match equippedWeaponId m with
  | Some e => String.eqb e id
  | None => false
  end.

(** [equipWeapon(id)], lines 74-88. *)
Definition equipWeapon (id : string) (m : t) : bool * t :=
  if negb (has id (weapons m)) || is_equipped m id then (false, m)
  else (true, mk (weapons m) (Some id) 0).

(** [!this.equippedWeaponId]: [null] and the empty string are falsy. *)
Definition nothing_equipped (m : t) : bool :=
  match equippedWeaponId m with
  | Some e => String.eqb e ""
  | None => true
  end.

Definition set_ammoCurrent (a : Ammo) (w : Weapon) : Weapon :=
  mkWeapon (name w) (damage w) (cooldown w) (range w) (automatic w)
           (ammoMax w) a.

(** [addWeapon(id, config)], lines 55-72. *)
Definition addWeapon (id : string) (config : Weapon) (m : t) : t :=
  match get id (weapons m) with
  | Some existing =>
      if negb (is_infinite (ammoCurrent existing)) && ammo_gt0 (ammoMax config)
      then mk (modify id
                 (set_ammoCurrent
                    (ammo_min (ammoMax existing)
                       (ammo_add (ammoCurrent existing) (ammoCurrent config))))
                 (weapons m))
              (equippedWeaponId m) (fireTimer m)
      else m
  | None =>
      let m1 := mk (weapons m ++ [(id, config)]) (equippedWeaponId m)
                   (fireTimer m) in
      if nothing_equipped m1 then snd (equipWeapon id m1) else m1
  end.

(** [loadDefaultWeapons()], lines 44-53. *)
Definition loadDefaultWeapons (m : t) : t :=
  let m1 := fold_left (fun acc kv => addWeapon (fst kv) (snd kv) acc)
                      defaultWeapons m in
  match keys (weapons m1) with
  | first :: _ => snd (equipWeapon first m1)
  | [] => m1
  end.

(** The constructor, lines 30-42. *)
Definition new : t := loadDefaultWeapons (mk [] None 0).

(** [update(dt)], lines 90-94. *)
Definition update (dt : Q) (m : t) : t :=
  if Qltb 0 (fireTimer m)
  then mk (weapons m) (equippedWeaponId m) (fireTimer m - dt)
  else m.

(** [canFire()], lines 96-106. *)
Definition canFire (m : t) : bool :=
  match currentWeapon m with
  | None => false
  | Some w =>
      if Qltb 0 (fireTimer m) then false
      else if negb (is_infinite (ammoCurrent w)) && ammo_le0 (ammoCurrent w)
      then false
      else true
  end.

(** [canAutoFire()], lines 108-110. *)
Definition canAutoFire (m : t) : bool :=
  match currentWeapon m with Some w => automatic w | None => false end.

Definition consume (w : Weapon) : Weapon :=
  if negb (is_infinite (ammoCurrent w))
  then set_ammoCurrent (ammo_dec (ammoCurrent w)) w
  else w.

(** [fire()], lines 113-147.  [spawnPos] is the world position of the
    player's camera target and [direction] the player's forward
    direction; the third component is the call of [engine.spawnBullet]. *)
Definition fire (spawnPos direction : Vector3) (m : t)
  : bool * t * option SpawnBullet :=
  if negb (canFire m) then (false, m, None)
  else
    match equippedWeaponId m, currentWeapon m with
    | Some id, Some w =>
        (true,
         mk (modify id consume (weapons m)) (Some id) (cooldown w),
         Some (mkSpawnBullet spawnPos direction (damage w) true))
    | _, _ => (false, m, None)
    end.

(** [weaponIds.indexOf(this.equippedWeaponId)]. *)
Fixpoint indexOf_from (i : Z) (ids : list string) (id : string) : Z :=
  match ids with
  | [] => (-1)%Z
  | k :: rest => if String.eqb k id then i else indexOf_from (i + 1) rest id
  end.

Definition indexOf (ids : list string) (e : option string) : Z :=
  match e with
  | Some id => indexOf_from 0 ids id
  | None => (-1)%Z
  end.

(** [weaponIds[i]]: [undefined] out of range. *)
Definition at_index (ids : list string) (i : Z) : option string :=
  if (i <? 0)%Z then None else nth_error ids (Z.to_nat i).

(** [equipWeapon(weaponIds[i])]; [undefined] is no key of the map. *)
Definition equip_at (ids : list string) (i : Z) (m : t) : t :=
  match at_index ids i with
  | Some id => snd (equipWeapon id m)
  | None => m
  end.

(** [switchToNextWeapon()], lines 149-155. *)
Definition switchToNextWeapon (m : t) : t :=
  if (length (weapons m) <=? 1)%nat then m
  else
    let weaponIds := keys (weapons m) in
    let currentIndex := indexOf weaponIds (equippedWeaponId m) in
    let nextIndex := Z.rem (currentIndex + 1) (Z.of_nat (length weaponIds)) in
    equip_at weaponIds nextIndex m.

(** [switchToPreviousWeapon()], lines 157-163. *)
Definition switchToPreviousWeapon (m : t) : t :=
  if (length (weapons m) <=? 1)%nat then m
  else
    let weaponIds := keys (weapons m) in
    let currentIndex := indexOf weaponIds (equippedWeaponId m) in
    let prevIndex :=
      Z.rem (currentIndex - 1 + Z.of_nat (length weaponIds))
            (Z.of_nat (length weaponIds)) in
    equip_at weaponIds prevIndex m.

(** [getCurrentAmmo()], lines 165-167. *)
Definition getCurrentAmmo (m : t) : Ammo :=
  match currentWeapon m with Some w => ammoCurrent w | None => Rounds 0 end.

(** The calls made on a manager between two frames. *)
Inductive Call : Type :=
| Fire (spawnPos direction : Vector3)
| Update (dt : Q)
| Equip (id : string)
| SwitchNext
| SwitchPrevious.

(** One call: whether it was a [fire()] that returned [true], and the
    manager afterwards. *)
Definition call (c : Call) (m : t) : bool * t :=
  match c with
  | Fire spawnPos direction =>
      let '(fired, m', _) := fire spawnPos direction m in (fired, m')
  | Update dt => (false, update dt m)
  | Equip id => (false, snd (equipWeapon id m))
  | SwitchNext => (false, switchToNextWeapon m)
  | SwitchPrevious => (false, switchToPreviousWeapon m)
  end.

(** A sequence of calls: the number of shots fired and the manager
    afterwards. *)
Fixpoint calls (cs : list Call) (m : t) : nat * t :=
  match cs with
  | [] => (O, m)
  | c :: rest =>
      let '(fired, m1) := call c m in
      let '(n, m2) := calls rest m1 in
      ((if fired then S n else n), m2)
  end.



(** The weapon has rounds left: infinitely many, or a positive count. *)
Definition has_ammo (w : Weapon) : bool :=
  negb (negb (is_infinite (ammoCurrent w)) && ammo_le0 (ammoCurrent w)).



(** The rounds of the weapons with a finite supply, added up. *)
Fixpoint rounds (ws : list (string * Weapon)) : Z :=
  match ws with
  | [] => 0%Z
  | (_, w) :: rest =>
      match ammoCurrent w with
      | Rounds n => (n + rounds rest)%Z
      | InfiniteAmmo => rounds rest
      end
  end.

Definition totalRounds (m : t) : Z := rounds (weapons m).

(** Every weapon of the registry has a finite supply. *)
Definition all_finite (m : t) : Prop :=
  Forall (fun kw => is_infinite (ammoCurrent (snd kw)) = false) (weapons m).

(** [a <= b] on counts of rounds. *)
Definition ammo_leq (a b : Ammo) : Prop :=
  match a, b with
  | Rounds n, Rounds m => (n <= m)%Z
  | _, InfiniteAmmo => True
  | InfiniteAmmo, Rounds _ => False
  end.

(** The registry is well formed: no identifier is registered twice and
    the equipped identifier, if any, is registered. *)
Definition registered (m : t) : Prop :=
  NoDup (keys (weapons m))
  /\ forall id, equippedWeaponId m = Some id -> id ∈ keys (weapons m).

End WeaponManager.

(** ** Player (WeaponManager.js, lines 371-721): health and damage *)

Module Player.

(** The fields the health bookkeeping reads and writes. *)
Record t : Type := mk {
  maxHealth : Q;
  health : Q;
  isInvincible : bool;
  invincibilityTimer : Q;
  invincibilityDuration : Q;
  isShielded : bool;
  _destroyed : bool
}.

(** The constructor, lines 372-397. *)
Definition new : t := mk 100 100 false 0 1000 false false.

Definition set_health (h : Q) (p : t) : t :=
  mk (maxHealth p) h (isInvincible p) (invincibilityTimer p)
     (invincibilityDuration p) (isShielded p) (_destroyed p).

(** [applyInvincibility(duration)], lines 589-592. *)
Definition applyInvincibility (duration : Q) (p : t) : t :=
  mk (maxHealth p) (health p) true duration
     (invincibilityDuration p) (isShielded p) (_destroyed p).

(** [die()], lines 580-587; the flag tells whether [engine.endGame()]
    was called. *)
Definition die (p : t) : t * bool :=
  if _destroyed p then (p, false)
  else (mk (maxHealth p) (health p) (isInvincible p) (invincibilityTimer p)
           (invincibilityDuration p) (isShielded p) true, true).

(** [takeDamage(amount)], lines 552-571: the value returned, the player
    afterwards, and whether the engine was told that the game ended. *)
Definition takeDamage (amount : Q) (p : t) : Q * t * bool :=
  if isInvincible p || isShielded p || _destroyed p then (0, p, false)
  else
    let p1 := set_health (Qmax 0 (health p - amount)) p in
    let p2 := applyInvincibility (invincibilityDuration p1) p1 in
    if Qleb (health p2) 0
    then let '(p3, ended) := die p2 in (amount, p3, ended)
    else (amount, p2, false).

(** [heal(amount)], lines 573-578. *)
Definition heal (amount : Q) (p : t) : t :=
  if _destroyed p then p
  else set_health (Qmin (maxHealth p) (health p + amount)) p.

(** [updateTimers(dt)], lines 652-666. *)
Definition updateTimers (dt : Q) (p : t) : t :=
  let deltaMillis := dt * 1000 in
  if isInvincible p then
    let timer := invincibilityTimer p - deltaMillis in
    mk (maxHealth p) (health p) (negb (Qleb timer 0)) timer
       (invincibilityDuration p) (isShielded p) (_destroyed p)
  else p.

(** The calls that touch the health of the player. *)
Inductive Call : Type :=
| TakeDamage (amount : Q)
| Heal (amount : Q)
| UpdateTimers (dt : Q).

Definition call (c : Call) (p : t) : t :=
  match c with
  | TakeDamage amount => snd (fst (takeDamage amount p))
  | Heal amount => heal amount p
  | UpdateTimers dt => updateTimers dt p
  end.

Definition calls (cs : list Call) (p : t) : t :=
  fold_left (fun acc c => call c acc) cs p.

(** The health is within [[0, maxHealth]]. *)
Definition in_range (p : t) : Prop := 0 <= health p /\ health p <= maxHealth p.

(** The amount of damage or healing of a call is not negative. *)
Definition nonneg_amount (c : Call) : Prop :=
  match c with
  | TakeDamage amount => 0 <= amount
  | Heal amount => 0 <= amount
  | UpdateTimers _ => True
  end.

End Player.

(** ** Player (WeaponManager.js, lines 573-650): the effects of
    power-ups *)

Module PlayerPowerUps.

(** The two [removeEffectCallback] closures of the class: the one of
    [applySpeedBoost] sets [speedMultiplier] to 1.0, the one of
    [activateShield] sets [isShielded] to [false]. *)
Inductive RemoveEffect : Type :=
| ResetSpeed
| DropShield.

(** A callback handed to [setTimeout] by [setPowerUpTimer] that the
    browser has neither run nor cleared: the [type] and the
    [removeEffectCallback] it closes over, and the delay it was
    registered with. *)
Record Timeout : Type := mkTimeout {
  to_type : string;
  to_removeEffect : RemoveEffect;
  to_delay : Q
}.

(** An entry of [activePowerUps]. *)
Record Entry : Type := mkEntry {
  endTime : Q;
  timeoutId : nat
}.

(** The player with its power-ups.  [player] holds the fields of the
    health bookkeeping; [timeouts] is the table of pending timeouts of
    the browser and [nextTimeoutId] the identifier [setTimeout] returns
    next: identifiers are positive and never handed out twice. *)
Record t : Type := mk {
  player : Player.t;
  speedMultiplier : Q;
  activePowerUps : gmap string Entry;
  timeouts : gmap nat Timeout;
  nextTimeoutId : nat
}.

(** The constructor, lines 372-397. *)
Definition new : t := mk Player.new 1.0 ∅ ∅ 1.

(** [clearTimeout(id)]. *)
Definition clearTimeout (id : nat) (pending : gmap nat Timeout)
  : gmap nat Timeout :=
  delete id pending.

(** [setPowerUpTimer(type, duration, removeEffectCallback)], lines
    632-649; [now] is the value of [performance.now()]. *)
Definition setPowerUpTimer (now : Q) (type : string) (duration : Q)
  (removeEffectCallback : RemoveEffect) (p : t) : t :=
  let endTime := now + duration in
  let existing := activePowerUps p !! type in
  let pending :=
    match existing with
    | Some e =>
        if Nat.eqb (timeoutId e) 0 then timeouts p
        else clearTimeout (timeoutId e) (timeouts p)
    | None => timeouts p
    end in
  let timeoutId := nextTimeoutId p in
  mk (player p) (speedMultiplier p)
     (<[type := mkEntry endTime timeoutId]> (activePowerUps p))
     (<[timeoutId := mkTimeout type removeEffectCallback duration]> pending)
     (S timeoutId).

Definition set_isShielded (b : bool) (pl : Player.t) : Player.t :=
  Player.mk (Player.maxHealth pl) (Player.health pl) (Player.isInvincible pl)
    (Player.invincibilityTimer pl) (Player.invincibilityDuration pl) b
    (Player._destroyed pl).

(** [applySpeedBoost(multiplier, duration)], lines 611-618. *)
Definition applySpeedBoost (now multiplier duration : Q) (p : t) : t :=
  let p1 :=
    mk (player p) (Qmax (speedMultiplier p) multiplier) (activePowerUps p)
       (timeouts p) (nextTimeoutId p) in
  setPowerUpTimer now "speed" duration ResetSpeed p1.

(** [activateShield(duration)], lines 620-630. *)
Definition activateShield (now duration : Q) (p : t) : t :=
  let p1 :=
    mk (set_isShielded true (player p)) (speedMultiplier p)
       (activePowerUps p) (timeouts p) (nextTimeoutId p) in
  setPowerUpTimer now "shield" duration DropShield p1.

(** The browser runs the callback of the pending timeout [id], lines
    643-646: the effect is removed and the entry of its type deleted.
    A timeout that was cleared or has run is not pending and nothing
    happens. *)
Definition runTimeout (id : nat) (p : t) : t :=
  match timeouts p !! id with
  | None => p
  | Some timeout =>
      let pending := delete id (timeouts p) in
      let p1 :=
        match to_removeEffect timeout with
        | ResetSpeed =>
            mk (player p) 1.0 (activePowerUps p) pending (nextTimeoutId p)
        | DropShield =>
            mk (set_isShielded false (player p)) (speedMultiplier p)
               (activePowerUps p) pending (nextTimeoutId p)
        end in
      mk (player p1) (speedMultiplier p1)
         (delete (to_type timeout) (activePowerUps p1)) (timeouts p1)
         (nextTimeoutId p1)
  end.

(** [heal(amount)], lines 573-578. *)
Definition heal (amount : Q) (p : t) : t :=
  mk (Player.heal amount (player p)) (speedMultiplier p) (activePowerUps p)
     (timeouts p) (nextTimeoutId p).

(** The power-up calls made on a player and the timeouts the browser
    runs, in the order they happen. *)
Inductive Call : Type :=
| ApplySpeedBoost (now multiplier duration : Q)
| ActivateShield (now duration : Q)
| RunTimeout (id : nat).

Definition call (c : Call) (p : t) : t :=
  match c with
  | ApplySpeedBoost now multiplier duration =>
      applySpeedBoost now multiplier duration p
  | ActivateShield now duration => activateShield now duration p
  | RunTimeout id => runTimeout id p
  end.

Definition calls (cs : list Call) (p : t) : t :=
  fold_left (fun acc c => call c acc) cs p.

(** The entries and the pending timeouts correspond: the timeout of an
    entry is pending for the type of the entry, a pending timeout is the
    one of the entry of its type, and the identifiers handed out are
    positive and below the next one. *)
Definition consistent (p : t) : Prop :=
  (forall type e, activePowerUps p !! type = Some e ->
     exists timeout, timeouts p !! timeoutId e = Some timeout
                     /\ to_type timeout = type)
  /\ (forall id timeout, timeouts p !! id = Some timeout ->
        exists e, activePowerUps p !! to_type timeout = Some e
                  /\ timeoutId e = id)
  /\ (forall id timeout, timeouts p !! id = Some timeout ->
        (id < nextTimeoutId p)%nat)
  /\ (0 < nextTimeoutId p)%nat
  /\ timeouts p !! O = None.

End PlayerPowerUps.

(** ** The host: THREE.js and [Math]

    The geometry the entities delegate to the THREE.js library and the
    transcendental functions of [Math], taken as an interface: the
    simulation code only passes their results on.  [Math_random n] is the
    value of the [n]-th call of [Math.random()] made by the engine. *)

(** [mesh.quaternion]. *)
Record Quaternion : Type := mkQuaternion { qx : Q; qy : Q; qz : Q; qw : Q }.

Class Host : Type := {
  (** [Math.PI] *)
  Math_PI : Q;
  Math_cos : Q -> Q;
  Math_sin : Q -> Q;
  Math_random : nat -> Q;
  (** [v.normalize()] *)
  normalize : Vector3 -> Vector3;
  (** the orientation after [mesh.rotation.set(0, y, 0)] *)
  quaternion_of_yaw : Q -> Quaternion;
  (** [mesh.getWorldDirection(target)] *)
  getWorldDirection : Quaternion -> Vector3;
  (** [new Matrix4().lookAt(eye, target, mesh.up)] turned into a
      quaternion by [setFromRotationMatrix] *)
  lookAt_rotation : Vector3 -> Vector3 -> Quaternion;
  (** [q.slerp(target, t)] *)
  slerp : Quaternion -> Quaternion -> Q -> Quaternion;
  (** the orientation after [mesh.lookAt(target)] of a mesh at a position *)
  object_lookAt : Vector3 -> Vector3 -> Quaternion;
  (** [mesh.localToWorld(v)] for a mesh given by position, orientation
      and uniform scale *)
  localToWorld : Vector3 -> Quaternion -> Q -> Vector3 -> Vector3
}.

Definition v3_zero : Vector3 := mkVector3 0 0 0.

Definition v3_sub (a b : Vector3) : Vector3 :=
  mkVector3 (vx a - vx b) (vy a - vy b) (vz a - vz b).


(** ** Enemy (Enemy.js) *)

Module Enemy.

(** [EnemyState], lines 4-11. *)
Inductive EnemyState : Type :=
| IDLE
| CHASING
| ATTACKING
| FLEEING
| DYING
| INACTIVE.

Definition state_eqb (a b : EnemyState) : bool :=
  match a, b with
  | IDLE, IDLE | CHASING, CHASING | ATTACKING, ATTACKING
  | FLEEING, FLEEING | DYING, DYING | INACTIVE, INACTIVE => true
  | _, _ => false
  end.

(** An entry of [GameEngine3D.enemyTypes]; a field the table leaves out
    is [None]. *)
Record Config : Type := mkConfig {
  cfg_health : Q;
  cfg_score : Q;
  cfg_collisionDamage : Q;
  cfg_speed : Q;
  cfg_size : option Q;
  cfg_dropChance : option Q;
  cfg_canShoot : option bool;
  cfg_shootingInterval : option Q;
  cfg_chaseDistance : option Q;
  cfg_shootDistance : option Q;
  cfg_attack : option Q
}.

(** The enemy.  [position], [orientation] and [scale] are those of
    [mesh]. *)
Record t : Type := mk {
  type : option string;
  config : option Config;
  health : Q;
  speed : Q;
  score : Q;
  collisionDamage : Q;
  dropChance : Q;
  canShoot : bool;
  shootingInterval : ExtNum;
  shootDistance : ExtNum;
  chaseDistance : ExtNum;
  currentState : EnemyState;
  stateTimer : Q;
  _destroyed : bool;
  isInvincible : bool;
  invincibilityTimer : Q;
  invincibilityDuration : Q;
  position : Vector3;
  orientation : Quaternion;
  scale : Q;
  velocity : Vector3;
  targetPosition : Vector3;
  forwardDirection : Vector3;
  shootTimer : ExtNum
}.

(** What an enemy reads of [engine.player]. *)
Record PlayerView : Type := mkPlayerView {
  pv_destroyed : bool;
  pv_position : Vector3;
  pv_size_y : Q
}.

Definition set_fsm (st : EnemyState) (timer : Q) (e : t) : t :=
  mk (type e) (config e) (health e) (speed e) (score e) (collisionDamage e)
     (dropChance e) (canShoot e) (shootingInterval e) (shootDistance e)
     (chaseDistance e) st timer (_destroyed e) (isInvincible e)
     (invincibilityTimer e) (invincibilityDuration e) (position e)
     (orientation e) (scale e) (velocity e) (targetPosition e)
     (forwardDirection e) (shootTimer e).

Definition set_stateTimer (timer : Q) (e : t) : t :=
  set_fsm (currentState e) timer e.

Definition set_velocity (v : Vector3) (e : t) : t :=
  mk (type e) (config e) (health e) (speed e) (score e) (collisionDamage e)
     (dropChance e) (canShoot e) (shootingInterval e) (shootDistance e)
     (chaseDistance e) (currentState e) (stateTimer e) (_destroyed e)
     (isInvincible e) (invincibilityTimer e) (invincibilityDuration e)
     (position e) (orientation e) (scale e) v (targetPosition e)
     (forwardDirection e) (shootTimer e).

Definition set_shootTimer (s : ExtNum) (e : t) : t :=
  mk (type e) (config e) (health e) (speed e) (score e) (collisionDamage e)
     (dropChance e) (canShoot e) (shootingInterval e) (shootDistance e)
     (chaseDistance e) (currentState e) (stateTimer e) (_destroyed e)
     (isInvincible e) (invincibilityTimer e) (invincibilityDuration e)
     (position e) (orientation e) (scale e) (velocity e) (targetPosition e)
     (forwardDirection e) s.

Definition set_destroyed (d : bool) (e : t) : t :=
  mk (type e) (config e) (health e) (speed e) (score e) (collisionDamage e)
     (dropChance e) (canShoot e) (shootingInterval e) (shootDistance e)
     (chaseDistance e) (currentState e) (stateTimer e) d
     (isInvincible e) (invincibilityTimer e) (invincibilityDuration e)
     (position e) (orientation e) (scale e) (velocity e) (targetPosition e)
     (forwardDirection e) (shootTimer e).

Definition set_health (h : Q) (e : t) : t :=
  mk (type e) (config e) h (speed e) (score e) (collisionDamage e)
     (dropChance e) (canShoot e) (shootingInterval e) (shootDistance e)
     (chaseDistance e) (currentState e) (stateTimer e) (_destroyed e)
     (isInvincible e) (invincibilityTimer e) (invincibilityDuration e)
     (position e) (orientation e) (scale e) (velocity e) (targetPosition e)
     (forwardDirection e) (shootTimer e).

Definition set_invincibility (b : bool) (timer : Q) (e : t) : t :=
  mk (type e) (config e) (health e) (speed e) (score e) (collisionDamage e)
     (dropChance e) (canShoot e) (shootingInterval e) (shootDistance e)
     (chaseDistance e) (currentState e) (stateTimer e) (_destroyed e)
     b timer (invincibilityDuration e)
     (position e) (orientation e) (scale e) (velocity e) (targetPosition e)
     (forwardDirection e) (shootTimer e).

(** Writes to the mesh and to the vectors that follow it. *)
Definition set_pose (pos : Vector3) (o : Quaternion) (target fwd : Vector3)
  (e : t) : t :=
  mk (type e) (config e) (health e) (speed e) (score e) (collisionDamage e)
     (dropChance e) (canShoot e) (shootingInterval e) (shootDistance e)
     (chaseDistance e) (currentState e) (stateTimer e) (_destroyed e)
     (isInvincible e) (invincibilityTimer e) (invincibilityDuration e)
     pos o (scale e) (velocity e) target fwd (shootTimer e).

(** The constructor, lines 14-58. *)
Definition new : t :=
  mk None None 0 0 0 0 0 false Infinity Infinity Infinity INACTIVE 0 true
     false 0 300 v3_zero (mkQuaternion 0 0 0 1) 1 v3_zero v3_zero
     (mkVector3 0 0 (-1)) (Fin 0).

(** [setState(newState)], lines 140-179.  [rnd] is the value of
    [Math.random()], which only the entry into [IDLE] draws. *)
Definition setState (rnd : Q) (newState : EnemyState) (e : t) : t :=
  if state_eqb newState (currentState e) then e
  else
    let e1 := set_fsm newState 0 e in
    match newState with
    | IDLE => set_stateTimer (1 + rnd * 2) (set_velocity v3_zero e1)
    | CHASING => e1
    | ATTACKING =>
        let e2 := set_velocity v3_zero e1 in
        if canShoot e2 then set_shootTimer (ext_min (shootTimer e2) 0.5) e2
        else e2
    | DYING => set_stateTimer 1.5 (set_velocity v3_zero e1)
    | INACTIVE => set_velocity v3_zero e1
    | FLEEING => e1
    end.

(** [destroy()], lines 373-380. *)
Definition destroy (e : t) : t :=
  if _destroyed e then e
  else setState 0 INACTIVE (set_destroyed true e).

(** [applyInvincibility(duration)], lines 316-319. *)
Definition applyInvincibility (duration : Q) (e : t) : t :=
  set_invincibility true duration e.

(** [takeDamage(amount)], lines 298-314: the value returned and the
    enemy afterwards. *)
Definition takeDamage (amount : Q) (e : t) : Q * t :=
  if isInvincible e || _destroyed e || state_eqb (currentState e) DYING
     || state_eqb (currentState e) INACTIVE
  then (0, e)
  else
    let e1 := set_health (Qmax 0 (health e - amount)) e in
    let e2 := applyInvincibility (invincibilityDuration e1) e1 in
    if Qleb (health e2) 0 then (amount, setState 0 DYING e2)
    else (amount, e2).

(** [updateTimers(dt)], lines 336-344. *)
Definition updateTimers (dt : Q) (e : t) : t :=
  let deltaMillis := dt * 1000 in
  if isInvincible e then
    let timer := invincibilityTimer e - deltaMillis in
    set_invincibility (negb (Qleb timer 0)) timer e
  else e.



Section WithHost.
Context {host : Host}.

(** [reset(type, config, position)], lines 68-107.  [r1], [r2], [r3] are
    the three values of [Math.random()] it draws, in order. *)
Definition reset (ty : string) (cfg : Config) (pos : Vector3)
  (r1 r2 r3 : Q) (e : t) : t :=
  let interval :=
    match cfg_shootingInterval cfg with
    | Some q => if Qeq_bool q 0 then Infinity else Fin q
    | None => Infinity
    end in
  let o := quaternion_of_yaw (r2 * Math_PI * 2) in
  let e1 :=
    mk (Some ty) (Some cfg) (cfg_health cfg) (cfg_speed cfg) (cfg_score cfg)
       (cfg_collisionDamage cfg) (or_default (cfg_dropChance cfg) 0.05)
       (match cfg_canShoot cfg with Some b => b | None => false end)
       interval
       (Fin (or_default (cfg_shootDistance cfg) 5))
       (Fin (or_default (cfg_chaseDistance cfg) 25))
       (currentState e) (stateTimer e) false false 0
       (invincibilityDuration e) pos o (or_default (cfg_size cfg) 1)
       (velocity e) (targetPosition e) (getWorldDirection o)
       (ext_scale r1 interval) in
  setState r3 IDLE e1.

(** [shoot()], lines 280-295: the calls of [engine.spawnBullet]. *)
Definition shoot (player : option PlayerView) (e : t)
  : Outcome (list SpawnBullet) :=
  match player with
  | None => Ok []
  | Some pv =>
      if _destroyed e || pv_destroyed pv then Ok []
      else
        match config e with
        | None => TypeError
        | Some cfg =>
            let spawnOffset :=
              mkVector3 0 0.5 (- (0.6) * or_default (cfg_size cfg) 1) in
            let spawnPos :=
              localToWorld (position e) (orientation e) (scale e) spawnOffset in
            let playerTargetPos :=
              v3_add (pv_position pv) (mkVector3 0 (pv_size_y pv / 2) 0) in
            let direction := normalize (v3_sub playerTargetPos spawnPos) in
            Ok [mkSpawnBullet spawnPos direction
                  (or_default (cfg_attack cfg) 5) false]
        end
  end.

(** The state logic of [updateFSM], lines 201-257. *)
Definition stateLogic (dt rnd : Q) (pv : PlayerView) (e : t)
  : Outcome (t * list SpawnBullet) :=
  match currentState e with
  | IDLE =>
      if Qleb (stateTimer e) 0
      then Ok (set_stateTimer (1 + rnd * 2) e, [])
      else Ok (e, [])
  | CHASING =>
      let target := pv_position pv in
      let targetQuaternion := lookAt_rotation (position e) target in
      let o := slerp (orientation e) targetQuaternion 0.1 in
      let moveVector := v3_scale (getWorldDirection o) (speed e * dt) in
      Ok (set_pose (v3_add (position e) moveVector) o target moveVector e, [])
  | ATTACKING =>
      let target := pv_position pv in
      let e1 :=
        set_pose (position e) (object_lookAt (position e) target) target
                 (forwardDirection e) e in
      if canShoot e1 then
        let e2 := set_shootTimer (ext_sub (shootTimer e1) dt) e1 in
        if ext_le0 (shootTimer e2) then
          obind (shoot (Some pv) e2) (fun shots =>
            Ok (set_shootTimer (shootingInterval e2) e2, shots))
        else Ok (e2, [])
      else Ok (e1, [])
  | DYING =>
      if Qleb (stateTimer e) 0 then Ok (destroy e, []) else Ok (e, [])
  | INACTIVE => Ok (e, [])
  | FLEEING => Ok (e, [])
  end.

(** The transition checks of [updateFSM], lines 259-276;
    [distanceToPlayerSq] was measured before the state logic ran. *)
Definition transitions (rnd distanceToPlayerSq : Q) (e : t) : t :=
  if negb (state_eqb (currentState e) DYING)
     && negb (state_eqb (currentState e) INACTIVE)
  then
    let canAttack := le_square distanceToPlayerSq (shootDistance e) in
    let canChase := le_square distanceToPlayerSq (chaseDistance e) in
    match currentState e with
    | IDLE => if canChase then setState rnd CHASING e else e
    | CHASING =>
        if canAttack then setState rnd ATTACKING e
        else if negb canChase then setState rnd IDLE e
        else e
    | ATTACKING => if negb canAttack then setState rnd CHASING e else e
    | _ => e
    end
  else e.

(** [updateFSM] from line 196 on, with the player it dereferences. *)
Definition updateFSM_target (dt rnd : Q) (pv : PlayerView) (e : t)
  : Outcome (t * list SpawnBullet) :=
  let e1 := set_stateTimer (stateTimer e - dt) e in
  let distanceToPlayerSq := distanceToSquared (position e1) (pv_position pv) in
  obind (stateLogic dt rnd pv e1) (fun '(e2, shots) =>
    Ok (transitions rnd distanceToPlayerSq e2, shots)).

Definition idle_dying_inactive (st : EnemyState) : bool :=
  state_eqb st IDLE || state_eqb st DYING || state_eqb st INACTIVE.

(** [updateFSM(dt)], lines 181-277.  [player] is [engine.player]; [rnd]
    is the value of [Math.random()], drawn at most once on every path.
    Without a live player the enemy only runs its timer; the code past
    line 193 reads [engine.player.mesh], which throws when the player
    is [null]. *)
Definition updateFSM (dt rnd : Q) (player : option PlayerView) (e : t)
  : Outcome (t * list SpawnBullet) :=
  let live :=
    match player with Some pv => negb (pv_destroyed pv) | None => false end in
  if live then
    match player with
    | Some pv => updateFSM_target dt rnd pv e
    | None => TypeError
    end
  else
    let e1 :=
      if negb (idle_dying_inactive (currentState e)) then setState rnd IDLE e
      else e in
    if idle_dying_inactive (currentState e1) then
      let e2 := set_stateTimer (stateTimer e1 - dt) e1 in
      if state_eqb (currentState e2) DYING && Qleb (stateTimer e2) 0
      then Ok (destroy e2, [])
      else Ok (e2, [])
    else
      match player with
      | Some pv => updateFSM_target dt rnd pv e1
      | None => TypeError
      end.

(** [update(dt)], lines 130-137. *)
Definition update (dt rnd : Q) (player : option PlayerView) (e : t)
  : Outcome (t * list SpawnBullet) :=
  if _destroyed e || state_eqb (currentState e) INACTIVE then Ok (e, [])
  else updateFSM dt rnd player (updateTimers dt e).

(** [update(dt)] once per frame.  A frame gives its length, the value
    [Math.random()] would draw and [engine.player]; the calls of
    [engine.spawnBullet] of all frames are collected in order. *)
Fixpoint update_frames (frames : list (Q * Q * option PlayerView)) (e : t)
  : Outcome (t * list SpawnBullet) :=
  match frames with
  | [] => Ok (e, [])
  | (dt, rnd, player) :: rest =>
      obind (update dt rnd player e) (fun '(e1, shots) =>
        obind (update_frames rest e1) (fun '(e2, shots') =>
          Ok (e2, shots ++ shots')))
  end.

End WithHost.

(** Whether [engine.player] is there and not destroyed. *)
Definition live (player : option PlayerView) : bool :=
  match player with Some pv => negb (pv_destroyed pv) | None => false end.

(** The moves of the state machine within one [update]: with a live
    player Idle to Chasing, Chasing to Attacking or Idle, Attacking to
    Chasing; without one Chasing, Attacking and Fleeing to Idle; always
    Dying to Inactive; and every state to itself. *)
Definition fsm_edge (withPlayer : bool) (a b : EnemyState) : bool :=
  match a, b with
  | IDLE, CHASING | CHASING, ATTACKING | ATTACKING, CHASING => withPlayer
  | CHASING, IDLE => true
  | ATTACKING, IDLE | FLEEING, IDLE => negb withPlayer
  | DYING, INACTIVE => true
  | _, _ => state_eqb a b
  end.


End Enemy.

(** ** Bullet (Bullets.js, lines 1-121) *)

Module Bullet.

(** The bullet.  [position] is [mesh.position] and [visible] is
    [mesh.visible].  The centre of [boundingSphere] is no field: the
    constructor hands [mesh.position] itself to the sphere, so the two
    are one object and [updateBoundingVolume] copies it onto itself. *)
Record t : Type := mk {
  speed : Q;
  damage : Q;
  isPlayerBullet : bool;
  maxLifespan : Q;
  lifespanTimer : Q;
  _destroyed : bool;
  visible : bool;
  position : Vector3;
  direction : Vector3
}.

(** The constructor, lines 9-36. *)
Definition new : t :=
  mk 15 5 true 3.0 0 true false v3_zero (mkVector3 0 0 (-1)).

(** [destroy()], lines 110-117. *)
Definition destroy (b : t) : t :=
  if _destroyed b then b
  else mk (speed b) (damage b) (isPlayerBullet b) (maxLifespan b)
          (lifespanTimer b) true false (position b) (direction b).

Section WithHost.
Context {host : Host}.

(** [reset(originPosition, direction, damage, isPlayerBullet)], lines
    39-72; a missing position or direction is [None]. *)
Definition reset (originPosition dir : option Vector3) (dmg : Q)
  (isPlayer : bool) (b : t) : t :=
  match originPosition, dir with
  | Some origin, Some d =>
      mk (if isPlayer then 25 else 18) dmg isPlayer (maxLifespan b) 0
         false true origin (normalize d)
  | _, _ => destroy b
  end.

End WithHost.

(** [update(dt)], lines 75-95. *)
Definition update (dt : Q) (b : t) : t :=
  if _destroyed b then b
  else
    let moveDistance := speed b * dt in
    let moveVector := v3_scale (direction b) moveDistance in
    let b1 :=
      mk (speed b) (damage b) (isPlayerBullet b) (maxLifespan b)
         (lifespanTimer b + dt) (_destroyed b) (visible b)
         (v3_add (position b) moveVector) (direction b) in
    if Qleb (maxLifespan b1) (lifespanTimer b1) then destroy b1 else b1.

(** [update(dt)] once per frame, for frames of the given lengths. *)
Definition update_frames (dts : list Q) (b : t) : t :=
  fold_left (fun acc dt => update dt acc) dts b.

End Bullet.

(** ** PowerUp (InputState.js, lines 246-371) *)

Module PowerUp.

(** What [collect] and [reset] read of an entry of
    [GameEngine3D.powerUpTypes]. *)
Record Config : Type := mkConfig {
  cfg_duration : Q;
  cfg_amount : option Q;
  cfg_multiplier : option Q
}.

(** [GameEngine3D.powerUpTypes], UIManager.js lines 141-145, in the
    order of its keys. *)
Definition powerUpTypes : list (string * Config) :=
  [("heal"%string, mkConfig 0 None None);
   ("speed"%string, mkConfig 5000 None None);
   ("shield"%string, mkConfig 7000 None None)].

Fixpoint lookup_type (ty : string) (table : list (string * Config))
  : option Config :=
  match table with
  | [] => None
  | (k, c) :: rest => if String.eqb k ty then Some c else lookup_type ty rest
  end.

(** The static physics body, created by the first [reset]. *)
Record Body : Type := mkBody {
  body_position : Vector3;
  body_velocity : Vector3
}.

(** The power-up.  [position], [orientation] and [visible] are those of
    [mesh]. *)
Record t : Type := mk {
  type : string;
  config : option Config;
  _destroyed : bool;
  bobTimer : Q;
  bobSpeed : Q;
  bobAmount : Q;
  rotateSpeed : Q;
  visible : bool;
  position : Vector3;
  orientation : Quaternion;
  physicsBody : option Body
}.

(** [destroy()], lines 365-370. *)
Definition destroy (p : t) : t :=
  if _destroyed p then p
  else mk (type p) (config p) true (bobTimer p) (bobSpeed p) (bobAmount p)
          (rotateSpeed p) false (position p) (orientation p) (physicsBody p).

Section WithHost.
Context {host : Host}.

(** The constructor, lines 259-286; [r] is the value of [Math.random()]
    it draws. *)
Definition new (r : Q) : t :=
  mk "default" None true (r * Math_PI * 2) 1.5 0.1 0.8 false v3_zero
     (mkQuaternion 0 0 0 1) None.

(** [reset(position, type)], lines 288-327; [ty] is [None] when the
    caller passes [undefined], and [r1], [r2] are the two values of
    [Math.random()] drawn. *)
Definition reset (pos : Vector3) (ty : option string) (r1 r2 : Q) (p : t)
  : t :=
  let found :=
    match ty with
    | Some k =>
        match lookup_type k powerUpTypes with
        | Some c => Some (k, c)
        | None => None
        end
    | None => None
    end in
  let '(ty1, cfg) :=
    match found with
    | Some kc => kc
    | None => ("default"%string, mkConfig 0 None None)
    end in
  mk ty1 (Some cfg) false (r2 * Math_PI * 2) (bobSpeed p) (bobAmount p)
     (rotateSpeed p) true pos (quaternion_of_yaw (r1 * Math_PI * 2))
     (Some (mkBody pos v3_zero)).

End WithHost.

(** [collect(player)], lines 343-363; [now] is the value
    [performance.now()] has during the call. *)
Definition collect (now : Q) (player : PlayerPowerUps.t) (p : t)
  : Outcome (t * PlayerPowerUps.t) :=
  if _destroyed p then Ok (p, player)
  else
    let affected : Outcome PlayerPowerUps.t :=
      if String.eqb (type p) "heal" then
        match config p with
        | Some cfg =>
            Ok (PlayerPowerUps.heal (or_default (cfg_amount cfg) 25) player)
        | None => TypeError
        end
      else if String.eqb (type p) "speed" then
        match config p with
        | Some cfg =>
            Ok (PlayerPowerUps.applySpeedBoost now
                  (or_default (cfg_multiplier cfg) 1.5) (cfg_duration cfg)
                  player)
        | None => TypeError
        end
      else if String.eqb (type p) "shield" then
        match config p with
        | Some cfg =>
            Ok (PlayerPowerUps.activateShield now (cfg_duration cfg) player)
        | None => TypeError
        end
      else Ok player in
    obind affected (fun player' => Ok (destroy p, player')).

End PowerUp.

(** An entry of [activeEffects]: the engine only reads [_destroyed] and
    [mesh] of it, and no class of the repository describes it further. *)
Module Effect.

Record t : Type := mk {
  _destroyed : bool;
  has_mesh : bool
}.

End Effect.

(** A host for the examples: [Math.PI] is the double nearest to pi,
    every call of [Math.random()] yields 0.5, and meshes keep facing
    along the z axis. *)
Definition example_host : Host := {|
  Math_PI := 884279719003555 # 281474976710656;
  Math_cos := fun _ => 1;
  Math_sin := fun _ => 0;
  Math_random := fun _ => 0.5;
  normalize := fun v => v;
  quaternion_of_yaw := fun _ => mkQuaternion 0 0 0 1;
  getWorldDirection := fun _ => mkVector3 0 0 1;
  lookAt_rotation := fun _ _ => mkQuaternion 0 0 0 1;
  slerp := fun a _ _ => a;
  object_lookAt := fun _ _ => mkQuaternion 0 0 0 1;
  localToWorld := fun pos _ k v => v3_add pos (v3_scale v k)
|}.

(** ** JavaScript arrays *)

(** [l.push(x)]. *)
Definition push {A : Type} (x : A) (l : list A) : list A := l ++ [x].

(** [l.pop()] on a list: the last element and the list without it;
    [None] on the empty list. *)
Fixpoint pop {A : Type} (l : list A) : option (A * list A) :=
  match l with
  | [] => None
  | x :: rest =>
      match pop rest with
      | None => Some (x, [])
      | Some (y, rest') => Some (y, x :: rest')
      end
  end.

(** ** GameEngine3D (UIManager.js, lines 120-997) *)

Module GameEngine3D.

(** The game states, lines 126-131. *)
Inductive GameState : Type :=
| TITLE
| LOADING
| PLAYING
| PAUSED
| GAME_OVER
| WAVE_TRANSITION.

(** The identity of a JavaScript object. *)
Definition ref : Type := positive.

(** The objects the engine holds in its pools and active lists.
    [engine.player] is not among them: it is the placeholder object of
    lines 327-396, which has no [_destroyed] field and is in no pool and
    no active list. *)
Inductive Obj : Type :=
| OBullet (b : Bullet.t)
| OEnemy (e : Enemy.t)
| OPowerUp (p : PowerUp.t)
| OEffect (fx : Effect.t).

(** [obj._destroyed]. *)
Definition destroyed (o : Obj) : bool :=
  match o with
  | OBullet b => Bullet._destroyed b
  | OEnemy e => Enemy._destroyed e
  | OPowerUp p => PowerUp._destroyed p
  | OEffect fx => Effect._destroyed fx
  end.

(** [obj._destroyed = d]. *)
Definition set_destroyed (d : bool) (o : Obj) : Obj :=
  match o with
  | OBullet b =>
      OBullet (Bullet.mk (Bullet.speed b) (Bullet.damage b)
                 (Bullet.isPlayerBullet b) (Bullet.maxLifespan b)
                 (Bullet.lifespanTimer b) d (Bullet.visible b)
                 (Bullet.position b) (Bullet.direction b))
  | OEnemy e => OEnemy (Enemy.set_destroyed d e)
  | OPowerUp p =>
      OPowerUp (PowerUp.mk (PowerUp.type p) (PowerUp.config p) d
                  (PowerUp.bobTimer p) (PowerUp.bobSpeed p)
                  (PowerUp.bobAmount p) (PowerUp.rotateSpeed p)
                  (PowerUp.visible p) (PowerUp.position p)
                  (PowerUp.orientation p) (PowerUp.physicsBody p))
  | OEffect fx => OEffect (Effect.mk d (Effect.has_mesh fx))
  end.

(** Whether [obj.mesh] is set: bullets, enemies and power-ups build
    their mesh in the constructor and never drop it. *)
Definition has_mesh (o : Obj) : bool :=
  match o with
  | OEffect fx => Effect.has_mesh fx
  | _ => true
  end.

(** A timer started by [setInterval] in [startNextWave], with the
    [spawnedCount] its callback closes over. *)
Record SpawnTimer : Type := mkSpawnTimer {
  st_interval : Q;
  st_spawnedCount : Z;
  st_cleared : bool
}.

(** The engine.  [heap] gives the object of every reference; [scene]
    holds the references of the objects whose mesh is in [this.scene]
    (every entity owns its mesh); [randomCalls] counts the calls of
    [Math.random()] made so far. *)
Record t : Type := mk {
  gameState : GameState;
  score : Q;
  currentWave : Z;
  enemiesToSpawn : Z;
  enemiesRemainingInWave : Z;
  enemiesActive : Z;
  waveCooldownTimer : Q;
  waveCooldownDuration : Q;
  activeEnemies : list ref;
  activeBullets : list ref;
  activePowerUps : list ref;
  activeEffects : list ref;
  pools : gmap string (list ref);
  scene : gset ref;
  heap : ref -> Obj;
  spawnTimers : list SpawnTimer;
  randomCalls : nat
}.

Definition set_gameState (x : GameState) (s : t) : t :=
  mk x (score s) (currentWave s) (enemiesToSpawn s)
     (enemiesRemainingInWave s) (enemiesActive s) (waveCooldownTimer s)
     (waveCooldownDuration s) (activeEnemies s) (activeBullets s)
     (activePowerUps s) (activeEffects s) (pools s) (scene s) (heap s)
     (spawnTimers s) (randomCalls s).

Definition set_score (x : Q) (s : t) : t :=
  mk (gameState s) x (currentWave s) (enemiesToSpawn s)
     (enemiesRemainingInWave s) (enemiesActive s) (waveCooldownTimer s)
     (waveCooldownDuration s) (activeEnemies s) (activeBullets s)
     (activePowerUps s) (activeEffects s) (pools s) (scene s) (heap s)
     (spawnTimers s) (randomCalls s).

Definition set_currentWave (x : Z) (s : t) : t :=
  mk (gameState s) (score s) x (enemiesToSpawn s) (enemiesRemainingInWave s)
     (enemiesActive s) (waveCooldownTimer s) (waveCooldownDuration s)
     (activeEnemies s) (activeBullets s) (activePowerUps s)
     (activeEffects s) (pools s) (scene s) (heap s) (spawnTimers s)
     (randomCalls s).

Definition set_enemiesToSpawn (x : Z) (s : t) : t :=
  mk (gameState s) (score s) (currentWave s) x (enemiesRemainingInWave s)
     (enemiesActive s) (waveCooldownTimer s) (waveCooldownDuration s)
     (activeEnemies s) (activeBullets s) (activePowerUps s)
     (activeEffects s) (pools s) (scene s) (heap s) (spawnTimers s)
     (randomCalls s).

Definition set_enemiesRemainingInWave (x : Z) (s : t) : t :=
  mk (gameState s) (score s) (currentWave s) (enemiesToSpawn s) x
     (enemiesActive s) (waveCooldownTimer s) (waveCooldownDuration s)
     (activeEnemies s) (activeBullets s) (activePowerUps s)
     (activeEffects s) (pools s) (scene s) (heap s) (spawnTimers s)
     (randomCalls s).

Definition set_enemiesActive (x : Z) (s : t) : t :=
  mk (gameState s) (score s) (currentWave s) (enemiesToSpawn s)
     (enemiesRemainingInWave s) x (waveCooldownTimer s)
     (waveCooldownDuration s) (activeEnemies s) (activeBullets s)
     (activePowerUps s) (activeEffects s) (pools s) (scene s) (heap s)
     (spawnTimers s) (randomCalls s).

Definition set_waveCooldownTimer (x : Q) (s : t) : t :=
  mk (gameState s) (score s) (currentWave s) (enemiesToSpawn s)
     (enemiesRemainingInWave s) (enemiesActive s) x (waveCooldownDuration s)
     (activeEnemies s) (activeBullets s) (activePowerUps s)
     (activeEffects s) (pools s) (scene s) (heap s) (spawnTimers s)
     (randomCalls s).

Definition set_activeEnemies (x : list ref) (s : t) : t :=
  mk (gameState s) (score s) (currentWave s) (enemiesToSpawn s)
     (enemiesRemainingInWave s) (enemiesActive s) (waveCooldownTimer s)
     (waveCooldownDuration s) x (activeBullets s) (activePowerUps s)
     (activeEffects s) (pools s) (scene s) (heap s) (spawnTimers s)
     (randomCalls s).

Definition set_activeBullets (x : list ref) (s : t) : t :=
  mk (gameState s) (score s) (currentWave s) (enemiesToSpawn s)
     (enemiesRemainingInWave s) (enemiesActive s) (waveCooldownTimer s)
     (waveCooldownDuration s) (activeEnemies s) x (activePowerUps s)
     (activeEffects s) (pools s) (scene s) (heap s) (spawnTimers s)
     (randomCalls s).

Definition set_activePowerUps (x : list ref) (s : t) : t :=
  mk (gameState s) (score s) (currentWave s) (enemiesToSpawn s)
     (enemiesRemainingInWave s) (enemiesActive s) (waveCooldownTimer s)
     (waveCooldownDuration s) (activeEnemies s) (activeBullets s) x
     (activeEffects s) (pools s) (scene s) (heap s) (spawnTimers s)
     (randomCalls s).

Definition set_activeEffects (x : list ref) (s : t) : t :=
  mk (gameState s) (score s) (currentWave s) (enemiesToSpawn s)
     (enemiesRemainingInWave s) (enemiesActive s) (waveCooldownTimer s)
     (waveCooldownDuration s) (activeEnemies s) (activeBullets s)
     (activePowerUps s) x (pools s) (scene s) (heap s) (spawnTimers s)
     (randomCalls s).

Definition set_pools (x : gmap string (list ref)) (s : t) : t :=
  mk (gameState s) (score s) (currentWave s) (enemiesToSpawn s)
     (enemiesRemainingInWave s) (enemiesActive s) (waveCooldownTimer s)
     (waveCooldownDuration s) (activeEnemies s) (activeBullets s)
     (activePowerUps s) (activeEffects s) x (scene s) (heap s)
     (spawnTimers s) (randomCalls s).

Definition set_scene (x : gset ref) (s : t) : t :=
  mk (gameState s) (score s) (currentWave s) (enemiesToSpawn s)
     (enemiesRemainingInWave s) (enemiesActive s) (waveCooldownTimer s)
     (waveCooldownDuration s) (activeEnemies s) (activeBullets s)
     (activePowerUps s) (activeEffects s) (pools s) x (heap s)
     (spawnTimers s) (randomCalls s).

Definition set_heap (x : ref -> Obj) (s : t) : t :=
  mk (gameState s) (score s) (currentWave s) (enemiesToSpawn s)
     (enemiesRemainingInWave s) (enemiesActive s) (waveCooldownTimer s)
     (waveCooldownDuration s) (activeEnemies s) (activeBullets s)
     (activePowerUps s) (activeEffects s) (pools s) (scene s) x
     (spawnTimers s) (randomCalls s).

Definition set_spawnTimers (x : list SpawnTimer) (s : t) : t :=
  mk (gameState s) (score s) (currentWave s) (enemiesToSpawn s)
     (enemiesRemainingInWave s) (enemiesActive s) (waveCooldownTimer s)
     (waveCooldownDuration s) (activeEnemies s) (activeBullets s)
     (activePowerUps s) (activeEffects s) (pools s) (scene s) (heap s) x
     (randomCalls s).

Definition set_randomCalls (x : nat) (s : t) : t :=
  mk (gameState s) (score s) (currentWave s) (enemiesToSpawn s)
     (enemiesRemainingInWave s) (enemiesActive s) (waveCooldownTimer s)
     (waveCooldownDuration s) (activeEnemies s) (activeBullets s)
     (activePowerUps s) (activeEffects s) (pools s) (scene s) (heap s)
     (spawnTimers s) x.


(** [GameEngine3D.enemyTypes], lines 135-140, in the order of its keys. *)
Definition enemyTypes : list (string * Enemy.Config) :=
  [("basic"%string,
    Enemy.mkConfig 15 1 30 2 (Some 1) (Some 0.05) None None None None None);
   ("tank"%string,
    Enemy.mkConfig 25 2 38 1.5 (Some 1.5) (Some 0.10) None None None None
      None);
   ("fast"%string,
    Enemy.mkConfig 10 1.5 18 3 (Some 0.8) (Some 0.08) None None None None
      None);
   ("shooter"%string,
    Enemy.mkConfig 20 3 15 1.8 (Some 1) (Some 0.15) (Some true) (Some 2000)
      (Some 20) (Some 15) None)].

Fixpoint lookup_enemyType (ty : string)
  (table : list (string * Enemy.Config)) : option Enemy.Config :=
  match table with
  | [] => None
  | (k, c) :: rest =>
      if String.eqb k ty then Some c else lookup_enemyType ty rest
  end.

(** The constructor, lines 205-230: the state of the game, the active
    lists and the pools.  [store] gives the objects references denote. *)
Definition new (store : ref -> Obj) : t :=
  mk TITLE 0 0 0 0 0 0 3000 [] [] [] []
     (<["enemies"%string := []]>
        (<["bullets"%string := []]> (<["powerUps"%string := []]> ∅)))
     ∅ store [] 0.

(** [heap[r] = o]. *)
Definition heap_set (r : ref) (o : Obj) (h : ref -> Obj) : ref -> Obj :=
  fun r' => if Pos.eqb r' r then o else h r'.

(** [scene.add(obj.mesh)] and [scene.remove(obj.mesh)], guarded by
    [if (obj.mesh)]. *)
Definition scene_add (r : ref) (s : t) : t :=
  if has_mesh (heap s r) then set_scene (scene s ∪ {[r]}) s else s.

Definition scene_remove (r : ref) (s : t) : t :=
  if has_mesh (heap s r) then set_scene (scene s ∖ {[r]}) s else s.

(** Computations of the engine: they read and write its state and may
    fail. *)
Definition M (A : Type) : Type := t -> Outcome (A * t).

Definition ret {A : Type} (a : A) : M A := fun s => Ok (a, s).

Definition bind {A B : Type} (m : M A) (k : A -> M B) : M B :=
  fun s => obind (m s) (fun '(a, s1) => k a s1).

Notation "x <- m ;; k" := (bind m (fun x => k))
  (at level 100, m at level 99, k at level 200, right associativity).

Definition modify (f : t -> t) : M unit := fun s => Ok (tt, f s).

Definition gets {A : Type} (f : t -> A) : M A := fun s => Ok (f s, s).

Definition wrongClass {A : Type} : M A := fun _ => WrongClass.

(** [getObjectFromPool(poolName)], lines 722-739.  [pool.length] throws
    when [this.pools[poolName]] is [undefined]; an empty pool falls
    through to the [switch], whose only branch returns [null]. *)
Definition getObjectFromPool (poolName : string) : M (option ref) :=
  fun s =>
    match pools s !! poolName with
    | None => TypeError
    | Some pool =>
        match pop pool with
        | Some (obj, rest) =>
            let s1 := set_pools (<[poolName := rest]> (pools s)) s in
            let s2 :=
              set_heap (heap_set obj (set_destroyed false (heap s1 obj))
                          (heap s1)) s1 in
            Ok (Some obj, scene_add obj s2)
        | None => Ok (None, s)
        end
    end.

(** [returnObjectToPool(object, poolName)], lines 741-751; [None] is a
    [null] object. *)
Definition returnObjectToPool (object : option ref) (poolName : string)
  (s : t) : t :=
  match object with
  | None => s
  | Some obj =>
      let s1 :=
        set_heap (heap_set obj (set_destroyed true (heap s obj)) (heap s)) s in
      let s2 := scene_remove obj s1 in
      match pools s2 !! poolName with
      | Some pool => set_pools (<[poolName := push obj pool]> (pools s2)) s2
      | None => s2
      end
  end.

(** The instance is in the pool of that name. *)
Definition in_pool (poolName : string) (r : ref) (s : t) : Prop :=
  exists pool, pools s !! poolName = Some pool /\ r ∈ pool.

(** The entities of the four active lists. *)
Definition active (s : t) : list ref :=
  activeBullets s ++ activePowerUps s ++ activeEffects s ++ activeEnemies s.

Definition is_enemy (o : Obj) : bool :=
  match o with OEnemy _ => true | _ => false end.

Definition is_powerUp (o : Obj) : bool :=
  match o with OPowerUp _ => true | _ => false end.

(** The three pools of the constructor are registered and the lists
    hold objects of their class: [activeEnemies] holds enemies, and the
    pool [powerUps] and [activePowerUps] hold power-ups. *)
Definition well_typed (s : t) : Prop :=
  is_Some (pools s !! "enemies"%string)
  /\ is_Some (pools s !! "bullets"%string)
  /\ is_Some (pools s !! "powerUps"%string)
  /\ (forall r, r ∈ activeEnemies s -> is_enemy (heap s r) = true)
  /\ (forall r, r ∈ activePowerUps s -> is_powerUp (heap s r) = true)
  /\ (forall r, in_pool "powerUps" r s -> is_powerUp (heap s r) = true).

(** A destroyed entity has no mesh in the scene. *)
Definition invisible (r : ref) (s : t) : Prop :=
  has_mesh (heap s r) = true -> r ∉ scene s.

(** The invariant of the pools: a destroyed entity outside the active
    lists has no mesh in the scene. *)
Definition pooled_invisible (s : t) : Prop :=
  forall r, r ∉ active s -> destroyed (heap s r) = true -> invisible r s.

(** Two engines with the same objects, scene, pools and active lists. *)
Definition same_world (s s' : t) : Prop :=
  heap s' = heap s /\ scene s' = scene s /\ pools s' = pools s
  /\ activeBullets s' = activeBullets s /\ activePowerUps s' = activePowerUps s
  /\ activeEffects s' = activeEffects s /\ activeEnemies s' = activeEnemies s.

(** What every step of the cleanup pass keeps, from the engine [s]
    before it to the engine [s'] after it: an object that is destroyed
    afterwards is the object it was, has not entered the scene and has
    not left a pool; objects keep their class; pools stay registered
    and the pool [powerUps] gets no new member; the lists of active
    bullets, effects and enemies stay, and the list of active power-ups
    only grows by power-ups that are not destroyed. *)
Record benign (s s' : t) : Prop := mkBenign {
  bn_heap : forall r, destroyed (heap s' r) = true -> heap s' r = heap s r;
  bn_class : forall r,
    is_enemy (heap s' r) = is_enemy (heap s r)
    /\ is_powerUp (heap s' r) = is_powerUp (heap s r)
    /\ has_mesh (heap s' r) = has_mesh (heap s r);
  bn_scene : forall r,
    destroyed (heap s' r) = true -> r ∈ scene s' -> r ∈ scene s;
  bn_pool : forall q r,
    destroyed (heap s' r) = true -> in_pool q r s -> in_pool q r s';
  bn_registered : forall q,
    is_Some (pools s !! q) -> is_Some (pools s' !! q);
  bn_powerUps_pool : forall r,
    in_pool "powerUps" r s' -> in_pool "powerUps" r s;
  bn_bullets : activeBullets s' = activeBullets s;
  bn_effects : activeEffects s' = activeEffects s;
  bn_enemies : activeEnemies s' = activeEnemies s;
  bn_powerUps : exists spawned,
    activePowerUps s' = activePowerUps s ++ spawned
    /\ forall x, x ∈ spawned ->
         destroyed (heap s' x) = false /\ is_powerUp (heap s' x) = true
}.

(** What the filter of [cleanupEntities] over [entities] does, from
    the engine [s] to the engine [s'] with the list [kept]: no object
    changes; the entities kept are those not destroyed; the scene loses
    the meshes of the destroyed ones and gains none; the pool
    [poolName], if registered, gains the destroyed ones, and no pool
    changes otherwise; the active lists are not touched. *)
Record cleaned (entities : list ref) (poolName : option string)
  (s s' : t) (kept : list ref) : Prop := mkCleaned {
  cl_heap : forall r, heap s' r = heap s r;
  cl_kept : forall r,
    r ∈ kept <-> r ∈ entities /\ destroyed (heap s r) = false;
  cl_scene : forall r, r ∈ scene s' -> r ∈ scene s;
  cl_gone : forall r,
    r ∈ entities -> destroyed (heap s r) = true -> invisible r s';
  cl_pool : forall q r, in_pool q r s -> in_pool q r s';
  cl_registered : forall q,
    is_Some (pools s !! q) <-> is_Some (pools s' !! q);
  cl_pool_new : forall q r,
    in_pool q r s' ->
    in_pool q r s \/
    (poolName = Some q /\ r ∈ entities /\ destroyed (heap s r) = true);
  cl_pooled : forall p r,
    poolName = Some p -> is_Some (pools s !! p) ->
    r ∈ entities -> destroyed (heap s r) = true -> in_pool p r s';
  cl_frame :
    activeBullets s' = activeBullets s
    /\ activePowerUps s' = activePowerUps s
    /\ activeEffects s' = activeEffects s
    /\ activeEnemies s' = activeEnemies s
}.

(** [returnObjectToPool(x, poolName)] for every [x] of a list, in order. *)
Definition releaseAll (xs : list ref) (poolName : string) (s : t) : t :=
  fold_left (fun acc x => returnObjectToPool (Some x) poolName acc) xs s.

(** [getObjectFromPool(poolName)] called [n] times: the results in order. *)
Fixpoint acquireN (n : nat) (poolName : string) : M (list (option ref)) :=
  match n with
  | O => ret []
  | S k =>
      x <- getObjectFromPool poolName ;;
      rest <- acquireN k poolName ;;
      ret (x :: rest)
  end.

(** [updateScore(amount)], lines 838-842; [Math.round] rounds half up. *)
Definition updateScore (amount : Q) (s : t) : t :=
  set_score (inject_Z (Qfloor (score s + amount + 0.5))) s.

(** [calculateEnemiesForWave(wave)], lines 813-815. *)
Definition calculateEnemiesForWave (wave : Z) : Z :=
  Qfloor (5 + inject_Z wave * 1.5).

(** [startNextWave()], lines 818-836; the callback of the timer it
    starts is [spawnTimerCallback]. *)
Definition startNextWave (s : t) : t :=
  let wave := (currentWave s + 1)%Z in
  let toSpawn := calculateEnemiesForWave wave in
  let spawnInterval := Qmax 200 (1500 - inject_Z wave * 50) in
  mk PLAYING (score s) wave toSpawn toSpawn 0 (waveCooldownTimer s)
     (waveCooldownDuration s) (activeEnemies s) (activeBullets s)
     (activePowerUps s) (activeEffects s) (pools s) (scene s) (heap s)
     (push (mkSpawnTimer spawnInterval 0 false) (spawnTimers s))
     (randomCalls s).

(** [updateGameState(dt)], lines 699-718. *)
Definition updateGameState (dt : Q) (s : t) : t :=
  match gameState s with
  | PLAYING =>
      if (0 <? enemiesRemainingInWave s)%Z && (enemiesActive s <=? 0)%Z
      then set_waveCooldownTimer (waveCooldownDuration s)
             (set_gameState WAVE_TRANSITION s)
      else s
  | WAVE_TRANSITION =>
      let s1 := set_waveCooldownTimer (waveCooldownTimer s - dt * 1000) s in
      if Qleb (waveCooldownTimer s1) 0 then startNextWave s1 else s1
  | _ => s
  end.

(** The filter of [cleanupEntities], lines 663-673: the entities kept,
    in order, and the engine after the side effects on the others. *)
Fixpoint cleanupList (entities : list ref) (poolName : option string)
  (s : t) : list ref * t :=
  match entities with
  | [] => ([], s)
  | entity :: rest =>
      if destroyed (heap s entity) then
        let s1 := scene_remove entity s in
        let s2 :=
          match poolName with
          | Some pn => returnObjectToPool (Some entity) pn s1
          | None => s1
          end in
        cleanupList rest poolName s2
      else
        let '(kept, s') := cleanupList rest poolName s in
        (entity :: kept, s')
  end.


(** [endGame()], lines 849-859: the engine after the call.  Its last
    statements write to the elements of the page and read no field of
    the engine. *)
Definition endGame (s : t) : t :=
  match gameState s with
  | GAME_OVER => s
  | _ => set_gameState GAME_OVER s
  end.

(** [this.pools[poolName]?.includes(entity)]. *)
Definition pool_includes (poolName : string) (entity : ref) (s : t) : bool :=
  match pools s !! poolName with
  | Some pool => bool_decide (entity ∈ pool)
  | None => false
  end.

(** The body of the loop of [resetGame] over the active entities, lines
    884-890. *)
Definition resetEntity (entity : ref) (s : t) : t :=
  let s1 := scene_remove entity s in
  if pool_includes "bullets" entity s1
  then returnObjectToPool (Some entity) "bullets" s1
  else if pool_includes "enemies" entity s1
  then returnObjectToPool (Some entity) "enemies" s1
  else if pool_includes "powerUps" entity s1
  then returnObjectToPool (Some entity) "powerUps" s1
  else s1.

(** [resetGame()], lines 861-904: the engine after its writes.
    [engine.player] is the placeholder the engine has created, whose
    health and position are no part of this state. *)
Definition resetGame (s : t) : t :=
  let s1 := set_currentWave 0 (set_score 0 s) in
  let entities :=
    activeBullets s1 ++ activeEnemies s1 ++ activePowerUps s1
    ++ activeEffects s1 in
  let s2 := fold_left (fun acc entity => resetEntity entity acc) entities s1 in
  mk (gameState s2) (score s2) (currentWave s2) 0 0 0 0
     (waveCooldownDuration s2) [] [] [] [] (pools s2) (scene s2) (heap s2)
     (spawnTimers s2) (randomCalls s2).

(** [transitionToGame()], lines 906-915.  [gameOverElem] tells whether
    the page has the element of the game-over screen: the last statement
    of [resetGame] writes to [this.gameOverElem.style] and throws
    without it. *)
Definition transitionToGame (gameOverElem : bool) (s : t) : Outcome t :=
  match gameState s with
  | TITLE | GAME_OVER =>
      let s1 := resetGame s in
      if gameOverElem then
        Ok (set_waveCooldownTimer (waveCooldownDuration s1)
              (set_gameState WAVE_TRANSITION s1))
      else TypeError
  | _ => Ok s
  end.


(** The engine after [getObjectFromPool] has popped [r]. *)
Definition popped (poolName : string) (pool : list ref) (r : ref) (s : t) : t :=
  let s1 := set_pools (<[poolName := pool]> (pools s)) s in
  let s2 :=
    set_heap (heap_set r (set_destroyed false (heap s1 r)) (heap s1)) s1 in
  scene_add r s2.

(** The engine after a spawn of the enemy [r] as [e']: [s1] is the
    engine after the pop and [n] the number of calls of
    [Math.random()] made. *)
Definition spawned (r : ref) (e' : Enemy.t) (n : nat) (s1 : t) : t :=
  let s4 := set_randomCalls n s1 in
  let s5 := set_heap (heap_set r (OEnemy e') (heap s4)) s4 in
  let s6 := set_activeEnemies (push r (activeEnemies s5)) s5 in
  set_enemiesActive (enemiesActive s6 + 1)%Z s6.

(** The pool [enemies] is registered and holds enemies only. *)
Definition enemies_pooled (s : t) : Prop :=
  is_Some (pools s !! "enemies"%string)
  /\ forall r, in_pool "enemies" r s -> is_enemy (heap s r) = true.

Section WithHost.
Context {host : Host}.

(** [Math.random()]. *)
Definition random : M Q :=
  fun s => Ok (Math_random (randomCalls s),
               set_randomCalls (S (randomCalls s)) s).

(** [getRandomSpawnPosition()], lines 786-794. *)
Definition getRandomSpawnPosition : M Vector3 :=
  r1 <- random ;;
  r2 <- random ;;
  let radius := 30 + r1 * 10 in
  let angle := r2 * Math_PI * 2 in
  ret (mkVector3 (Math_cos angle * radius) 0.5 (Math_sin angle * radius)).

(** The loop of [getRandomEnemyTypeByWaveNumber] over the keys of
    [chances]. *)
Fixpoint pickType (chances : list (string * Q)) (scale cumulative rand : Q)
  : string :=
  match chances with
  | [] => "basic"
  | (ty, chance) :: rest =>
      let cumulative' := cumulative + chance * scale in
      if Qltb rand cumulative' then ty
      else pickType rest scale cumulative' rand
  end.

(** [getRandomEnemyTypeByWaveNumber(wave)], lines 796-811. *)
Definition getRandomEnemyTypeByWaveNumber (wave : Z) : M string :=
  let w := inject_Z wave in
  let basic := Qmax 0 (1 - w * 0.08) in
  let fast := if (2 <=? wave)%Z then Qmin 0.4 (w * 0.05) else 0 in
  let tank := if (3 <=? wave)%Z then Qmin 0.3 ((w - 2) * 0.04) else 0 in
  let shooter := if (5 <=? wave)%Z then Qmin 0.25 ((w - 4) * 0.03) else 0 in
  let totalChance := basic + fast + tank + shooter in
  if Qleb totalChance 0 then ret "basic"%string
  else
    rand <- random ;;
    ret (pickType
           [("basic"%string, basic); ("tank"%string, tank);
            ("fast"%string, fast); ("shooter"%string, shooter)]
           (1 / totalChance) 0 rand).

(** [spawnEnemy()], lines 753-763. *)
Definition spawnEnemy : M unit :=
  enemy <- getObjectFromPool "enemies" ;;
  match enemy with
  | None => ret tt
  | Some r =>
      wave <- gets currentWave ;;
      ty <- getRandomEnemyTypeByWaveNumber wave ;;
      spawnPosition <- getRandomSpawnPosition ;;
      o <- gets (fun s => heap s r) ;;
      match o, lookup_enemyType ty enemyTypes with
      | OEnemy e, Some cfg =>
          r1 <- random ;;
          r2 <- random ;;
          r3 <- (if Enemy.state_eqb Enemy.IDLE (Enemy.currentState e)
                 then ret 0 else random) ;;
          modify (fun s =>
            let s1 :=
              set_heap
                (heap_set r (OEnemy (Enemy.reset ty cfg spawnPosition
                                       r1 r2 r3 e)) (heap s)) s in
            let s2 := set_activeEnemies (push r (activeEnemies s1)) s1 in
            set_enemiesActive (enemiesActive s2 + 1)%Z s2)
      | OEnemy _, None => fun _ => TypeError
      | _, _ => wrongClass
      end
  end.

(** [spawnBullet(originPosition, direction, damage, isPlayerBullet)],
    lines 765-772. *)
Definition spawnBullet (originPosition direction : option Vector3)
  (damage : Q) (isPlayerBullet : bool) : M unit :=
  bullet <- getObjectFromPool "bullets" ;;
  match bullet with
  | None => ret tt
  | Some r =>
      o <- gets (fun s => heap s r) ;;
      match o with
      | OBullet b =>
          modify (fun s =>
            let s1 :=
              set_heap
                (heap_set r (OBullet (Bullet.reset originPosition direction
                                        damage isPlayerBullet b)) (heap s))
                s in
            set_activeBullets (push r (activeBullets s1)) s1)
      | _ => wrongClass
      end
  end.

(** [types[Math.floor(rand * types.length)]]. *)
Definition pickPowerUpType (rand : Q) : option string :=
  let types := map fst PowerUp.powerUpTypes in
  let i := Qfloor (rand * inject_Z (Z.of_nat (length types))) in
  if (i <? 0)%Z then None else nth_error types (Z.to_nat i).

(** [spawnPowerUp(position)], lines 774-783. *)
Definition spawnPowerUp (position : Vector3) : M unit :=
  powerUp <- getObjectFromPool "powerUps" ;;
  match powerUp with
  | None => ret tt
  | Some r =>
      rand <- random ;;
      o <- gets (fun s => heap s r) ;;
      match o with
      | OPowerUp p =>
          r1 <- random ;;
          r2 <- random ;;
          modify (fun s =>
            let s1 :=
              set_heap
                (heap_set r (OPowerUp (PowerUp.reset position
                                         (pickPowerUpType rand) r1 r2 p))
                   (heap s)) s in
            set_activePowerUps (push r (activePowerUps s1)) s1)
      | _ => wrongClass
      end
  end.

(** The loop over [activeEnemies] in [cleanupEntities], lines 680-694:
    the enemies that remain. *)
Fixpoint cleanupEnemies (enemies remainingEnemies : list ref)
  : M (list ref) :=
  match enemies with
  | [] => ret remainingEnemies
  | enemy :: rest =>
      o <- gets (fun s => heap s enemy) ;;
      if destroyed o then
        match o with
        | OEnemy e =>
            _ <- modify (fun s =>
                   set_enemiesActive (enemiesActive s - 1)%Z s) ;;
            _ <- modify (updateScore (Enemy.score e)) ;;
            _ <- modify (scene_remove enemy) ;;
            rand <- random ;;
            _ <- (if Qltb rand (Enemy.dropChance e)
                  then spawnPowerUp (Enemy.position e) else ret tt) ;;
            _ <- modify (returnObjectToPool (Some enemy) "enemies") ;;
            cleanupEnemies rest remainingEnemies
        | _ => wrongClass
        end
      else cleanupEnemies rest (push enemy remainingEnemies)
  end.

(** [cleanupEntities()], lines 661-696. *)
Definition cleanupEntities : M unit :=
  _ <- modify (fun s =>
         let '(kept, s1) := cleanupList (activeBullets s) (Some "bullets") s in
         set_activeBullets kept s1) ;;
  _ <- modify (fun s =>
         let '(kept, s1) :=
           cleanupList (activePowerUps s) (Some "powerUps") s in
         set_activePowerUps kept s1) ;;
  _ <- modify (fun s =>
         let '(kept, s1) := cleanupList (activeEffects s) None s in
         set_activeEffects kept s1) ;;
  enemies <- gets activeEnemies ;;
  remainingEnemies <- cleanupEnemies enemies [] ;;
  modify (set_activeEnemies remainingEnemies).

(** The callback of the [k]-th timer started by [startNextWave], lines
    828-835. *)
Definition spawnTimerCallback (k : nat) : M unit :=
  timers <- gets spawnTimers ;;
  match timers !! k with
  | None => ret tt
  | Some timer =>
      if st_cleared timer then ret tt
      else
        toSpawn <- gets enemiesToSpawn ;;
        state <- gets gameState ;;
        match state with
        | PLAYING =>
            if (st_spawnedCount timer <? toSpawn)%Z then
              _ <- spawnEnemy ;;
              modify (fun s =>
                set_spawnTimers
                  (<[k := mkSpawnTimer (st_interval timer)
                            (st_spawnedCount timer + 1) false]>
                     (spawnTimers s)) s)
            else
              modify (fun s =>
                set_spawnTimers
                  (<[k := mkSpawnTimer (st_interval timer)
                            (st_spawnedCount timer) true]>
                     (spawnTimers s)) s)
        | _ =>
            modify (fun s =>
              set_spawnTimers
                (<[k := mkSpawnTimer (st_interval timer)
                          (st_spawnedCount timer) true]>
                   (spawnTimers s)) s)
        end
  end.

(** The callback of the [k]-th timer run [n] times by the browser, with
    nothing else in between. *)
Fixpoint spawnTimerCallback_runs (k n : nat) : M unit :=
  match n with
  | O => ret tt
  | S n' =>
      _ <- spawnTimerCallback k ;;
      spawnTimerCallback_runs k n'
  end.

End WithHost.

End GameEngine3D.

(** ** InputState (InputState.js, lines 1-163) *)

Module InputState.

(** [mouse.buttons]. *)
Record Buttons : Type := mkButtons {
  button_left : bool;
  button_right : bool;
  button_middle : bool
}.

(** [actions]: the continuous ones are recomputed by [update], the
    triggered ones are set by an event and cleared by [resetTriggers]. *)
Record Actions : Type := mkActions {
  forward : bool;
  backward : bool;
  left : bool;
  right : bool;
  jump : bool;
  shoot : bool;
  shootPressed : bool;
  switchWeaponPrev : bool;
  switchWeaponNext : bool;
  pause : bool;
  interact : bool
}.

(** The input state.  [keys] is the object indexed by [e.code];
    [mouse_x], [mouse_y], [buttons], [deltaX], [deltaY] and
    [isPointerLocked] are the fields of [mouse]. *)
Record t : Type := mk {
  keys : gmap string bool;
  mouse_x : Q;
  mouse_y : Q;
  buttons : Buttons;
  deltaX : Q;
  deltaY : Q;
  isPointerLocked : bool;
  actions : Actions;
  aimDelta : Q * Q
}.

(** The constructor, lines 5-36. *)
Definition new : t :=
  mk ∅ 0 0 (mkButtons false false false) 0 0 false
     (mkActions false false false false false false false false false false
        false)
     (0, 0).

(** [!!this.keys[code]]: a code never pressed is [undefined]. *)
Definition key (code : string) (i : t) : bool :=
  match keys i !! code with Some b => b | None => false end.

Definition set_keys (k : gmap string bool) (i : t) : t :=
  mk k (mouse_x i) (mouse_y i) (buttons i) (deltaX i) (deltaY i)
     (isPointerLocked i) (actions i) (aimDelta i).

Definition set_buttons (b : Buttons) (i : t) : t :=
  mk (keys i) (mouse_x i) (mouse_y i) b (deltaX i) (deltaY i)
     (isPointerLocked i) (actions i) (aimDelta i).

Definition set_actions (a : Actions) (i : t) : t :=
  mk (keys i) (mouse_x i) (mouse_y i) (buttons i) (deltaX i) (deltaY i)
     (isPointerLocked i) a (aimDelta i).

(** [handleKeyDown(e)], lines 56-65, for an event with the given
    [e.code] and [e.repeat]. *)
Definition handleKeyDown (code : string) (repeat : bool) (i : t) : t :=
  if repeat then i
  else
    let a := actions i in
    let a' :=
      mkActions (forward a) (backward a) (left a) (right a) (jump a)
        (shoot a)
        (if String.eqb code "Space" && negb (shoot a) then true
         else shootPressed a)
        (if String.eqb code "Digit1" then true else switchWeaponPrev a)
        (if String.eqb code "Digit2" then true else switchWeaponNext a)
        (if String.eqb code "KeyP" then true else pause a)
        (if String.eqb code "KeyE" then true else interact a) in
    set_actions a' (set_keys (<[code := true]> (keys i)) i).

(** [handleKeyUp(e)], lines 67-69. *)
Definition handleKeyUp (code : string) (i : t) : t :=
  set_keys (<[code := false]> (keys i)) i.

(** [handlePointerLockChange()], lines 71-81; [locked] tells whether
    [document.pointerLockElement] is the canvas. *)
Definition handlePointerLockChange (locked : bool) (i : t) : t :=
  if locked then
    mk (keys i) (mouse_x i) (mouse_y i) (buttons i) (deltaX i) (deltaY i)
       true (actions i) (aimDelta i)
  else
    mk (keys i) (mouse_x i) (mouse_y i) (buttons i) 0 0 false (actions i)
       (0, 0).

(** The rectangle [canvas.getBoundingClientRect()] yields. *)
Record Rect : Type := mkRect {
  rect_left : Q;
  rect_top : Q;
  rect_width : Q;
  rect_height : Q
}.

(** [handleMouseMove(e)], lines 83-93, for an event with the given
    [movementX], [movementY], [clientX] and [clientY] and a canvas whose
    rectangle is not empty (a division by a width or height of 0 is not
    followed). *)
Definition handleMouseMove (movementX movementY clientX clientY : Q)
  (rect : Rect) (i : t) : t :=
  if isPointerLocked i then
    mk (keys i) (mouse_x i) (mouse_y i) (buttons i)
       (deltaX i + movementX) (deltaY i + movementY)
       (isPointerLocked i) (actions i) (aimDelta i)
  else
    mk (keys i)
       ((clientX - rect_left rect) / rect_width rect * 2 - 1)
       (- ((clientY - rect_top rect) / rect_height rect) * 2 + 1)
       (buttons i) (deltaX i) (deltaY i) (isPointerLocked i) (actions i)
       (aimDelta i).

(** [handleMouseDown(e)], lines 95-108, for an event with the given
    [e.button]. *)
Definition handleMouseDown (button : Z) (i : t) : t :=
  if isPointerLocked i then
    let i1 :=
      if (button =? 0)%Z then
        let a := actions i in
        set_actions
          (mkActions (forward a) (backward a) (left a) (right a)
             (jump a) (shoot a)
             (if negb (shoot a) then true else shootPressed a)
             (switchWeaponPrev a) (switchWeaponNext a) (pause a)
             (interact a))
          (set_buttons (mkButtons true (button_right (buttons i))
                          (button_middle (buttons i))) i)
      else i in
    let i2 :=
      if (button =? 1)%Z
      then set_buttons (mkButtons (button_left (buttons i1)) (button_right (buttons i1))
                          true) i1
      else i1 in
    if (button =? 2)%Z
    then set_buttons (mkButtons (button_left (buttons i2)) true
                        (button_middle (buttons i2))) i2
    else i2
  else i.

(** [handleMouseUp(e)], lines 110-115. *)
Definition handleMouseUp (button : Z) (i : t) : t :=
  let b := buttons i in
  set_buttons
    (mkButtons (if (button =? 0)%Z then false else button_left b)
       (if (button =? 2)%Z then false else button_right b)
       (if (button =? 1)%Z then false else button_middle b)) i.

(** [update()], lines 118-138. *)
Definition update (i : t) : t :=
  let a := actions i in
  mk (keys i) (mouse_x i) (mouse_y i) (buttons i) 0 0 (isPointerLocked i)
     (mkActions (key "KeyW" i || key "ArrowUp" i)
        (key "KeyS" i || key "ArrowDown" i)
        (key "KeyA" i || key "ArrowLeft" i)
        (key "KeyD" i || key "ArrowRight" i)
        (key "Space" i)
        (button_left (buttons i) || key "ControlLeft" i || key "ControlRight" i)
        (shootPressed a) (switchWeaponPrev a) (switchWeaponNext a)
        (pause a) (interact a))
     (deltaX i, deltaY i).

(** [resetTriggers()], lines 141-148. *)
Definition resetTriggers (i : t) : t :=
  let a := actions i in
  set_actions
    (mkActions (forward a) (backward a) (left a) (right a) (jump a)
       (shoot a) false false false false false) i.

(** The events the listeners of [setupListeners] receive. *)
Inductive Event : Type :=
| KeyDown (code : string) (repeat : bool)
| KeyUp (code : string)
| PointerLockChange (locked : bool)
| MouseMove (movementX movementY clientX clientY : Q) (rect : Rect)
| MouseDown (button : Z)
| MouseUp (button : Z).

Definition handle (e : Event) (i : t) : t :=
  match e with
  | KeyDown code repeat => handleKeyDown code repeat i
  | KeyUp code => handleKeyUp code i
  | PointerLockChange locked => handlePointerLockChange locked i
  | MouseMove mx my cx cy rect => handleMouseMove mx my cx cy rect i
  | MouseDown button => handleMouseDown button i
  | MouseUp button => handleMouseUp button i
  end.

(** The events of a frame, in the order they arrive. *)
Definition handle_all (es : list Event) (i : t) : t :=
  fold_left (fun acc e => handle e acc) es i.

(** The horizontal and vertical mouse movement a list of events reports. *)
Fixpoint movement (es : list Event) : Q * Q :=
  match es with
  | [] => (0, 0)
  | MouseMove mx my _ _ _ :: rest =>
      (mx + fst (movement rest), my + snd (movement rest))
  | _ :: rest => movement rest
  end.

(** The event is none of [pointerlockchange]. *)
Definition keeps_lock (e : Event) : bool :=
  match e with PointerLockChange _ => false | _ => true end.

(** The event is a [mousemove] or a [mousedown]. *)
Definition moves_or_presses (e : Event) : bool :=
  match e with MouseMove _ _ _ _ _ | MouseDown _ => true | _ => false end.

(** The triggered actions that are set. *)
Definition triggers_leq (a b : Actions) : Prop :=
  (shootPressed a = true -> shootPressed b = true)
  /\ (switchWeaponPrev a = true -> switchWeaponPrev b = true)
  /\ (switchWeaponNext a = true -> switchWeaponNext b = true)
  /\ (pause a = true -> pause b = true)
  /\ (interact a = true -> interact b = true).

(** The triggered action a key sets. *)
Definition trigger_of (code : string) (a : Actions) : option bool :=
  if String.eqb code "KeyP" then Some (pause a)
  else if String.eqb code "KeyE" then Some (interact a)
  else if String.eqb code "Digit1" then Some (switchWeaponPrev a)
  else if String.eqb code "Digit2" then Some (switchWeaponNext a)
  else None.

End InputState.

(** ** Physics (WeaponManager.js, lines 729-935): the registry of bodies *)

Module Physics.

(** The identity of a [CANNON.Body] and of a [THREE.Mesh]. *)
Definition body : Type := positive.
Definition mesh : Type := positive.

(** What the registry reads of a game object: [gameObject.uuid], which
    is [undefined] for an object that has no such field. *)
Record GameObject : Type := mkGameObject {
  uuid : option string
}.

(** A call made on the [CANNON.World]. *)
Inductive WorldCall : Type :=
| AddBody (b : body)
| RemoveBody (b : body).

(** The registry.  [bodyMap] is keyed by [gameObject.uuid], [undefined]
    included; [gameObjectOf] holds the [gameObject] field written on
    the bodies; [world] lists the calls made on the physics world, the
    latest last; [listeners] counts the [collide] listeners of a body. *)
Record t : Type := mk {
  bodyMap : gmap (option string) body;
  meshMap : gmap body mesh;
  gameObjectOf : gmap body GameObject;
  world : list WorldCall;
  listeners : gmap body nat
}.

(** The maps of the constructor, lines 755-757. *)
Definition new : t := mk ∅ ∅ ∅ [] ∅.

(** [!gameObject.uuid]: [undefined] and the empty string are falsy. *)
Definition no_uuid (o : GameObject) : bool :=
  match uuid o with
  | Some u => String.eqb u ""
  | None => true
  end.

(** The number of [collide] listeners of a body. *)
Definition listenersOf (b : body) (p : t) : nat :=
  match listeners p !! b with Some n => n | None => O end.

(** [addBody(gameObject, body, mesh)], lines 836-857; a [null]
    argument is [None].  The listener handed to [addEventListener] is
    an arrow function made by this call, so it is one the body does not
    have yet. *)
Definition addBody (gameObject : option GameObject) (b : option body)
  (m : option mesh) (p : t) : t :=
  match gameObject, b, m with
  | Some o, Some b, Some m =>
      mk (<[uuid o := b]> (bodyMap p))
         (<[b := m]> (meshMap p))
         (<[b := o]> (gameObjectOf p))
         (push (AddBody b) (world p))
         (<[b := S (listenersOf b p)]> (listeners p))
  | _, _, _ => p
  end.

(** [removeBody(gameObject)], lines 859-872.  The function handed to
    [removeEventListener] is an arrow function made by this call, which
    is none of the listeners of the body: no listener is removed. *)
Definition removeBody (gameObject : option GameObject) (p : t) : t :=
  match gameObject with
  | None => p
  | Some o =>
      if no_uuid o then p
      else
        match bodyMap p !! uuid o with
        | Some b =>
            mk (delete (uuid o) (bodyMap p))
               (delete b (meshMap p))
               (gameObjectOf p)
               (push (RemoveBody b) (world p))
               (listeners p)
        | None => p
        end
  end.

(** [getBody(gameObject)], lines 874-876; [None] is [undefined] or
    [null]. *)
Definition getBody (gameObject : option GameObject) (p : t) : option body :=
  match gameObject with
  | Some o => bodyMap p !! uuid o
  | None => None
  end.

End Physics.

(** ** LocalizationService (Bullets.js, lines 315-772) *)

Module LocalizationService.
Import Stdlib.Strings.Ascii.

(** The data of a language file, as [response.json()] yields it: a
    string, an object with its own properties in order, or a value of
    another kind (a number, a boolean, [null]).  An array is the object
    of its indices.  For a name given twice in the file the object
    holds the later value only, as [JSON.parse] does. *)
#[warnings="-register-all"] Inductive Json : Type :=
| JString (s : string)
| JObject (fields : list (string * Json))
| JOther.

(** [value[part]] for an own property of an object. *)
Fixpoint property (part : string) (fields : list (string * Json))
  : option Json :=
  match fields with
  | [] => None
  | (k, v) :: rest => if String.eqb k part then Some v else property part rest
  end.

(** [s.split(sep)] for a separator of one character: the pieces, of
    which there is at least one. *)
Fixpoint split (sep : Ascii.ascii) (s : string) : list string :=
  match s with
  | EmptyString => [EmptyString]
  | String c rest =>
      if Ascii.eqb c sep then EmptyString :: split sep rest
      else
        match split sep rest with
        | first :: others => String c first :: others
        | [] => [String c EmptyString]
        end
  end.

(** [s.split(sep)[0]]. *)
Definition before (sep : Ascii.ascii) (s : string) : string :=
  match split sep s with
  | first :: _ => first
  | [] => EmptyString
  end.

(** The loop of [#getString], lines 579-587, over the parts of the key.
    A property the object inherits (such as ["toString"]) is no string
    and holds no string, so that the loop yields [null] for it as it
    does for a missing one. *)
Fixpoint walk (keyParts : list string) (value : Json) : option string :=
  match keyParts with
  | [] => match value with JString s => Some s | _ => None end
  | part :: rest =>
      match value with
      | JObject fields =>
          match property part fields with
          | Some v => walk rest v
          | None => None
          end
      | _ => None
      end
  end.

(** The service.  [storage] is the item of [localStorage] under the
    storage key, and [missingKeyHandler] the handler of the options, if
    one was given. *)
Record t : Type := mk {
  currentLanguage : string;
  defaultLang : string;
  fallbackLang : string;
  supportedLanguages : list string;
  stringCache : gmap string Json;
  isInitialized : bool;
  storage : option string;
  missingKeyHandler : option (string -> string -> string)
}.

(** The options of the constructor; a field left out is [None]. *)
Record Options : Type := mkOptions {
  opt_initialLang : option string;
  opt_defaultLang : option string;
  opt_fallbackLang : option string;
  opt_supportedLanguages : option (list string);
  opt_missingKeyHandler : option (string -> string -> string)
}.

(** What the service reads of the browser: the item of [localStorage],
    [navigator.languages] and [navigator.language]; what [fetch] and
    [response.json()] yield for the file of a language, [None] when the
    request or the parsing fails; and whether [localStorage.setItem]
    succeeds. *)
Record Browser : Type := mkBrowser {
  savedLang : option string;
  navigator_languages : option (list string);
  navigator_language : option string;
  fetch : string -> option Json;
  storageWritable : bool
}.

(** [this.#supportedLanguages.includes(lang)]. *)
Definition includes (lang : string) (langs : list string) : bool :=
  existsb (String.eqb lang) langs.

(** [x || d] on a string that may be missing: [undefined] and the empty
    string are falsy. *)
Definition string_or (x : option string) (d : string) : string :=
  match x with
  | Some s => if String.eqb s "" then d else s
  | None => d
  end.

(** The loop of [#detectLanguage] over [navigator.languages], lines
    439-447. *)
Fixpoint detectAmong (langs supported : list string) : option string :=
  match langs with
  | [] => None
  | lang :: rest =>
      let baseLang := before "-"%char lang in
      if includes lang supported then Some lang
      else if includes baseLang supported then Some baseLang
      else detectAmong rest supported
  end.

(** [#detectLanguage()], lines 430-458. *)
Definition detectLanguage (b : Browser) (supported : list string)
  (defaultLang : string) : string :=
  let fromStorage :=
    match savedLang b with
    | Some l =>
        if negb (String.eqb l "") && includes l supported then Some l
        else None
    | None => None
    end in
  match fromStorage with
  | Some l => l
  | None =>
      let fromLanguages :=
        match navigator_languages b with
        | Some langs => detectAmong langs supported
        | None => None
        end in
      match fromLanguages with
      | Some l => l
      | None =>
          let browserLang :=
            match navigator_language b with
            | Some l => Some (before "-"%char l)
            | None => None
            end in
          match browserLang with
          | Some l =>
              if negb (String.eqb l "") && includes l supported then l
              else defaultLang
          | None => defaultLang
          end
      end
  end.

(** The constructor, lines 357-380; [None] when it throws. *)
Definition new (options : option Options) (b : Browser) : option t :=
  match options with
  | None => None
  | Some o =>
      match opt_supportedLanguages o with
      | None => None
      | Some [] => None
      | Some (first :: others) =>
          let supported := first :: others in
          let defaultLang0 := string_or (opt_defaultLang o) "en" in
          let fallbackLang0 := string_or (opt_fallbackLang o) defaultLang0 in
          let defaultLang :=
            if includes defaultLang0 supported then defaultLang0 else first in
          let fallbackLang :=
            if includes fallbackLang0 supported then fallbackLang0
            else defaultLang in
          let current :=
            match opt_initialLang o with
            | Some l =>
                if String.eqb l "" then detectLanguage b supported defaultLang
                else l
            | None => detectLanguage b supported defaultLang
            end in
          Some (mk current defaultLang fallbackLang supported ∅ false
                  (savedLang b) (opt_missingKeyHandler o))
      end
  end.

Definition set_stringCache (c : gmap string Json) (s : t) : t :=
  mk (currentLanguage s) (defaultLang s) (fallbackLang s)
     (supportedLanguages s) c (isInitialized s) (storage s)
     (missingKeyHandler s).







(** [#getString(key, lang)], lines 570-588. *)
Definition getString (key lang : string) (s : t) : option string :=
  match stringCache s !! lang with
  | None => None
  | Some strings => walk (split "."%char key) strings
  end.

(** [s.replace(/pattern/g, replacement)] for a pattern and a replacement
    without special characters: every occurrence of [pattern], from the
    left and without overlap, becomes [replacement].  [skip] counts the
    characters of an occurrence still to be dropped. *)
Fixpoint replaceAll (pattern replacement : string) (skip : nat) (s : string)
  : string :=
  match s with
  | EmptyString => EmptyString
  | String c rest =>
      match skip with
      | S k => replaceAll pattern replacement k rest
      | O =>
          if String.prefix pattern s
          then replacement
               +:+ replaceAll pattern replacement
                     (String.length pattern - 1) rest
          else String c (replaceAll pattern replacement O rest)
      end
  end.

(** The first language of the chain current, fallback, default that has
    the key, lines 533-539. *)
Definition lookup (key : string) (s : t) : option string :=
  match getString key (currentLanguage s) s with
  | Some translated => Some translated
  | None =>
      match getString key (fallbackLang s) s with
      | Some translated => Some translated
      | None =>
          if negb (String.eqb (fallbackLang s) (defaultLang s))
          then getString key (defaultLang s) s
          else None
      end
  end.

(** [getText(key, options)], lines 511-562, for options without
    [values]; [count] is [options.count], when given an integer that
    [String] prints in decimal digits (one below 10^21 in size). *)
Definition getText (key : string) (count : option Z) (s : t) : string :=
  if negb (isInitialized s) then key
  else
    let targetKey :=
      match count with
      | Some n =>
          if negb (n =? 1)%Z then
            let pluralKey := key +:+ "_plural" in
            if bool_decide (is_Some (getString pluralKey (currentLanguage s) s))
               || bool_decide (is_Some (getString pluralKey (fallbackLang s) s))
               || bool_decide (is_Some (getString pluralKey (defaultLang s) s))
            then pluralKey else key
          else key
      | None => key
      end in
    match lookup targetKey s with
    | None =>
        match missingKeyHandler s with
        | Some handler => handler key (currentLanguage s)
        | None => key
        end
    | Some translated =>
        match count with
        | Some n => replaceAll "{count}" (pretty n) O translated
        | None => translated
        end
    end.

(** The character occurs in the string. *)
Fixpoint contains (c : Ascii.ascii) (s : string) : bool :=
  match s with
  | EmptyString => false
  | String c' rest => Ascii.eqb c' c || contains c rest
  end.

(** The language is one of the supported ones. *)
Definition supported (lang : string) (s : t) : Prop :=
  includes lang (supportedLanguages s) = true.

End LocalizationService.

(** An engine in the middle of wave 1, for the examples: bullet 1 has
    hit and enemy 2 has finished dying, so both are destroyed but still
    in their active lists and in the scene; enemy 3 is alive; power-up
    4 waits in its pool. *)
Definition example_store : GameEngine3D.ref -> GameEngine3D.Obj :=
  fun r =>
    match r with
    | 1%positive =>
        GameEngine3D.OBullet
          (Bullet.destroy
             (Bullet.reset (host := example_host) (Some v3_zero)
                (Some (mkVector3 0 0 (-1))) 8 true Bullet.new))
    | 2%positive =>
        GameEngine3D.OEnemy
          (Enemy.destroy
             (Enemy.reset (host := example_host) "basic"
                (Enemy.mkConfig 15 1 30 2 (Some 1) (Some 0.05) None None
                   None None None)
                (mkVector3 5 0 0) 0.5 0.5 0.5 Enemy.new))
    | 3%positive =>
        GameEngine3D.OEnemy
          (Enemy.reset (host := example_host) "tank"
             (Enemy.mkConfig 25 2 38 1.5 (Some 1.5) (Some 0.10) None None
                None None None)
             (mkVector3 0 0 9) 0.5 0.5 0.5 Enemy.new)
    | _ => GameEngine3D.OPowerUp (PowerUp.new (host := example_host) 0.5)
    end.

Definition example_engine : GameEngine3D.t :=
  GameEngine3D.mk GameEngine3D.PLAYING 0 1 6 6 2 0 3000
    [2%positive; 3%positive] [1%positive] [] []
    (<["enemies"%string := []]>
       (<["bullets"%string := []]>
          (<["powerUps"%string := [4%positive]]> ∅)))
    {[1%positive; 2%positive; 3%positive]} example_store [] 0.

(** A basic enemy as [spawnEnemy] resets it, 5 units from the origin. *)
Definition example_enemy : Enemy.t :=
  Enemy.reset (host := example_host) "basic"
    (Enemy.mkConfig 15 1 30 2 (Some 1) (Some 0.05) None None None None None)
    (mkVector3 5 0 0) 0.5 0.5 0.5 Enemy.new.


(** The example engine with its destroyed enemy 2 and its destroyed
    bullet 1 back in their pools. *)
Definition example_pooled : GameEngine3D.t :=
  GameEngine3D.returnObjectToPool (Some 1%positive) "bullets"
    (GameEngine3D.returnObjectToPool (Some 2%positive) "enemies"
       example_engine).

(** A new engine in wave 1: its pools are empty and the spawn timer of
    the wave has a quota of 6 enemies. *)
Definition example_wave1 : GameEngine3D.t :=
  GameEngine3D.startNextWave (GameEngine3D.new example_store).

(** The events of a frame for the examples: the mouse moves by (3, -2),
    the key W goes down, the left button goes down and the mouse moves
    by (1, 1). *)
Definition example_events : list InputState.Event :=
  [InputState.MouseMove 3 (-2) 400 300 (InputState.mkRect 0 0 800 600);
   InputState.KeyDown "KeyW" false;
   InputState.MouseDown 0;
   InputState.MouseMove 1 1 404 304 (InputState.mkRect 0 0 800 600)].

(* ================================================================== *)
(** * Properties *)

(** ** Numbers *)

Lemma Qleb_true (x y : Q) : Qleb x y = true <-> x <= y.
Proof. apply Qle_bool_iff. Qed.

Lemma Qleb_false (x y : Q) : Qleb x y = false <-> y < x.
Proof.
  unfold Qleb. split; intros H.
  - apply Qnot_le_lt. intros Hle. apply Qle_bool_iff in Hle. congruence.
  - destruct (Qle_bool x y) eqn:E; [|reflexivity].
    apply Qle_bool_iff in E. exfalso. apply (Qlt_not_le _ _ H E).
Qed.

Lemma Qltb_true (x y : Q) : Qltb x y = true <-> x < y.
Proof.
  unfold Qltb. rewrite negb_true_iff. apply (Qleb_false y x).
Qed.

Lemma Qltb_false (x y : Q) : Qltb x y = false <-> y <= x.
Proof.
  unfold Qltb. rewrite negb_false_iff. apply (Qleb_true y x).
Qed.

(** ** WeaponManager *)

Section WeaponManagerFacts.
Import WeaponManager.

Example new_equips_pistol : equippedWeaponId new = Some "pistol"%string.
Proof. reflexivity. Qed.

Lemma get_modify_same id f ws w :
  get id ws = Some w -> get id (modify id f ws) = Some (f w).
Proof.
  induction ws as [|[k v] ws IH]; simpl; [discriminate|].
  destruct (String.eqb k id) eqn:E; simpl; rewrite E.
  - intros [= ->]. reflexivity.
  - exact IH.
Qed.

Lemma canFire_true_iff m :
  canFire m = true <->
  exists w, currentWeapon m = Some w /\ fireTimer m <= 0 /\ has_ammo w = true.
Proof.
  unfold canFire, has_ammo. destruct (currentWeapon m) as [w|].
  - destruct (Qltb 0 (fireTimer m)) eqn:Ht.
    + split; [discriminate|]. intros (w' & _ & Hle & _).
      apply Qltb_true in Ht. exfalso. apply (Qlt_not_le _ _ Ht Hle).
    + apply Qltb_false in Ht.
      destruct (negb (is_infinite (ammoCurrent w)) && ammo_le0 (ammoCurrent w)) eqn:Ha.
      * split; [discriminate|]. intros (w' & [= <-] & _ & Hb).
        rewrite Ha in Hb. discriminate.
      * split; [|reflexivity]. intros _. exists w. rewrite Ha. auto.
  - split; [discriminate|]. intros (w & [=] & _).
Qed.

Lemma fire_fails m spawnPos direction :
  canFire m = false -> fire spawnPos direction m = (false, m, None).
Proof. intros H. unfold fire. rewrite H. reflexivity. Qed.

Lemma fire_succeeds m spawnPos direction id w :
  canFire m = true -> equippedWeaponId m = Some id ->
  get id (weapons m) = Some w ->
  fire spawnPos direction m =
    (true, mk (modify id consume (weapons m)) (Some id) (cooldown w),
     Some (mkSpawnBullet spawnPos direction (damage w) true)).
Proof.
  intros H E G. unfold fire. rewrite H. simpl.
  unfold currentWeapon. rewrite E, G. reflexivity.
Qed.

Lemma fire_result m spawnPos direction :
  fst (fst (fire spawnPos direction m)) = canFire m.
Proof.
  destruct (canFire m) eqn:H.
  - destruct (proj1 (canFire_true_iff m) H) as (w & Hw & _).
    unfold currentWeapon in Hw.
    destruct (equippedWeaponId m) as [id|] eqn:E; [|discriminate].
    rewrite (fire_succeeds m _ _ id w H E Hw). reflexivity.
  - rewrite (fire_fails m _ _ H). reflexivity.
Qed.


Lemma consume_cooldown w : cooldown (consume w) = cooldown w.
Proof. unfold consume. destruct (is_infinite (ammoCurrent w)); reflexivity. Qed.








Lemma equipWeapon_weapons id m : weapons (snd (equipWeapon id m)) = weapons m.
Proof.
  unfold equipWeapon.
  destruct (negb (has id (weapons m)) || is_equipped m id); reflexivity.
Qed.

Lemma equip_at_weapons ids i m : weapons (equip_at ids i m) = weapons m.
Proof.
  unfold equip_at. destruct (at_index ids i); [|reflexivity].
  apply equipWeapon_weapons.
Qed.




(** C3, as the code has it.  Equipping another weapon of the registry
    sets the fire timer to 0: the next [fire()] succeeds at once whenever
    the weapon has rounds left.  [switchToNextWeapon] and
    [switchToPreviousWeapon] either change nothing or are such an
    [equipWeapon]. *)
Theorem equip_clears_cooldown (m : t) :
  (forall id, fst (equipWeapon id m) = true ->
     let m' := snd (equipWeapon id m) in
     equippedWeaponId m' = Some id /\ fireTimer m' = 0 /\
     weapons m' = weapons m /\
     forall spawnPos direction w,
       currentWeapon m' = Some w ->
       fst (fst (fire spawnPos direction m')) = has_ammo w)
  /\ (switchToNextWeapon m = m \/
      exists id, equipWeapon id m = (true, switchToNextWeapon m))
  /\ (switchToPreviousWeapon m = m \/
      exists id, equipWeapon id m = (true, switchToPreviousWeapon m)).
Proof.
  assert (forall ids i, equip_at ids i m = m \/
            exists id, equipWeapon id m = (true, equip_at ids i m)) as Hat.
  { intros ids i. unfold equip_at. destruct (at_index ids i) as [id|]; [|auto].
    unfold equipWeapon.
    destruct (negb (has id (weapons m)) || is_equipped m id) eqn:E; [auto|].
    right. exists id. rewrite E. reflexivity. }
  split; [|split].
  - intros id. unfold equipWeapon.
    destruct (negb (has id (weapons m)) || is_equipped m id) eqn:E;
      [discriminate|].
    intros _. simpl. repeat split.
    intros spawnPos direction w Hw. rewrite fire_result.
    unfold canFire. rewrite Hw. reflexivity.
  - unfold switchToNextWeapon.
    destruct (length (weapons m) <=? 1)%nat; [auto|apply Hat].
  - unfold switchToPreviousWeapon.
    destruct (length (weapons m) <=? 1)%nat; [auto|apply Hat].
Qed.

End WeaponManagerFacts.


(** C3 at the default manager: the weapon equipped by the switch fires at
    once. *)
Lemma equip_clears_cooldown_witness :
  let m := snd (fst (WeaponManager.fire v3_zero v3_zero WeaponManager.new)) in
  let m' := snd (WeaponManager.equipWeapon "rifle" m) in
  WeaponManager.fireTimer m' = 0
  /\ fst (fst (WeaponManager.fire v3_zero v3_zero m')) = true.
Proof.
  intros m m'.
  destruct (equip_clears_cooldown m) as (Heq & _ & _).
  destruct (Heq "rifle"%string eq_refl) as (_ & Ht & _ & Hfire).
  split; [exact Ht|].
  exact (Hfire v3_zero v3_zero WeaponManager.rifle eq_refl).
Defined.

(** C3, counterexample.  The pistol has just fired, so its cooldown of
    0.3 s runs and it cannot fire again; after [switchToNextWeapon()] the
    rifle is equipped and [fire()] succeeds although no time has passed. *)
Lemma switch_allows_instant_fire :
  let m1 := snd (fst (WeaponManager.fire v3_zero v3_zero WeaponManager.new)) in
  let m2 := WeaponManager.switchToNextWeapon m1 in
  fst (fst (WeaponManager.fire v3_zero v3_zero WeaponManager.new)) = true
  /\ WeaponManager.fireTimer m1 = 0.3
  /\ fst (fst (WeaponManager.fire v3_zero v3_zero m1)) = false
  /\ WeaponManager.equippedWeaponId m2 = Some "rifle"%string
  /\ fst (fst (WeaponManager.fire v3_zero v3_zero m2)) = true.
Proof. vm_compute. repeat split. Qed.

(** ** Player *)

Section PlayerFacts.
Import Player.

Lemma takeDamage_in_range amount p :
  in_range p -> 0 <= amount ->
  in_range (snd (fst (takeDamage amount p))) /\
  maxHealth (snd (fst (takeDamage amount p))) = maxHealth p.
Proof.
  intros [H0 Hmax] Ha. unfold takeDamage.
  destruct (isInvincible p || isShielded p || _destroyed p);
    [split; [split; assumption|reflexivity]|].
  assert (0 <= Qmax 0 (health p - amount) <= maxHealth p) as [Hl Hu].
  { split; [apply Q.le_max_l|]. apply Q.max_lub; lra. }
  simpl. destruct (Qleb _ 0); simpl.
  - unfold die. simpl. destruct (_destroyed p); simpl;
      (split; [split; assumption|reflexivity]).
  - split; [split; assumption|reflexivity].
Qed.

Lemma heal_in_range amount p :
  in_range p -> 0 <= amount ->
  in_range (heal amount p) /\ maxHealth (heal amount p) = maxHealth p.
Proof.
  intros [H0 Hmax] Ha. unfold heal.
  destruct (_destroyed p); [split; [split; assumption|reflexivity]|].
  simpl. split; [|reflexivity]. split; simpl.
  - apply Q.min_glb; lra.
  - apply Q.le_min_l.
Qed.

Lemma updateTimers_health dt p :
  health (updateTimers dt p) = health p /\
  maxHealth (updateTimers dt p) = maxHealth p.
Proof. unfold updateTimers. destruct (isInvincible p); split; reflexivity. Qed.

Lemma call_in_range c p :
  in_range p -> nonneg_amount c ->
  in_range (call c p) /\ maxHealth (call c p) = maxHealth p.
Proof.
  intros Hp Hc. destruct c; simpl in *.
  - apply takeDamage_in_range; assumption.
  - apply heal_in_range; assumption.
  - destruct (updateTimers_health dt p) as [Hh Hm]. unfold in_range.
    rewrite Hh, Hm. split; [exact Hp|reflexivity].
Qed.

(** [takeDamage] never leaves the health below 0, whatever the amount. *)
Lemma takeDamage_clamps_below amount p :
  0 <= health p -> 0 <= health (snd (fst (takeDamage amount p))).
Proof.
  intros H0. unfold takeDamage.
  destruct (isInvincible p || isShielded p || _destroyed p); [exact H0|].
  simpl. destruct (Qleb _ 0); simpl.
  - unfold die. simpl. destruct (_destroyed p); simpl; apply Q.le_max_l.
  - apply Q.le_max_l.
Qed.

(** [heal] never leaves the health above [maxHealth], whatever the
    amount. *)
Lemma heal_clamps_above amount p :
  health p <= maxHealth p -> health (heal amount p) <= maxHealth (heal amount p).
Proof.
  intros Hmax. unfold heal. destruct (_destroyed p); [exact Hmax|].
  simpl. apply Q.le_min_l.
Qed.

(** C9, as the code has it.  [takeDamage] clamps the health at 0 from
    below and [heal] clamps it at [maxHealth] from above, for every
    amount; and for every sequence of [takeDamage], [heal] and
    [updateTimers] calls whose amounts are not negative, a health within
    [[0, maxHealth]] stays within [[0, maxHealth]]. *)
Theorem health_in_range (cs : list Call) (p : t) :
  (forall amount,
     0 <= health p -> 0 <= health (snd (fst (takeDamage amount p))))
  /\ (forall amount,
        health p <= maxHealth p ->
        health (heal amount p) <= maxHealth (heal amount p))
  /\ (in_range p -> Forall nonneg_amount cs ->
      in_range (calls cs p) /\ maxHealth (calls cs p) = maxHealth p).
Proof.
  split; [intros a; apply takeDamage_clamps_below|].
  split; [intros a; apply heal_clamps_above|].
  revert p. induction cs as [|c cs IH]; intros p Hp Hcs.
  - split; [exact Hp|reflexivity].
  - inversion Hcs as [|c' cs' Hc Hcs']; subst.
    destruct (call_in_range c p Hp Hc) as [Hp1 Hm1].
    destruct (IH (call c p) Hp1 Hcs') as [Hp2 Hm2].
    unfold calls in *. simpl. split; [exact Hp2|]. rewrite Hm2. exact Hm1.
Qed.

End PlayerFacts.

(** C9 at a new player: 30 damage, 0.5 s later 38 more (ignored, the
    player is still invincible), then 25 healed. *)
Lemma health_in_range_witness :
  let cs := [Player.TakeDamage 30; Player.UpdateTimers 0.5;
             Player.TakeDamage 38; Player.Heal 25] in
  Player.in_range (Player.calls cs Player.new)
  /\ Player.maxHealth (Player.calls cs Player.new) = 100.
Proof.
  intros cs.
  destruct (health_in_range cs Player.new) as (_ & _ & H).
  apply H.
  - split; vm_compute; discriminate.
  - repeat constructor; vm_compute; discriminate.
Defined.

(** C9, counterexample.  A negative amount moves the health out of
    [[0, maxHealth]]: [heal(-150)] leaves a new player with health -50,
    and [takeDamage(-50)] with health 150 of 100. *)
Lemma negative_amount_leaves_range :
  Player.in_range Player.new
  /\ Player.health (Player.heal (-150) Player.new) < 0
  /\ Player.maxHealth Player.new
     < Player.health (snd (fst (Player.takeDamage (-50) Player.new))).
Proof. repeat split; vm_compute; discriminate || reflexivity. Qed.

(** ** Enemy *)

Section EnemyFacts.
Import Enemy.

Lemma state_eqb_eq a b : state_eqb a b = true <-> a = b.
Proof. destruct a, b; simpl; split; congruence. Qed.







Section WithHost.
Context {host : Host}.






End WithHost.

End EnemyFacts.



(** ** Bullet, Enemy, PowerUp: [destroy()] *)

Lemma Bullet_destroy_destroyed b :
  Bullet._destroyed (Bullet.destroy b) = true.
Proof. unfold Bullet.destroy. destruct (Bullet._destroyed b) eqn:E; auto. Qed.

Lemma Enemy_destroy_destroyed e :
  Enemy._destroyed (Enemy.destroy e) = true.
Proof.
  unfold Enemy.destroy. destruct (Enemy._destroyed e) eqn:E; [exact E|].
  unfold Enemy.setState. simpl.
  destruct (Enemy.currentState e); reflexivity.
Qed.

Lemma PowerUp_destroy_destroyed p :
  PowerUp._destroyed (PowerUp.destroy p) = true.
Proof.
  unfold PowerUp.destroy. destruct (PowerUp._destroyed p) eqn:E; auto.
Qed.

(** ** JavaScript arrays *)

Lemma pop_push {A : Type} (l : list A) (x : A) : pop (push x l) = Some (x, l).
Proof.
  unfold push. induction l as [|y l IH]; simpl; [reflexivity|].
  rewrite IH. reflexivity.
Qed.

Lemma pop_nil_iff {A : Type} (l : list A) : pop l = None <-> l = [].
Proof.
  destruct l as [|x l]; simpl; [tauto|].
  destruct (pop l) as [[y r]|]; split; discriminate.
Qed.

Lemma pop_Some {A : Type} (l : list A) (x : A) (r : list A) :
  pop l = Some (x, r) <-> l = push x r.
Proof.
  split.
  - revert x r. induction l as [|y l IH]; intros x r; simpl; [discriminate|].
    destruct (pop l) as [[z r']|] eqn:E.
    + intros [= <- <-]. rewrite (IH z r' eq_refl). reflexivity.
    + intros [= <- <-]. apply pop_nil_iff in E. subst. reflexivity.
  - intros ->. apply pop_push.
Qed.

(** ** GameEngine3D: the pools *)

Section PoolFacts.
Import GameEngine3D.

Lemma heap_set_same r o h : heap_set r o h r = o.
Proof. unfold heap_set. rewrite Pos.eqb_refl. reflexivity. Qed.

Lemma heap_set_other r r' o h : r' <> r -> heap_set r o h r' = h r'.
Proof.
  intros H. unfold heap_set. destruct (Pos.eqb r' r) eqn:E; [|reflexivity].
  apply Pos.eqb_eq in E. contradiction.
Qed.

Lemma destroyed_set_destroyed d o : destroyed (set_destroyed d o) = d.
Proof. destruct o; reflexivity. Qed.

Lemma has_mesh_set_destroyed d o : has_mesh (set_destroyed d o) = has_mesh o.
Proof. destruct o; reflexivity. Qed.

(** Acquiring from an unregistered pool throws. *)
Lemma getObjectFromPool_unregistered poolName s :
  pools s !! poolName = None -> getObjectFromPool poolName s = TypeError.
Proof. intros H. unfold getObjectFromPool. rewrite H. reflexivity. Qed.

(** Acquiring from a registered, empty pool yields [null] and changes
    nothing. *)
Lemma getObjectFromPool_empty poolName s :
  pools s !! poolName = Some [] -> getObjectFromPool poolName s = Ok (None, s).
Proof. intros H. unfold getObjectFromPool. rewrite H. reflexivity. Qed.

(** Acquiring from a pool that is not empty yields its last element. *)
Lemma getObjectFromPool_last poolName s pool x :
  pools s !! poolName = Some (push x pool) ->
  exists s', getObjectFromPool poolName s = Ok (Some x, s')
             /\ pools s' = <[poolName := pool]> (pools s)
             /\ destroyed (heap s' x) = false
             /\ (has_mesh (heap s' x) = true -> x ∈ scene s')
             /\ (forall r, r <> x -> heap s' r = heap s r).
Proof.
  intros H. unfold getObjectFromPool. rewrite H, pop_push.
  eexists. split; [reflexivity|]. unfold scene_add. simpl.
  rewrite heap_set_same, has_mesh_set_destroyed.
  destruct (has_mesh (heap s x)) eqn:Hm; simpl;
    rewrite ?heap_set_same, ?destroyed_set_destroyed.
  - repeat split; try reflexivity.
    + intros _. set_solver.
    + intros r Hr. apply heap_set_other, Hr.
  - repeat split; try reflexivity.
    + rewrite has_mesh_set_destroyed, Hm. discriminate.
    + intros r Hr. apply heap_set_other, Hr.
Qed.

Lemma returnObjectToPool_pools x poolName s pool :
  pools s !! poolName = Some pool ->
  pools (returnObjectToPool (Some x) poolName s)
    = <[poolName := push x pool]> (pools s).
Proof.
  intros H. unfold returnObjectToPool, scene_remove. simpl.
  destruct (has_mesh _); simpl; rewrite H; reflexivity.
Qed.

Lemma releaseAll_pools xs :
  forall poolName s pool,
    pools s !! poolName = Some pool ->
    pools (releaseAll xs poolName s) = <[poolName := pool ++ xs]> (pools s).
Proof.
  induction xs as [|x xs IH]; intros poolName s pool H.
  - simpl. rewrite app_nil_r. symmetry. apply insert_id, H.
  - change (releaseAll (x :: xs) poolName s)
      with (releaseAll xs poolName (returnObjectToPool (Some x) poolName s)).
    rewrite (IH poolName _ (push x pool)).
    + rewrite (returnObjectToPool_pools x poolName s pool H).
      rewrite insert_insert_eq. unfold push. rewrite <- app_assoc.
      reflexivity.
    + rewrite (returnObjectToPool_pools x poolName s pool H).
      apply lookup_insert_eq.
Qed.

Lemma acquireN_lifo poolName pool xs :
  forall s, pools s !! poolName = Some (pool ++ xs) ->
    exists s', acquireN (length xs) poolName s = Ok (map Some (rev xs), s')
               /\ pools s' = <[poolName := pool]> (pools s).
Proof.
  induction xs as [|x xs IH] using rev_ind; intros s H.
  - exists s. split; [reflexivity|]. rewrite app_nil_r in H.
    symmetry. apply insert_id, H.
  - rewrite app_assoc in H. fold (push x (pool ++ xs)) in H.
    destruct (getObjectFromPool_last poolName s (pool ++ xs) x H)
      as (s1 & Hget & Hpools & _).
    destruct (IH s1) as (s2 & Hacq & Hpools2).
    { rewrite Hpools. apply lookup_insert_eq. }
    exists s2. rewrite length_app, Nat.add_comm. simpl.
    unfold bind. rewrite Hget. simpl. rewrite Hacq. simpl.
    rewrite rev_app_distr. simpl. split; [reflexivity|].
    rewrite Hpools2, Hpools. apply insert_insert_eq.
Qed.

(** C5.  A registered pool is a LIFO free-list: [getObjectFromPool]
    after [returnObjectToPool] yields the instance just released, no
    longer destroyed and with its mesh back in the scene; from a pool
    that is not empty it yields the instance released last; and after
    releasing [xs], acquiring as many times yields exactly [xs] in
    reverse order, never [null] and hence without building an instance,
    and leaves every pool as it was before. *)
Theorem pool_lifo (s : t) (poolName : string) (pool : list ref) :
  pools s !! poolName = Some pool ->
  (forall x, exists s',
      getObjectFromPool poolName (returnObjectToPool (Some x) poolName s)
        = Ok (Some x, s')
      /\ pools s' = pools s
      /\ destroyed (heap s' x) = false
      /\ (has_mesh (heap s' x) = true -> x ∈ scene s'))
  /\ (forall x rest, pool = push x rest -> exists s',
        getObjectFromPool poolName s = Ok (Some x, s')
        /\ pools s' !! poolName = Some rest)
  /\ (forall xs, exists s',
        acquireN (length xs) poolName (releaseAll xs poolName s)
          = Ok (map Some (rev xs), s')
        /\ pools s' = pools s).
Proof.
  intros H. split; [|split].
  - intros x.
    destruct (getObjectFromPool_last poolName
                (returnObjectToPool (Some x) poolName s) pool x)
      as (s' & Hget & Hpools & Hd & Hm & _).
    { rewrite (returnObjectToPool_pools x poolName s pool H).
      apply lookup_insert_eq. }
    exists s'. split; [exact Hget|]. split; [|auto].
    rewrite Hpools, (returnObjectToPool_pools x poolName s pool H).
    rewrite insert_insert_eq. apply insert_id, H.
  - intros x rest ->.
    destruct (getObjectFromPool_last poolName s rest x H)
      as (s' & Hget & Hpools & _).
    exists s'. split; [exact Hget|]. rewrite Hpools. apply lookup_insert_eq.
  - intros xs.
    destruct (acquireN_lifo poolName pool xs (releaseAll xs poolName s))
      as (s' & Hacq & Hpools).
    { rewrite (releaseAll_pools xs poolName s pool H).
      apply lookup_insert_eq. }
    exists s'. split; [exact Hacq|].
    rewrite Hpools, (releaseAll_pools xs poolName s pool H).
    rewrite insert_insert_eq. apply insert_id, H.
Qed.

End PoolFacts.

(** C5 at a new engine: three bullets released and acquired again. *)
Lemma pool_lifo_witness :
  let s := GameEngine3D.new (fun _ => GameEngine3D.OBullet Bullet.new) in
  exists s',
    GameEngine3D.acquireN 3 "bullets"
      (GameEngine3D.releaseAll [1%positive; 2%positive; 3%positive]
         "bullets" s)
      = Ok ([Some 3%positive; Some 2%positive; Some 1%positive], s')
    /\ GameEngine3D.pools s' = GameEngine3D.pools s.
Proof.
  intros s.
  destruct (pool_lifo s "bullets" [] eq_refl) as (_ & _ & H).
  exact (H [1%positive; 2%positive; 3%positive]).
Defined.

Section SpawnFacts.
Import GameEngine3D.
Context {host : Host}.

(** With an empty pool the spawn is skipped: nothing changes. *)
Lemma spawnEnemy_skips s :
  pools s !! "enemies"%string = Some [] -> spawnEnemy s = Ok (tt, s).
Proof.
  intros H. unfold spawnEnemy, bind.
  rewrite (getObjectFromPool_empty _ s H). reflexivity.
Qed.

Lemma spawnBullet_skips origin direction damage isPlayerBullet s :
  pools s !! "bullets"%string = Some [] ->
  spawnBullet origin direction damage isPlayerBullet s = Ok (tt, s).
Proof.
  intros H. unfold spawnBullet, bind.
  rewrite (getObjectFromPool_empty _ s H). reflexivity.
Qed.

Lemma spawnPowerUp_skips position s :
  pools s !! "powerUps"%string = Some [] -> spawnPowerUp position s = Ok (tt, s).
Proof.
  intros H. unfold spawnPowerUp, bind.
  rewrite (getObjectFromPool_empty _ s H). reflexivity.
Qed.

End SpawnFacts.

(** C2, at the failing input.  The pools of a new engine are [enemies],
    [bullets] and [powerUps]; acquiring from any other pool, such as
    [effects], reads [length] of [undefined] and throws, where the
    specification asks for an absent result. *)
Theorem acquire_unregistered_throws (store : GameEngine3D.ref -> GameEngine3D.Obj) :
  GameEngine3D.pools (GameEngine3D.new store) !! "effects"%string = None
  /\ GameEngine3D.getObjectFromPool "effects" (GameEngine3D.new store)
     = TypeError.
Proof.
  split; [reflexivity|].
  apply getObjectFromPool_unregistered. reflexivity.
Qed.

(** ** GameEngine3D: waves *)

Section WaveFacts.
Import GameEngine3D.

(** What [updateGameState] does while playing. *)
Lemma updateGameState_playing dt s :
  gameState s = PLAYING ->
  updateGameState dt s =
    if (0 <? enemiesRemainingInWave s)%Z && (enemiesActive s <=? 0)%Z
    then set_waveCooldownTimer (waveCooldownDuration s)
           (set_gameState WAVE_TRANSITION s)
    else s.
Proof. intros H. unfold updateGameState. rewrite H. reflexivity. Qed.

(** While playing, the wave ends exactly when the counter of enemies
    remaining in the wave is positive and no enemy is active. *)
Lemma wave_ends_iff dt s :
  gameState s = PLAYING ->
  (gameState (updateGameState dt s) = WAVE_TRANSITION <->
   (0 < enemiesRemainingInWave s)%Z /\ (enemiesActive s <= 0)%Z).
Proof.
  intros H. rewrite (updateGameState_playing dt s H).
  destruct (0 <? enemiesRemainingInWave s)%Z eqn:E1;
    destruct (enemiesActive s <=? 0)%Z eqn:E2; simpl;
    rewrite ?H; try apply Z.ltb_lt in E1; try apply Z.leb_le in E2;
    try apply Z.ltb_ge in E1; try apply Z.leb_gt in E2;
    split; try discriminate; try tauto; intros [? ?]; lia.
Qed.

(** A wave that ends starts a cooldown of [waveCooldownDuration], which
    the constructor sets to 3000 ms and nothing changes. *)
Lemma wave_end_cooldown dt s :
  gameState s = PLAYING ->
  gameState (updateGameState dt s) = WAVE_TRANSITION ->
  waveCooldownTimer (updateGameState dt s) = waveCooldownDuration s.
Proof.
  intros H. rewrite (updateGameState_playing dt s H).
  destruct ((0 <? enemiesRemainingInWave s)%Z && (enemiesActive s <=? 0)%Z);
    [reflexivity|]. rewrite H. discriminate.
Qed.

End WaveFacts.

(** C1, at the failing inputs.  While playing with no enemy active,
    [updateGameState] does not end the wave when the counter of enemies
    remaining to spawn is 0, and does end it, with the cooldown of
    3000 ms, when the counter is positive: right after [startNextWave]
    has set the counter to the 6 enemies of wave 1, before any of them
    was spawned.  So the frame that ends a wave transition starts wave 1
    and the next frame ends it. *)
Theorem wave_completion_check (store : GameEngine3D.ref -> GameEngine3D.Obj)
  (dt : Q) :
  let all_spawned :=
    GameEngine3D.set_enemiesRemainingInWave 0
      (GameEngine3D.set_gameState GameEngine3D.PLAYING
         (GameEngine3D.new store)) in
  let wave1 := GameEngine3D.startNextWave (GameEngine3D.new store) in
  let transition :=
    GameEngine3D.set_waveCooldownTimer 16
      (GameEngine3D.set_gameState GameEngine3D.WAVE_TRANSITION
         (GameEngine3D.new store)) in
  (GameEngine3D.enemiesActive all_spawned = 0%Z
   /\ GameEngine3D.updateGameState dt all_spawned = all_spawned)
  /\ (GameEngine3D.gameState wave1 = GameEngine3D.PLAYING
      /\ GameEngine3D.enemiesRemainingInWave wave1 = 6%Z
      /\ GameEngine3D.enemiesActive wave1 = 0%Z
      /\ GameEngine3D.activeEnemies wave1 = []
      /\ GameEngine3D.gameState (GameEngine3D.updateGameState dt wave1)
         = GameEngine3D.WAVE_TRANSITION
      /\ GameEngine3D.waveCooldownTimer
           (GameEngine3D.updateGameState dt wave1) = 3000)
  /\ (GameEngine3D.gameState (GameEngine3D.updateGameState 0.016 transition)
      = GameEngine3D.PLAYING
      /\ GameEngine3D.currentWave
           (GameEngine3D.updateGameState 0.016 transition) = 1%Z
      /\ GameEngine3D.gameState
           (GameEngine3D.updateGameState 0.016
              (GameEngine3D.updateGameState 0.016 transition))
         = GameEngine3D.WAVE_TRANSITION).
Proof. repeat split. Qed.

(** The spawn timer of wave 1 after that: its interval is 1450 ms, and
    when it fires the engine is in the wave transition again, so the
    callback clears the timer and the enemy waiting in the pool is not
    spawned. *)
Example wave1_spawns_nothing :
  let pooled :=
    GameEngine3D.set_pools
      (<["enemies"%string := [2%positive]]>
         (GameEngine3D.pools (GameEngine3D.new example_store)))
      (GameEngine3D.new example_store) in
  let wave1 := GameEngine3D.startNextWave pooled in
  let frame := GameEngine3D.updateGameState 0.016 wave1 in
  GameEngine3D.spawnTimers wave1 = [GameEngine3D.mkSpawnTimer 1450 0 false]
  /\ exists s',
       GameEngine3D.spawnTimerCallback (host := example_host) 0 frame
         = Ok (tt, s')
       /\ GameEngine3D.spawnTimers s' = [GameEngine3D.mkSpawnTimer 1450 0 true]
       /\ GameEngine3D.activeEnemies s' = []
       /\ GameEngine3D.pools s' !! "enemies"%string = Some [2%positive].
Proof.
  split; [vm_compute; reflexivity|].
  eexists. split; [vm_compute; reflexivity|].
  repeat split; vm_compute; reflexivity.
Qed.

(** ** GameEngine3D: the cleanup pass *)

Section CleanupFacts.
Import GameEngine3D.

Lemma set_destroyed_id o d : destroyed o = d -> set_destroyed d o = o.
Proof.
  intros <-.
  destruct o as [b|e|p|fx]; [destruct b|destruct e|destruct p|destruct fx];
    reflexivity.
Qed.

Lemma returnObjectToPool_heap r poolName s :
  heap (returnObjectToPool (Some r) poolName s)
    = heap_set r (set_destroyed true (heap s r)) (heap s).
Proof.
  unfold returnObjectToPool, scene_remove. simpl.
  destruct (has_mesh _); simpl; destruct (pools s !! poolName); reflexivity.
Qed.

Lemma returnObjectToPool_heap_destroyed r poolName s :
  destroyed (heap s r) = true ->
  forall r', heap (returnObjectToPool (Some r) poolName s) r' = heap s r'.
Proof.
  intros H r'. rewrite returnObjectToPool_heap.
  destruct (Pos.eq_dec r' r) as [->|Hne].
  - rewrite heap_set_same. apply set_destroyed_id, H.
  - apply heap_set_other, Hne.
Qed.

Lemma returnObjectToPool_scene r poolName s :
  scene (returnObjectToPool (Some r) poolName s)
    = if has_mesh (heap s r) then scene s ∖ {[r]} else scene s.
Proof.
  unfold returnObjectToPool, scene_remove. simpl.
  rewrite heap_set_same, has_mesh_set_destroyed.
  destruct (has_mesh (heap s r)); simpl; destruct (pools s !! poolName);
    reflexivity.
Qed.

Lemma returnObjectToPool_pools' r poolName s :
  pools (returnObjectToPool (Some r) poolName s)
    = match pools s !! poolName with
      | Some pool => <[poolName := push r pool]> (pools s)
      | None => pools s
      end.
Proof.
  unfold returnObjectToPool, scene_remove. simpl.
  destruct (has_mesh _); simpl; destruct (pools s !! poolName); reflexivity.
Qed.

Lemma returnObjectToPool_frame r poolName s :
  let s' := returnObjectToPool (Some r) poolName s in
  activeBullets s' = activeBullets s /\ activePowerUps s' = activePowerUps s
  /\ activeEffects s' = activeEffects s /\ activeEnemies s' = activeEnemies s.
Proof.
  unfold returnObjectToPool, scene_remove. simpl.
  destruct (has_mesh _); simpl; destruct (pools s !! poolName); auto.
Qed.

Lemma scene_remove_fields r s :
  let s' := scene_remove r s in
  heap s' = heap s /\ pools s' = pools s
  /\ scene s' = (if has_mesh (heap s r) then scene s ∖ {[r]} else scene s)
  /\ activeBullets s' = activeBullets s /\ activePowerUps s' = activePowerUps s
  /\ activeEffects s' = activeEffects s /\ activeEnemies s' = activeEnemies s.
Proof. unfold scene_remove. destruct (has_mesh _); simpl; auto 10. Qed.

Lemma in_pool_push poolName q r x s pool :
  pools s !! poolName = Some pool ->
  (∃ pool', <[poolName := push x pool]> (pools s) !! q = Some pool'
            /\ r ∈ pool')
  <-> in_pool q r s \/ (q = poolName /\ r = x).
Proof.
  intros H. unfold in_pool. destruct (decide (poolName = q)) as [<-|Hne].
  - rewrite lookup_insert_eq. split.
    + intros (pool' & [= <-] & Hr). unfold push in Hr.
      apply elem_of_app in Hr. rewrite list_elem_of_singleton in Hr.
      destruct Hr as [Hin|Heq]; [left; eauto|auto].
    + intros [(pool' & Hp & Hr)|[_ ->]]; exists (push x pool);
        (split; [reflexivity|]); unfold push.
      * assert (pool' = pool) as -> by congruence. set_solver.
      * set_solver.
  - rewrite lookup_insert_ne by exact Hne. split.
    + intros Hq. left. exact Hq.
    + intros [Hq|[-> _]]; [exact Hq|contradiction].
Qed.

Lemma cleaned_keep e poolName s :
  destroyed (heap s e) = false -> cleaned [e] poolName s s [e].
Proof.
  intros H. constructor; try tauto; try auto.
  - intros r. rewrite list_elem_of_singleton. split.
    + intros ->. auto.
    + tauto.
  - intros r Hr Hd. apply list_elem_of_singleton in Hr. congruence.
  - intros p r _ _ Hr Hd. apply list_elem_of_singleton in Hr. congruence.
Qed.

Lemma cleaned_nil poolName s : cleaned [] poolName s s [].
Proof.
  constructor; try tauto; try auto.
  - intros r. rewrite elem_of_nil. tauto.
  - intros r Hr. apply elem_of_nil in Hr. contradiction.
  - intros p r _ _ Hr. apply elem_of_nil in Hr. contradiction.
Qed.

Lemma cleaned_app l1 l2 poolName s s1 s2 k1 k2 :
  cleaned l1 poolName s s1 k1 -> cleaned l2 poolName s1 s2 k2 ->
  cleaned (l1 ++ l2) poolName s s2 (k1 ++ k2).
Proof.
  intros [h1 kp1 sc1 g1 p1 rg1 pn1 pd1 (fb1 & fp1 & fe1 & fn1)]
         [h2 kp2 sc2 g2 p2 rg2 pn2 pd2 (fb2 & fp2 & fe2 & fn2)].
  constructor.
  - intros r. rewrite h2. apply h1.
  - intros r. rewrite !elem_of_app, kp1, kp2, h1. tauto.
  - intros r Hr. apply sc1, sc2, Hr.
  - intros r Hr Hd. apply elem_of_app in Hr. destruct Hr as [Hr|Hr].
    + intros Hm Hin. rewrite h2 in Hm.
      apply (g1 r Hr Hd); [exact Hm|apply sc2, Hin].
    + apply g2; [exact Hr|]. rewrite h1. exact Hd.
  - intros q r Hq. apply p2, p1, Hq.
  - intros q. rewrite rg1. apply rg2.
  - intros q r Hq. destruct (pn2 q r Hq) as [Hq1|(Hpn & Hr & Hd)].
    + destruct (pn1 q r Hq1) as [Hq0|(Hpn & Hr & Hd)]; [auto|].
      right. rewrite elem_of_app. auto.
    + right. rewrite elem_of_app. rewrite h1 in Hd. auto.
  - intros p r Hpn Hreg Hr Hd. apply elem_of_app in Hr.
    destruct Hr as [Hr|Hr].
    + apply p2. apply (pd1 p r Hpn Hreg Hr Hd).
    + apply (pd2 p r Hpn); [apply rg1, Hreg|exact Hr|].
      rewrite h1. exact Hd.
  - repeat split; congruence.
Qed.

Lemma scene_remove_sub e s r : r ∈ scene (scene_remove e s) -> r ∈ scene s.
Proof.
  unfold scene_remove. destruct (has_mesh (heap s e)); simpl; [|tauto].
  rewrite elem_of_difference. tauto.
Qed.

Lemma scene_remove_gone e s : invisible e (scene_remove e s).
Proof.
  unfold invisible, scene_remove.
  destruct (has_mesh (heap s e)) eqn:E; simpl; [|congruence].
  intros _. rewrite elem_of_difference, elem_of_singleton. tauto.
Qed.

Lemma returnObjectToPool_sub e pn s r :
  r ∈ scene (returnObjectToPool (Some e) pn s) -> r ∈ scene s.
Proof.
  rewrite returnObjectToPool_scene. destruct (has_mesh (heap s e)); [|tauto].
  rewrite elem_of_difference. tauto.
Qed.

Lemma returnObjectToPool_gone e pn s :
  has_mesh (heap s e) = true -> e ∉ scene (returnObjectToPool (Some e) pn s).
Proof.
  intros H. rewrite returnObjectToPool_scene, H.
  rewrite elem_of_difference, elem_of_singleton. tauto.
Qed.

Lemma returnObjectToPool_in_pool e pn s q r :
  in_pool q r (returnObjectToPool (Some e) pn s) <->
  in_pool q r s \/ (q = pn /\ r = e /\ is_Some (pools s !! pn)).
Proof.
  unfold in_pool at 1. rewrite returnObjectToPool_pools'.
  destruct (pools s !! pn) as [pool|] eqn:E.
  - rewrite (in_pool_push pn q r e s pool E). split.
    + intros [H|[-> ->]]; [auto|]. right. eauto.
    + intros [H|(-> & -> & _)]; auto.
  - split; [auto|]. intros [H|(_ & _ & [x Hx])]; [exact H|discriminate].
Qed.

Lemma returnObjectToPool_registered e pn s q :
  is_Some (pools s !! q) <->
  is_Some (pools (returnObjectToPool (Some e) pn s) !! q).
Proof.
  rewrite returnObjectToPool_pools'.
  destruct (pools s !! pn) as [pool|] eqn:E; [|tauto].
  destruct (decide (pn = q)) as [<-|Hne].
  - rewrite lookup_insert_eq, E. split; eauto.
  - rewrite lookup_insert_ne by exact Hne. tauto.
Qed.

(** The filter drops one destroyed entity. *)
Lemma cleaned_release e poolName s :
  destroyed (heap s e) = true ->
  cleaned [e] poolName s
    (match poolName with
     | Some pn => returnObjectToPool (Some e) pn (scene_remove e s)
     | None => scene_remove e s
     end) [].
Proof.
  intros Hd.
  destruct (scene_remove_fields e s) as (Hh & Hp & _ & Hb & Hpu & Hfx & Hen).
  pose proof (scene_remove_gone e s) as Hgone.
  destruct poolName as [pn|].
  - pose proof (returnObjectToPool_heap_destroyed e pn (scene_remove e s))
      as Hheap.
    rewrite Hh in Hheap. specialize (Hheap Hd).
    destruct (returnObjectToPool_frame e pn (scene_remove e s))
      as (Hb' & Hpu' & Hfx' & Hen').
    constructor.
    + exact Hheap.
    + intros r. rewrite elem_of_nil, list_elem_of_singleton. split; [tauto|].
      intros [-> H]. congruence.
    + intros r Hr. apply (scene_remove_sub e s), (returnObjectToPool_sub e pn),
        Hr.
    + intros r Hr _. apply list_elem_of_singleton in Hr. subst r.
      intros Hm Hin. apply Hgone.
      * rewrite Hh. rewrite Hheap in Hm. exact Hm.
      * apply (returnObjectToPool_sub e pn), Hin.
    + intros q r Hq. apply returnObjectToPool_in_pool. left.
      unfold in_pool. rewrite Hp. exact Hq.
    + intros q. rewrite <- returnObjectToPool_registered, Hp. tauto.
    + intros q r Hq. apply returnObjectToPool_in_pool in Hq.
      unfold in_pool in Hq. rewrite Hp in Hq.
      destruct Hq as [Hq|(-> & -> & _)]; [left; exact Hq|].
      right. rewrite list_elem_of_singleton. auto.
    + intros p r [= <-] Hreg Hr _. apply list_elem_of_singleton in Hr.
      subst r. apply returnObjectToPool_in_pool. right. rewrite Hp. auto.
    + repeat split; congruence.
  - constructor.
    + intros r. rewrite Hh. reflexivity.
    + intros r. rewrite elem_of_nil, list_elem_of_singleton. split; [tauto|].
      intros [-> H]. congruence.
    + apply scene_remove_sub.
    + intros r Hr _. apply list_elem_of_singleton in Hr. subst r.
      exact Hgone.
    + intros q r. unfold in_pool. rewrite Hp. tauto.
    + intros q. rewrite Hp. tauto.
    + intros q r. unfold in_pool. rewrite Hp. auto.
    + intros p r [=].
    + repeat split; assumption.
Qed.

Lemma cleanupList_cleaned entities poolName :
  forall s, cleaned entities poolName s
              (snd (cleanupList entities poolName s))
              (fst (cleanupList entities poolName s)).
Proof.
  induction entities as [|e l IH]; intros s; [apply cleaned_nil|].
  simpl. destruct (destroyed (heap s e)) eqn:Hd.
  - apply (cleaned_app [e] l poolName s _ _ [] _
             (cleaned_release e poolName s Hd)).
    apply IH.
  - specialize (IH s). destruct (cleanupList l poolName s) as [kept s'].
    apply (cleaned_app [e] l poolName s s s' [e] kept
             (cleaned_keep e poolName s Hd) IH).
Qed.

End CleanupFacts.

Section LoopFacts.
Import GameEngine3D.

Lemma nothing_spawned s s' :
  activePowerUps s' = activePowerUps s ->
  exists spawned,
    activePowerUps s' = activePowerUps s ++ spawned
    /\ forall x, x ∈ spawned ->
         destroyed (heap s' x) = false /\ is_powerUp (heap s' x) = true.
Proof.
  intros H. exists []. split; [rewrite H; symmetry; apply app_nil_r|].
  intros x Hx. apply elem_of_nil in Hx. contradiction.
Qed.

Lemma benign_refl s : benign s s.
Proof.
  constructor; auto. apply nothing_spawned. reflexivity.
Qed.

Lemma benign_alive s s' r :
  benign s s' -> destroyed (heap s r) = false -> destroyed (heap s' r) = false.
Proof.
  intros B H. destruct (destroyed (heap s' r)) eqn:E; [|reflexivity].
  rewrite (bn_heap s s' B r E) in E. congruence.
Qed.

Lemma benign_trans s s1 s2 : benign s s1 -> benign s1 s2 -> benign s s2.
Proof.
  intros B1 B2.
  assert (forall r, destroyed (heap s2 r) = true ->
                    destroyed (heap s1 r) = true) as Hd.
  { intros r H. rewrite <- (bn_heap s1 s2 B2 r H). exact H. }
  constructor.
  - intros r H. rewrite (bn_heap s1 s2 B2 r H).
    apply (bn_heap s s1 B1), Hd, H.
  - intros r. destruct (bn_class s s1 B1 r) as (a1 & b1 & c1).
    destruct (bn_class s1 s2 B2 r) as (a2 & b2 & c2).
    repeat split; congruence.
  - intros r H Hin. apply (bn_scene s s1 B1 r (Hd r H)).
    apply (bn_scene s1 s2 B2 r H Hin).
  - intros q r H Hq. apply (bn_pool s1 s2 B2 q r H).
    apply (bn_pool s s1 B1 q r (Hd r H) Hq).
  - intros q Hq. apply (bn_registered s1 s2 B2), (bn_registered s s1 B1), Hq.
  - intros r Hr. apply (bn_powerUps_pool s s1 B1), (bn_powerUps_pool s1 s2 B2),
      Hr.
  - rewrite (bn_bullets s1 s2 B2). apply (bn_bullets s s1 B1).
  - rewrite (bn_effects s1 s2 B2). apply (bn_effects s s1 B1).
  - rewrite (bn_enemies s1 s2 B2). apply (bn_enemies s s1 B1).
  - destruct (bn_powerUps s s1 B1) as (n1 & E1 & H1).
    destruct (bn_powerUps s1 s2 B2) as (n2 & E2 & H2).
    exists (n1 ++ n2). split; [rewrite E2, E1, app_assoc; reflexivity|].
    intros x Hx. apply elem_of_app in Hx. destruct Hx as [Hx|Hx].
    + destruct (H1 x Hx) as [Ha Hc]. split.
      * apply (benign_alive s1 s2 x B2 Ha).
      * destruct (bn_class s1 s2 B2 x) as (_ & -> & _). exact Hc.
    + apply H2, Hx.
Qed.

(** A step that touches neither objects, scene, pools nor active lists. *)
Lemma benign_frame s s' :
  heap s' = heap s -> scene s' = scene s -> pools s' = pools s ->
  activeBullets s' = activeBullets s -> activePowerUps s' = activePowerUps s ->
  activeEffects s' = activeEffects s -> activeEnemies s' = activeEnemies s ->
  benign s s'.
Proof.
  intros Hh Hs Hp Hb Hpu Hfx Hen.
  constructor; try (apply nothing_spawned; exact Hpu);
    unfold in_pool; rewrite ?Hh, ?Hs, ?Hp; auto.
Qed.

Lemma benign_scene_remove r s : benign s (scene_remove r s).
Proof.
  destruct (scene_remove_fields r s) as (Hh & Hp & _ & Hb & Hpu & Hfx & Hen).
  constructor; try (apply nothing_spawned; exact Hpu);
    unfold in_pool; rewrite ?Hh, ?Hp; auto.
  intros r' _. apply scene_remove_sub.
Qed.

Lemma benign_return r poolName s :
  destroyed (heap s r) = true -> poolName <> "powerUps"%string ->
  benign s (returnObjectToPool (Some r) poolName s).
Proof.
  intros Hd Hne.
  pose proof (returnObjectToPool_heap_destroyed r poolName s Hd) as Hh.
  destruct (returnObjectToPool_frame r poolName s) as (Hb & Hpu & Hfx & Hen).
  constructor.
  - intros r' _. apply Hh.
  - intros r'. rewrite Hh. auto.
  - intros r' _. apply returnObjectToPool_sub.
  - intros q r' _ Hq. apply returnObjectToPool_in_pool. auto.
  - intros q. apply returnObjectToPool_registered.
  - intros r' Hq. apply returnObjectToPool_in_pool in Hq.
    destruct Hq as [Hq|(Heq & _)]; [exact Hq|]. congruence.
  - exact Hb.
  - exact Hfx.
  - exact Hen.
  - apply nothing_spawned, Hpu.
Qed.

Section WithHost.
Context {host : Host}.

Lemma PowerUp_reset_alive position ty r1 r2 p :
  PowerUp._destroyed (PowerUp.reset position ty r1 r2 p) = false.
Proof.
  unfold PowerUp.reset.
  destruct ty as [k|]; [destruct (PowerUp.lookup_type k _)|]; reflexivity.
Qed.

(** [spawnPowerUp] with a power-up in the pool. *)
Lemma spawnPowerUp_pop position s x rest :
  pools s !! "powerUps"%string = Some (push x rest) ->
  is_powerUp (heap s x) = true ->
  exists s1, spawnPowerUp position s = Ok (tt, s1)
    /\ (forall r, r <> x -> heap s1 r = heap s r)
    /\ destroyed (heap s1 x) = false
    /\ is_powerUp (heap s1 x) = true
    /\ scene s1 = scene s ∪ {[x]}
    /\ pools s1 = <["powerUps"%string := rest]> (pools s)
    /\ activePowerUps s1 = push x (activePowerUps s)
    /\ activeBullets s1 = activeBullets s
    /\ activeEffects s1 = activeEffects s
    /\ activeEnemies s1 = activeEnemies s.
Proof.
  intros Hpool Hx. destruct (heap s x) as [| |p|] eqn:E; try discriminate.
  unfold spawnPowerUp, bind, getObjectFromPool.
  rewrite Hpool, pop_push. simpl. unfold scene_add. simpl.
  rewrite heap_set_same, E. simpl. rewrite heap_set_same. simpl.
  eexists. split; [reflexivity|]. simpl. rewrite heap_set_same. simpl.
  split; [|split; [apply PowerUp_reset_alive|auto 10]].
  intros r Hr. rewrite !heap_set_other by exact Hr. reflexivity.
Qed.

Lemma benign_spawnPowerUp position s :
  is_Some (pools s !! "powerUps"%string) ->
  (forall r, in_pool "powerUps" r s -> is_powerUp (heap s r) = true) ->
  exists s1, spawnPowerUp position s = Ok (tt, s1) /\ benign s s1
             /\ forall r, is_powerUp (heap s r) = false ->
                          heap s1 r = heap s r.
Proof.
  intros [pool Hpool] Htyped.
  destruct (pop pool) as [[x rest]|] eqn:Hpop.
  - apply pop_Some in Hpop. subst pool.
    assert (is_powerUp (heap s x) = true) as Hx.
    { apply Htyped. exists (push x rest). split; [exact Hpool|].
      unfold push. rewrite elem_of_app, list_elem_of_singleton. auto. }
    destruct (spawnPowerUp_pop position s x rest Hpool Hx)
      as (s1 & Hrun & Hother & Halive & Hclass & Hscene & Hpools & Hpu & Hb
          & Hfx & Hen).
    exists s1. split; [exact Hrun|].
    assert (forall r, destroyed (heap s1 r) = true -> r <> x) as Hne.
    { intros r H ->. congruence. }
    split; [|intros r Hr; apply Hother; intros ->; congruence].
    constructor.
    + intros r H. apply Hother, Hne, H.
    + intros r. destruct (Pos.eq_dec r x) as [->|Hr].
      * rewrite Hclass, Hx.
        destruct (heap s1 x), (heap s x); try discriminate; auto.
      * rewrite (Hother r Hr). auto.
    + intros r H. rewrite Hscene, elem_of_union, elem_of_singleton.
      intros [Hin|Heq]; [exact Hin|]. exfalso. apply (Hne r H Heq).
    + intros q r H (pool' & Hq & Hr). unfold in_pool. rewrite Hpools.
      destruct (decide ("powerUps"%string = q)) as [<-|Hq'].
      * rewrite lookup_insert_eq. exists rest. split; [reflexivity|].
        assert (pool' = push x rest) as -> by congruence.
        unfold push in Hr. apply elem_of_app in Hr.
        destruct Hr as [Hr|Hr]; [exact Hr|].
        apply list_elem_of_singleton in Hr. exfalso. apply (Hne r H Hr).
      * rewrite lookup_insert_ne by exact Hq'. eauto.
    + intros q. rewrite Hpools.
      destruct (decide ("powerUps"%string = q)) as [<-|Hq'].
      * rewrite lookup_insert_eq. eauto.
      * rewrite lookup_insert_ne by exact Hq'. tauto.
    + intros r (pool' & Hq & Hr). rewrite Hpools, lookup_insert_eq in Hq.
      exists (push x rest). split; [exact Hpool|].
      assert (pool' = rest) as -> by congruence.
      unfold push. rewrite elem_of_app. auto.
    + exact Hb.
    + exact Hfx.
    + exact Hen.
    + exists [x]. split; [exact Hpu|]. intros y Hy.
      apply list_elem_of_singleton in Hy. subst y. auto.
  - apply pop_nil_iff in Hpop. subst pool. exists s.
    split; [apply spawnPowerUp_skips, Hpool|].
    split; [apply benign_refl|reflexivity].
Qed.

Lemma cleanupEnemies_alive enemy rest remainingEnemies s :
  destroyed (heap s enemy) = false ->
  cleanupEnemies (enemy :: rest) remainingEnemies s
    = cleanupEnemies rest (push enemy remainingEnemies) s.
Proof.
  intros H. simpl. unfold bind at 1, gets at 1. simpl. rewrite H. reflexivity.
Qed.

Lemma cleanupEnemies_destroyed enemy rest remainingEnemies s e :
  heap s enemy = OEnemy e -> Enemy._destroyed e = true ->
  cleanupEnemies (enemy :: rest) remainingEnemies s
    = let s1 := set_enemiesActive (enemiesActive s - 1)%Z s in
      let s2 := updateScore (Enemy.score e) s1 in
      let s3 := scene_remove enemy s2 in
      let rand := Math_random (randomCalls s3) in
      let s4 := set_randomCalls (S (randomCalls s3)) s3 in
      obind ((if Qltb rand (Enemy.dropChance e)
              then spawnPowerUp (Enemy.position e) else ret tt) s4)
        (fun '(_, s5) =>
           cleanupEnemies rest remainingEnemies
             (returnObjectToPool (Some enemy) "enemies" s5)).
Proof.
  intros Ho Hd. simpl. unfold bind at 1, gets at 1. simpl. rewrite Ho.
  simpl. rewrite Hd. reflexivity.
Qed.


(** One destroyed enemy of the loop: score, scene, drop and pool. *)
Lemma cleanup_one_enemy enemy e s :
  heap s enemy = OEnemy e -> Enemy._destroyed e = true ->
  is_Some (pools s !! "powerUps"%string) ->
  (forall r, in_pool "powerUps" r s -> is_powerUp (heap s r) = true) ->
  let s1 := set_enemiesActive (enemiesActive s - 1)%Z s in
  let s2 := updateScore (Enemy.score e) s1 in
  let s3 := scene_remove enemy s2 in
  let rand := Math_random (randomCalls s3) in
  let s4 := set_randomCalls (S (randomCalls s3)) s3 in
  exists s5,
    (if Qltb rand (Enemy.dropChance e)
     then spawnPowerUp (Enemy.position e) else ret tt) s4 = Ok (tt, s5)
    /\ benign s (returnObjectToPool (Some enemy) "enemies" s5)
    /\ (enemy ∉ scene (returnObjectToPool (Some enemy) "enemies" s5))
    /\ (is_Some (pools s !! "enemies"%string) ->
        in_pool "enemies" enemy (returnObjectToPool (Some enemy) "enemies" s5)).
Proof.
  intros Ho Hd Hreg Htyped s1 s2 s3 rand s4.
  assert (benign s s2) as B2 by (apply benign_frame; reflexivity).
  assert (benign s2 s3) as B3 by apply benign_scene_remove.
  destruct (scene_remove_fields enemy s2)
    as (Hh3 & Hp3 & _ & Hb3 & Hpu3 & Hfx3 & Hen3).
  fold s3 in Hh3, Hp3, Hb3, Hpu3, Hfx3, Hen3.
  assert (benign s3 s4) as B4 by (apply benign_frame; reflexivity).
  assert (benign s2 s4) as B24 by apply (benign_trans s2 s3 s4 B3 B4).
  assert (benign s s4) as B by apply (benign_trans s s2 s4 B2 B24).
  assert (heap s4 = heap s) as Hh4 by exact Hh3.
  assert (pools s4 = pools s) as Hp4 by exact Hp3.
  assert (exists s5,
            (if Qltb rand (Enemy.dropChance e)
             then spawnPowerUp (Enemy.position e) else ret tt) s4
              = Ok (tt, s5)
            /\ benign s4 s5
            /\ heap s5 enemy = heap s4 enemy) as (s5 & Hrun & B5 & Hsame).
  { destruct (Qltb rand (Enemy.dropChance e)).
    - destruct (benign_spawnPowerUp (Enemy.position e) s4)
        as (s5 & Hrun & B5 & Hsame).
      + rewrite Hp4. exact Hreg.
      + intros r. unfold in_pool. rewrite Hp4, Hh4. apply Htyped.
      + exists s5. split; [exact Hrun|]. split; [exact B5|].
        apply Hsame. rewrite Hh4, Ho. reflexivity.
    - exists s4. split; [reflexivity|]. split; [apply benign_refl|reflexivity]. }
  exists s5. split; [exact Hrun|].
  assert (heap s5 enemy = OEnemy e) as Ho5 by (rewrite Hsame, Hh4; exact Ho).
  assert (benign s s5) as B' by apply (benign_trans s s4 s5 B B5).
  split; [|split].
  - apply (benign_trans s s5 _ B'). apply benign_return; [|discriminate].
    rewrite Ho5. exact Hd.
  - apply returnObjectToPool_gone. rewrite Ho5. reflexivity.
  - intros Hen. apply returnObjectToPool_in_pool. right.
    split; [reflexivity|]. split; [reflexivity|].
    apply (bn_registered s s5 B'), Hen.
Qed.

(** The loop over the enemies: it runs to its end, every step is benign,
    the enemies that remain are not destroyed, and an enemy of the list
    that is destroyed afterwards has left the scene and is in the pool
    [enemies]. *)
Lemma cleanupEnemies_ok enemies :
  forall remainingEnemies s,
    is_Some (pools s !! "powerUps"%string) ->
    (forall r, in_pool "powerUps" r s -> is_powerUp (heap s r) = true) ->
    (forall r, r ∈ enemies -> is_enemy (heap s r) = true) ->
    (forall r, r ∈ remainingEnemies -> destroyed (heap s r) = false) ->
    exists remaining s',
      cleanupEnemies enemies remainingEnemies s = Ok (remaining, s')
      /\ benign s s'
      /\ (forall r, r ∈ remaining ->
            destroyed (heap s' r) = false
            /\ (r ∈ remainingEnemies \/ r ∈ enemies))
      /\ (forall r, r ∈ enemies -> destroyed (heap s' r) = true ->
            (r ∉ scene s')
            /\ (is_Some (pools s !! "enemies"%string) ->
                in_pool "enemies" r s')).
Proof.
  induction enemies as [|enemy rest IH]; intros acc s Hreg Htyped Hen Hacc.
  - exists acc, s. split; [reflexivity|]. split; [apply benign_refl|].
    split.
    + intros r Hr. auto.
    + intros r Hr. apply elem_of_nil in Hr. contradiction.
  - destruct (destroyed (heap s enemy)) eqn:Hd.
    + assert (is_enemy (heap s enemy) = true) as Hcl
        by (apply Hen, elem_of_cons; auto).
      destruct (heap s enemy) as [|e| |] eqn:Ho; try discriminate.
      simpl in Hd.
      destruct (cleanup_one_enemy enemy e s Ho Hd Hreg Htyped)
        as (s5 & Hrun & B & Hgone & Hpool).
      rewrite (cleanupEnemies_destroyed enemy rest acc s e Ho Hd).
      cbv zeta. rewrite Hrun. simpl.
      set (sf := returnObjectToPool (Some enemy) "enemies" s5) in *.
      destruct (IH acc sf) as (remaining & s' & Hloop & B' & Hrem & Hdone).
      * apply (bn_registered s sf B), Hreg.
      * intros r Hr. destruct (bn_class s sf B r) as (_ & -> & _).
        apply Htyped, (bn_powerUps_pool s sf B), Hr.
      * intros r Hr. destruct (bn_class s sf B r) as (-> & _ & _).
        apply Hen, elem_of_cons. auto.
      * intros r Hr. apply (benign_alive s sf r B), Hacc, Hr.
      * exists remaining, s'. split; [exact Hloop|].
        split; [apply (benign_trans s sf s' B B')|]. split.
        -- intros r Hr. destruct (Hrem r Hr) as [Ha [Hin|Hin]];
             (split; [exact Ha|]); [auto|]. right. apply elem_of_cons. auto.
        -- intros r Hr Hdr. apply elem_of_cons in Hr.
           destruct Hr as [->|Hr].
           ++ split.
              ** intros Hin. apply Hgone.
                 apply (bn_scene sf s' B' enemy Hdr Hin).
              ** intros Hp. apply (bn_pool sf s' B' _ _ Hdr).
                 apply Hpool, Hp.
           ++ destruct (Hdone r Hr Hdr) as [Hs Hp]. split; [exact Hs|].
              intros Hp'. apply Hp, (bn_registered s sf B), Hp'.
    + rewrite (cleanupEnemies_alive enemy rest acc s Hd).
      destruct (IH (push enemy acc) s Hreg Htyped)
        as (remaining & s' & Hloop & B' & Hrem & Hdone).
      * intros r Hr. apply Hen, elem_of_cons. auto.
      * intros r Hr. unfold push in Hr. apply elem_of_app in Hr.
        destruct Hr as [Hr|Hr]; [apply Hacc, Hr|].
        apply list_elem_of_singleton in Hr. subst r. exact Hd.
      * exists remaining, s'. split; [exact Hloop|]. split; [exact B'|].
        split.
        -- intros r Hr. destruct (Hrem r Hr) as [Ha Hin].
           split; [exact Ha|]. unfold push in Hin.
           rewrite elem_of_app, list_elem_of_singleton in Hin.
           rewrite elem_of_cons. tauto.
        -- intros r Hr Hdr. apply elem_of_cons in Hr.
           destruct Hr as [->|Hr]; [|apply Hdone; assumption].
           rewrite (benign_alive s s' enemy B' Hd) in Hdr. discriminate.
Qed.

(** [cleanupEntities] is the three filters followed by the loop over
    the enemies. *)
Lemma cleanupEntities_phases (s : t) :
  let c1 := cleanupList (activeBullets s) (Some "bullets"%string) s in
  let sA := set_activeBullets (fst c1) (snd c1) in
  let c2 := cleanupList (activePowerUps sA) (Some "powerUps"%string) sA in
  let sB := set_activePowerUps (fst c2) (snd c2) in
  let c3 := cleanupList (activeEffects sB) None sB in
  let sC := set_activeEffects (fst c3) (snd c3) in
  cleanupEntities s
  = obind (cleanupEnemies (activeEnemies sC) [] sC)
      (fun '(rem, sD) => Ok (tt, set_activeEnemies rem sD)).
Proof.
  unfold cleanupEntities, bind, modify, gets. simpl.
  destruct (cleanupList (activeBullets s) (Some "bullets"%string) s)
    as [k1 s1].
  simpl.
  destruct (cleanupList (activePowerUps s1) (Some "powerUps"%string)
              (set_activeBullets k1 s1)) as [k2 s2].
  simpl.
  destruct (cleanupList (activeEffects s2) None (set_activePowerUps k2 s2))
    as [k3 s3].
  reflexivity.
Qed.

(** The cleanup pass as a whole.  On an engine whose lists hold objects
    of their class it runs to its end; afterwards every entity of an
    active list is not destroyed, and an entity that is destroyed is in
    the object it was and in no active list, has no mesh in the scene
    unless the pass never saw it and it had one before, stays in the
    pools it was in, and is in the pool of its kind if it was an active
    bullet, power-up or enemy. *)
Lemma cleanupEntities_spec (s : t) :
  well_typed s ->
  exists s',
    cleanupEntities s = Ok (tt, s')
    /\ (forall r, r ∈ active s' -> destroyed (heap s' r) = false)
    /\ (forall r, destroyed (heap s' r) = true ->
          heap s' r = heap s r
          /\ (r ∉ active s')
          /\ ((r ∉ active s -> invisible r s) -> invisible r s')
          /\ (forall q, in_pool q r s -> in_pool q r s')
          /\ (r ∈ activeBullets s -> in_pool "bullets" r s')
          /\ (r ∈ activePowerUps s -> in_pool "powerUps" r s')
          /\ (r ∈ activeEnemies s -> in_pool "enemies" r s')).
Proof.
  intros (Hre & Hrb & Hrp & Hten & Htpu & Htpool).
  pose proof (cleanupEntities_phases s) as Hrun. cbv zeta in Hrun.
  pose proof (cleanupList_cleaned (activeBullets s) (Some "bullets"%string) s)
    as C1.
  set (k1 := fst (cleanupList (activeBullets s) (Some "bullets"%string) s))
    in *.
  set (s1 := snd (cleanupList (activeBullets s) (Some "bullets"%string) s))
    in *.
  set (sA := set_activeBullets k1 s1) in *.
  pose proof (cleanupList_cleaned (activePowerUps sA)
                (Some "powerUps"%string) sA) as C2.
  set (k2 := fst (cleanupList (activePowerUps sA) (Some "powerUps"%string)
                    sA)) in *.
  set (s2 := snd (cleanupList (activePowerUps sA) (Some "powerUps"%string)
                    sA)) in *.
  set (sB := set_activePowerUps k2 s2) in *.
  pose proof (cleanupList_cleaned (activeEffects sB) None sB) as C3.
  set (k3 := fst (cleanupList (activeEffects sB) None sB)) in *.
  set (s3 := snd (cleanupList (activeEffects sB) None sB)) in *.
  set (sC := set_activeEffects k3 s3) in *.
  clearbody k1 s1 k2 s2 k3 s3.
  destruct C1 as [h1 kp1 sc1 g1 p1 rg1 pn1 pd1 (fb1 & fp1 & fe1 & fn1)].
  destruct C2 as [h2 kp2 sc2 g2 p2 rg2 pn2 pd2 (fb2 & fp2 & fe2 & fn2)].
  destruct C3 as [h3 kp3 sc3 g3 p3 rg3 pn3 pd3 (fb3 & fp3 & fe3 & fn3)].
  change (heap sA) with (heap s1) in *. change (scene sA) with (scene s1) in *.
  change (pools sA) with (pools s1) in *.
  change (activePowerUps sA) with (activePowerUps s1) in *.
  change (activeEffects sA) with (activeEffects s1) in *.
  change (activeEnemies sA) with (activeEnemies s1) in *.
  change (activeBullets sA) with k1 in *.
  change (heap sB) with (heap s2) in *. change (scene sB) with (scene s2) in *.
  change (pools sB) with (pools s2) in *.
  change (activeBullets sB) with (activeBullets s2) in *.
  change (activeEffects sB) with (activeEffects s2) in *.
  change (activeEnemies sB) with (activeEnemies s2) in *.
  change (activePowerUps sB) with k2 in *.
  assert (forall q r, in_pool q r sA <-> in_pool q r s1) as ipA
    by (intros; reflexivity).
  assert (forall q r, in_pool q r sB <-> in_pool q r s2) as ipB
    by (intros; reflexivity).
  assert (forall q r, in_pool q r sC <-> in_pool q r s3) as ipC
    by (intros; reflexivity).
  assert (forall r, heap sC r = heap s r) as HhC.
  { intros r. change (heap sC r) with (heap s3 r). rewrite h3, h2. apply h1. }
  assert (forall r, r ∈ scene sC -> r ∈ scene s) as HscC.
  { intros r Hr. apply sc1, sc2, sc3, Hr. }
  assert (activeEnemies sC = activeEnemies s) as HenC.
  { change (activeEnemies sC) with (activeEnemies s3). congruence. }
  assert (activeBullets sC = k1) as HbC.
  { change (activeBullets sC) with (activeBullets s3). congruence. }
  assert (activePowerUps sC = k2) as HpuC.
  { change (activePowerUps sC) with (activePowerUps s3). congruence. }
  assert (activeEffects sC = k3) as HfxC by reflexivity.
  assert (activePowerUps s1 = activePowerUps s) as HpuA by exact fp1.
  assert (activeEffects s2 = activeEffects s) as HfxB by congruence.
  rewrite HpuA in *. rewrite HfxB in *.
  (* the loop *)
  destruct (cleanupEnemies_ok (activeEnemies sC) [] sC)
    as (remaining & sD & Hloop & B & Hrem & Hdone).
  { apply rg3, rg2, rg1, Hrp. }
  { intros r Hr. rewrite HhC. apply ipC in Hr.
    destruct (pn3 _ _ Hr) as [Hr2|(Hn & _)]; [|discriminate].
    apply ipB in Hr2.
    destruct (pn2 _ _ Hr2) as [Hr1|(_ & Hin & _)]; [|apply Htpu, Hin].
    apply ipA in Hr1.
    destruct (pn1 _ _ Hr1) as [Hr0|(Hn & _)]; [|discriminate].
    apply Htpool, Hr0. }
  { intros r Hr. rewrite HhC. apply Hten. rewrite <- HenC. exact Hr. }
  { intros r Hr. apply elem_of_nil in Hr. contradiction. }
  exists (set_activeEnemies remaining sD). split.
  { rewrite Hrun, Hloop. reflexivity. }
  change (heap (set_activeEnemies remaining sD)) with (heap sD).
  assert (forall q r, in_pool q r (set_activeEnemies remaining sD)
                      <-> in_pool q r sD) as ipD by (intros; reflexivity).
  assert (forall r, invisible r (set_activeEnemies remaining sD)
                    <-> invisible r sD) as ivD by (intros; reflexivity).
  assert (active (set_activeEnemies remaining sD)
          = activeBullets sD ++ activePowerUps sD ++ activeEffects sD
            ++ remaining) as Hact by reflexivity.
  assert (forall r, destroyed (heap sD r) = true ->
                    destroyed (heap s r) = true) as Hwas.
  { intros r H. rewrite <- HhC, <- (bn_heap sC sD B r H). exact H. }
  (* every active entity is alive *)
  assert (forall r, r ∈ active (set_activeEnemies remaining sD) ->
                    destroyed (heap sD r) = false) as Halive.
  { intros r. rewrite Hact, (bn_bullets sC sD B), (bn_effects sC sD B).
    destruct (bn_powerUps sC sD B) as (spawned & -> & Hsp).
    rewrite HbC, HpuC, HfxC, !elem_of_app.
    intros [Hr|[[Hr|Hr]|[Hr|Hr]]].
    - apply (benign_alive sC sD r B). rewrite HhC. apply kp1, Hr.
    - apply (benign_alive sC sD r B). rewrite HhC, <- h1. apply kp2, Hr.
    - apply Hsp, Hr.
    - apply (benign_alive sC sD r B). rewrite HhC, <- h1, <- h2.
      apply kp3, Hr.
    - apply Hrem, Hr. }
  split; [exact Halive|].
  intros r Hd. pose proof (Hwas r Hd) as Hd0.
  split; [|split; [|split; [|split; [|split; [|split]]]]].
  - rewrite <- HhC. apply (bn_heap sC sD B r Hd).
  - intros Hin. rewrite (Halive r Hin) in Hd. discriminate.
  - intros Hinv. apply ivD. intros Hm Hin.
    assert (has_mesh (heap s r) = true) as Hm0.
    { rewrite <- HhC. destruct (bn_class sC sD B r) as (_ & _ & <-).
      exact Hm. }
    pose proof (bn_scene sC sD B r Hd Hin) as HinC.
    destruct (decide (r ∈ activeEnemies s)) as [Hen|Hnen].
    + rewrite <- HenC in Hen. apply (Hdone r Hen Hd), Hin.
    + destruct (decide (r ∈ activeBullets s)) as [Hb|Hnb].
      { apply (g1 r Hb Hd0); [rewrite h1; exact Hm0|].
        apply sc2, sc3, HinC. }
      destruct (decide (r ∈ activePowerUps s)) as [Hp|Hnp].
      { apply (g2 r Hp); [rewrite h1; exact Hd0| |apply sc3, HinC].
        rewrite h2, h1. exact Hm0. }
      destruct (decide (r ∈ activeEffects s)) as [Hf|Hnf].
      { apply (g3 r Hf); [rewrite h2, h1; exact Hd0| |exact HinC].
        rewrite h3, h2, h1. exact Hm0. }
      apply Hinv; [|exact Hm0|apply HscC, HinC].
      unfold active. rewrite !elem_of_app. tauto.
  - intros q Hq. apply ipD, (bn_pool sC sD B _ _ Hd), ipC, p3, ipB, p2, ipA.
    apply p1, Hq.
  - intros Hb. apply ipD, (bn_pool sC sD B _ _ Hd), ipC, p3, ipB, p2, ipA.
    apply (pd1 "bullets"%string r eq_refl Hrb Hb Hd0).
  - intros Hp. apply ipD, (bn_pool sC sD B _ _ Hd), ipC, p3, ipB.
    apply (pd2 "powerUps"%string r eq_refl); [apply rg1, Hrp|exact Hp|].
    rewrite h1. exact Hd0.
  - intros Hen. apply ipD. rewrite <- HenC in Hen.
    apply (Hdone r Hen Hd). apply rg3, rg2, rg1, Hre.
Qed.

End WithHost.
End LoopFacts.

Section InvariantFacts.
Import GameEngine3D.

Lemma same_world_refl s : same_world s s.
Proof. repeat split. Qed.

Lemma same_world_trans s s1 s2 :
  same_world s s1 -> same_world s1 s2 -> same_world s s2.
Proof.
  intros (a1 & b1 & c1 & d1 & e1 & f1 & g1) (a2 & b2 & c2 & d2 & e2 & f2 & g2).
  repeat split; congruence.
Qed.

Lemma same_world_active s s' : same_world s s' -> active s' = active s.
Proof.
  intros (_ & _ & _ & Hb & Hp & Hf & He). unfold active.
  rewrite Hb, Hp, Hf, He. reflexivity.
Qed.

(** A step that changes one object [x] and adds at most its mesh to the
    scene keeps the pooled entities invisible, if afterwards [x] is
    active, not destroyed, or out of the scene. *)
Lemma pooled_invisible_step s s' x :
  pooled_invisible s ->
  (forall r, r <> x -> heap s' r = heap s r) ->
  (forall r, r <> x -> r ∈ scene s' -> r ∈ scene s) ->
  (forall r, r ∈ active s -> r ∈ active s') ->
  (x ∈ active s' \/ destroyed (heap s' x) = false \/ invisible x s') ->
  pooled_invisible s'.
Proof.
  intros Hinv Hheap Hscene Hact Hx r Hr Hd.
  destruct (Pos.eq_dec r x) as [->|Hne].
  - destruct Hx as [Hx|[Hx|Hx]]; [contradiction|congruence|exact Hx].
  - intros Hm Hin. rewrite (Hheap r Hne) in Hd, Hm.
    apply (Hinv r); [|exact Hd|exact Hm|apply (Hscene r Hne Hin)].
    intros Ha. apply Hr, Hact, Ha.
Qed.

Lemma pooled_invisible_same_world s s' :
  same_world s s' -> pooled_invisible s -> pooled_invisible s'.
Proof.
  intros Hw Hinv r Hr Hd. pose proof (same_world_active s s' Hw) as Ha.
  destruct Hw as (Hh & Hs & _). unfold invisible. rewrite Hh in *.
  rewrite Hs. apply Hinv; [rewrite <- Ha; exact Hr|exact Hd].
Qed.

Lemma pooled_invisible_new store : pooled_invisible (new store).
Proof. intros r _ _ _ Hin. apply elem_of_empty in Hin. exact Hin. Qed.

Lemma pooled_invisible_return x poolName s :
  pooled_invisible s ->
  pooled_invisible (returnObjectToPool (Some x) poolName s).
Proof.
  intros Hinv.
  destruct (returnObjectToPool_frame x poolName s) as (Hb & Hp & Hf & He).
  apply (pooled_invisible_step s _ x Hinv).
  - intros r Hr. rewrite returnObjectToPool_heap. apply heap_set_other, Hr.
  - intros r _. apply returnObjectToPool_sub.
  - intros r. unfold active. rewrite Hb, Hp, Hf, He. tauto.
  - right. right. intros Hm. apply returnObjectToPool_gone.
    rewrite returnObjectToPool_heap, heap_set_same, has_mesh_set_destroyed
      in Hm.
    exact Hm.
Qed.

(** What [getObjectFromPool] changes. *)
Lemma getObjectFromPool_Ok poolName s o s' :
  getObjectFromPool poolName s = Ok (o, s') ->
  match o with
  | None => s' = s
  | Some x =>
      destroyed (heap s' x) = false
      /\ heap s' x = set_destroyed false (heap s x)
      /\ (forall r, r <> x -> heap s' r = heap s r)
      /\ (forall r, r <> x -> r ∈ scene s' -> r ∈ scene s)
      /\ activeBullets s' = activeBullets s
      /\ activePowerUps s' = activePowerUps s
      /\ activeEffects s' = activeEffects s
      /\ activeEnemies s' = activeEnemies s
  end.
Proof.
  unfold getObjectFromPool. destruct (pools s !! poolName) as [pool|];
    [|discriminate].
  destruct (pop pool) as [[x rest]|]; [|intros [= <- <-]; reflexivity].
  intros [= <- <-]. unfold scene_add. simpl.
  rewrite heap_set_same, has_mesh_set_destroyed.
  destruct (has_mesh (heap s x)); simpl;
    rewrite heap_set_same, destroyed_set_destroyed;
    (split; [reflexivity|]); (split; [reflexivity|]);
    (split; [intros r Hr; apply heap_set_other, Hr|]);
    (split; [|auto]).
  - intros r Hr. rewrite elem_of_union, elem_of_singleton. tauto.
  - tauto.
Qed.

Lemma pooled_invisible_get poolName s o s' :
  getObjectFromPool poolName s = Ok (o, s') ->
  pooled_invisible s -> pooled_invisible s'.
Proof.
  intros Hrun Hinv. apply getObjectFromPool_Ok in Hrun.
  destruct o as [x|]; [|subst; exact Hinv].
  destruct Hrun as (Hd & _ & Hh & Hs & Hb & Hp & Hf & He).
  apply (pooled_invisible_step s s' x Hinv Hh Hs); [|auto].
  intros r. unfold active. rewrite Hb, Hp, Hf, He. tauto.
Qed.

Section WithHost.
Context {host : Host}.

Lemma bind_Ok {A B : Type} (m : M A) (k : A -> M B) s b s' :
  bind m k s = Ok (b, s') ->
  exists a s1, m s = Ok (a, s1) /\ k a s1 = Ok (b, s').
Proof.
  unfold bind. destruct (m s) as [[a s1]| |]; simpl; [|discriminate..].
  intros H. eauto.
Qed.

Lemma getRandomSpawnPosition_same_world s v s' :
  getRandomSpawnPosition s = Ok (v, s') -> same_world s s'.
Proof. intros [= _ <-]. repeat split. Qed.

Lemma getRandomEnemyTypeByWaveNumber_same_world wave s ty s' :
  getRandomEnemyTypeByWaveNumber wave s = Ok (ty, s') -> same_world s s'.
Proof.
  unfold getRandomEnemyTypeByWaveNumber. cbv zeta.
  destruct (Qleb _ 0); intros [= _ <-]; repeat split.
Qed.

(** A spawn that pops [x], resets it and pushes it on an active list. *)
Lemma pooled_invisible_spawned s s1 s' x :
  pooled_invisible s ->
  (forall r, r <> x -> heap s1 r = heap s r) ->
  (forall r, r <> x -> r ∈ scene s1 -> r ∈ scene s) ->
  active s1 = active s ->
  (forall r, r <> x -> heap s' r = heap s1 r) ->
  scene s' = scene s1 ->
  (forall r, r ∈ active s1 -> r ∈ active s') ->
  x ∈ active s' ->
  pooled_invisible s'.
Proof.
  intros Hinv Hh1 Hs1 Ha1 Hh Hs Ha Hx.
  apply (pooled_invisible_step s s' x Hinv).
  - intros r Hr. rewrite (Hh r Hr). apply Hh1, Hr.
  - intros r Hr. rewrite Hs. apply Hs1, Hr.
  - intros r Hr. apply Ha. rewrite Ha1. exact Hr.
  - auto.
Qed.

Lemma pooled_invisible_spawnBullet origin direction damage isPlayerBullet
  s s' :
  spawnBullet origin direction damage isPlayerBullet s = Ok (tt, s') ->
  pooled_invisible s -> pooled_invisible s'.
Proof.
  intros Hrun Hinv. unfold spawnBullet in Hrun.
  apply bind_Ok in Hrun as (o & s1 & Hget & Hrun).
  apply getObjectFromPool_Ok in Hget.
  destruct o as [x|]; [|injection Hrun as <-; subst; exact Hinv].
  destruct Hget as (_ & _ & Hh & Hs & Hb & Hp & Hf & He).
  apply bind_Ok in Hrun as (ob & s2 & Hgets & Hrun).
  injection Hgets as <- <-.
  destruct (heap s1 x) as [b| | |] eqn:Hx; try discriminate.
  injection Hrun as <-.
  apply (pooled_invisible_spawned s s1 _ x Hinv Hh Hs).
  - unfold active. rewrite Hb, Hp, Hf, He. reflexivity.
  - intros r Hr. simpl. apply heap_set_other, Hr.
  - reflexivity.
  - intros r. unfold active, push. simpl. rewrite !elem_of_app. tauto.
  - unfold active, push. simpl. rewrite !elem_of_app, list_elem_of_singleton.
    auto.
Qed.

Lemma pooled_invisible_spawnPowerUp position s s' :
  spawnPowerUp position s = Ok (tt, s') ->
  pooled_invisible s -> pooled_invisible s'.
Proof.
  intros Hrun Hinv. unfold spawnPowerUp in Hrun.
  apply bind_Ok in Hrun as (o & s1 & Hget & Hrun).
  apply getObjectFromPool_Ok in Hget.
  destruct o as [x|]; [|injection Hrun as <-; subst; exact Hinv].
  destruct Hget as (_ & _ & Hh & Hs & Hb & Hp & Hf & He).
  apply bind_Ok in Hrun as (rand & s2 & Hrand & Hrun).
  injection Hrand as <- <-.
  apply bind_Ok in Hrun as (ob & s3 & Hgets & Hrun).
  injection Hgets as <- <-.
  simpl in Hrun.
  destruct (heap s1 x) as [|  |p|] eqn:Hx; try discriminate.
  injection Hrun as <-.
  apply (pooled_invisible_spawned s s1 _ x Hinv Hh Hs).
  - unfold active. rewrite Hb, Hp, Hf, He. reflexivity.
  - intros r Hr. simpl. apply heap_set_other, Hr.
  - reflexivity.
  - intros r. unfold active, push. simpl. rewrite !elem_of_app. tauto.
  - unfold active, push. simpl. rewrite !elem_of_app, list_elem_of_singleton.
    auto.
Qed.

Lemma pooled_invisible_spawnEnemy s s' :
  spawnEnemy s = Ok (tt, s') -> pooled_invisible s -> pooled_invisible s'.
Proof.
  intros Hrun Hinv. unfold spawnEnemy in Hrun.
  apply bind_Ok in Hrun as (o & s1 & Hget & Hrun).
  apply getObjectFromPool_Ok in Hget.
  destruct o as [x|]; [|injection Hrun as <-; subst; exact Hinv].
  destruct Hget as (_ & _ & Hh & Hs & Hb & Hp & Hf & He).
  apply bind_Ok in Hrun as (wave & s2 & Hgets & Hrun).
  injection Hgets as <- <-.
  apply bind_Ok in Hrun as (ty & s3 & Hty & Hrun).
  apply getRandomEnemyTypeByWaveNumber_same_world in Hty.
  apply bind_Ok in Hrun as (pos & s4 & Hpos & Hrun).
  apply getRandomSpawnPosition_same_world in Hpos.
  pose proof (same_world_trans _ _ _ Hty Hpos) as Hw.
  apply bind_Ok in Hrun as (ob & s5 & Hgets & Hrun).
  injection Hgets as <- <-.
  destruct (heap s4 x) as [|e| |] eqn:Hx; try discriminate.
  destruct (lookup_enemyType ty enemyTypes) as [cfg|]; [|discriminate].
  apply bind_Ok in Hrun as (r1 & s6 & Hr1 & Hrun). injection Hr1 as <- <-.
  apply bind_Ok in Hrun as (r2 & s7 & Hr2 & Hrun). injection Hr2 as <- <-.
  apply bind_Ok in Hrun as (r3 & s8 & Hr3 & Hrun).
  assert (same_world s4 s8) as Hw8.
  { destruct (Enemy.state_eqb _ _); injection Hr3 as _ <-; repeat split. }
  injection Hrun as <-.
  pose proof (same_world_trans _ _ _ Hw Hw8) as Hw'.
  pose proof (same_world_active _ _ Hw') as Hact.
  destruct Hw' as (Hh8 & Hs8 & _).
  apply (pooled_invisible_step s _ x Hinv).
  - intros r Hr. simpl. rewrite heap_set_other by exact Hr.
    rewrite Hh8. apply Hh, Hr.
  - intros r Hr. simpl. rewrite Hs8. apply Hs, Hr.
  - intros r Hr. unfold active, push. simpl.
    assert (r ∈ active s8) as Hr8.
    { rewrite Hact. unfold active. rewrite Hb, Hp, Hf, He. exact Hr. }
    unfold active in Hr8. rewrite !elem_of_app in *. tauto.
  - left. unfold active, push. simpl.
    rewrite !elem_of_app, list_elem_of_singleton. auto.
Qed.

End WithHost.
End InvariantFacts.

Section CleanupInvariant.
Import GameEngine3D.
Context {host : Host}.

(** The cleanup pass keeps the invariant of the pools. *)
Lemma pooled_invisible_cleanup s s' :
  well_typed s -> cleanupEntities s = Ok (tt, s') ->
  pooled_invisible s -> pooled_invisible s'.
Proof.
  intros Hwt Hrun Hinv.
  destruct (cleanupEntities_spec s Hwt) as (s'' & Hrun' & _ & Hdead).
  assert (s'' = s') as -> by congruence.
  intros r _ Hd. destruct (Hdead r Hd) as (Hsame & _ & Hgone & _).
  apply Hgone. intros Hr. apply Hinv; [exact Hr|].
  rewrite <- Hsame. exact Hd.
Qed.


End CleanupInvariant.

Lemma example_engine_well_typed : GameEngine3D.well_typed example_engine.
Proof.
  unfold GameEngine3D.well_typed.
  split; [exists []; reflexivity|].
  split; [exists []; reflexivity|].
  split; [exists [4%positive]; reflexivity|].
  split; [|split].
  - intros r Hr. apply elem_of_cons in Hr. destruct Hr as [->|Hr];
      [reflexivity|].
    apply list_elem_of_singleton in Hr. subst r. reflexivity.
  - intros r Hr. apply elem_of_nil in Hr. contradiction.
  - intros r (pool & Hpool & Hr).
    assert (Some pool = Some [4%positive]) as Heq
      by (rewrite <- Hpool; reflexivity).
    injection Heq as ->.
    apply list_elem_of_singleton in Hr. subst r. reflexivity.
Defined.



Example cleanup_example :
  exists s',
    GameEngine3D.cleanupEntities (host := example_host) example_engine
      = Ok (tt, s')
    /\ GameEngine3D.activeEnemies s' = [3%positive]
    /\ GameEngine3D.activeBullets s' = []
    /\ GameEngine3D.score s' == 1
    /\ GameEngine3D.enemiesActive s' = 1%Z
    /\ GameEngine3D.pools s' !! "enemies"%string = Some [2%positive]
    /\ GameEngine3D.pools s' !! "bullets"%string = Some [1%positive].
Proof.
  eexists. split; [vm_compute; reflexivity|].
  repeat split; vm_compute; reflexivity.
Qed.

Section IdleFacts.
Import GameEngine3D.
Context {host : Host}.

Lemma cleanupList_idle entities poolName s :
  (forall r, r ∈ entities -> destroyed (heap s r) = false) ->
  cleanupList entities poolName s = (entities, s).
Proof.
  induction entities as [|e l IH]; intros H; [reflexivity|].
  simpl. rewrite (H e) by (apply elem_of_cons; auto).
  rewrite IH; [reflexivity|].
  intros r Hr. apply H, elem_of_cons. auto.
Qed.

Lemma cleanupEnemies_idle enemies :
  forall remainingEnemies s,
    (forall r, r ∈ enemies -> destroyed (heap s r) = false) ->
    cleanupEnemies enemies remainingEnemies s
      = Ok (remainingEnemies ++ enemies, s).
Proof.
  induction enemies as [|e l IH]; intros acc s H.
  - simpl. rewrite app_nil_r. reflexivity.
  - rewrite cleanupEnemies_alive by (apply H, elem_of_cons; auto).
    rewrite IH.
    + unfold push. rewrite <- app_assoc. reflexivity.
    + intros r Hr. apply H, elem_of_cons. auto.
Qed.

(** A pass over active lists without destroyed entities changes
    nothing: no score, no pool, no scene, no call of [Math.random()]. *)
Lemma cleanupEntities_idle s :
  (forall r, r ∈ active s -> destroyed (heap s r) = false) ->
  cleanupEntities s = Ok (tt, s).
Proof.
  intros H.
  assert (forall r, r ∈ activeBullets s -> destroyed (heap s r) = false) as Hb.
  { intros r Hr. apply H. unfold active. rewrite !elem_of_app. auto. }
  assert (forall r, r ∈ activePowerUps s -> destroyed (heap s r) = false)
    as Hp.
  { intros r Hr. apply H. unfold active. rewrite !elem_of_app. auto. }
  assert (forall r, r ∈ activeEffects s -> destroyed (heap s r) = false)
    as Hf.
  { intros r Hr. apply H. unfold active. rewrite !elem_of_app. auto. }
  assert (forall r, r ∈ activeEnemies s -> destroyed (heap s r) = false)
    as He.
  { intros r Hr. apply H. unfold active. rewrite !elem_of_app. auto. }
  rewrite cleanupEntities_phases. cbv zeta.
  rewrite (cleanupList_idle (activeBullets s) _ s Hb). cbn [fst snd].
  assert (set_activeBullets (activeBullets s) s = s) as ->
    by (destruct s; reflexivity).
  rewrite (cleanupList_idle (activePowerUps s) _ s Hp). cbn [fst snd].
  assert (set_activePowerUps (activePowerUps s) s = s) as ->
    by (destruct s; reflexivity).
  rewrite (cleanupList_idle (activeEffects s) _ s Hf). cbn [fst snd].
  assert (set_activeEffects (activeEffects s) s = s) as ->
    by (destruct s; reflexivity).
  rewrite (cleanupEnemies_idle (activeEnemies s) [] s He). simpl.
  destruct s; reflexivity.
Qed.

(** What one pass has scored and pooled, the next pass leaves alone. *)
Lemma cleanupEntities_twice s s' :
  well_typed s -> cleanupEntities s = Ok (tt, s') ->
  cleanupEntities s' = Ok (tt, s').
Proof.
  intros Hwt Hrun.
  destruct (cleanupEntities_spec s Hwt) as (s'' & Hrun' & Halive & _).
  assert (s'' = s') as -> by congruence.
  apply cleanupEntities_idle, Halive.
Qed.

End IdleFacts.

(** C10.  [destroy()] on a bullet, enemy or power-up that is already
    destroyed returns at once and leaves the entity as it is; an entity
    is destroyed after [destroy()], so a second [destroy()] in a row
    changes nothing.  The engine scores and pools a destroyed enemy in
    the cleanup pass that finds it in [activeEnemies]; the next pass
    finds no destroyed entity and changes nothing, so the enemy is
    scored and pooled once. *)
Theorem destroy_idempotent {host : Host} :
  (forall b, Bullet._destroyed b = true -> Bullet.destroy b = b)
  /\ (forall e, Enemy._destroyed e = true -> Enemy.destroy e = e)
  /\ (forall p, PowerUp._destroyed p = true -> PowerUp.destroy p = p)
  /\ (forall b, Bullet.destroy (Bullet.destroy b) = Bullet.destroy b)
  /\ (forall e, Enemy.destroy (Enemy.destroy e) = Enemy.destroy e)
  /\ (forall p, PowerUp.destroy (PowerUp.destroy p) = PowerUp.destroy p)
  /\ (forall s s',
        GameEngine3D.well_typed s ->
        GameEngine3D.cleanupEntities s = Ok (tt, s') ->
        GameEngine3D.cleanupEntities s' = Ok (tt, s')).
Proof.
  assert (forall b, Bullet._destroyed b = true -> Bullet.destroy b = b) as Hb.
  { intros b H. unfold Bullet.destroy. rewrite H. reflexivity. }
  assert (forall e, Enemy._destroyed e = true -> Enemy.destroy e = e) as He.
  { intros e H. unfold Enemy.destroy. rewrite H. reflexivity. }
  assert (forall p, PowerUp._destroyed p = true -> PowerUp.destroy p = p)
    as Hp.
  { intros p H. unfold PowerUp.destroy. rewrite H. reflexivity. }
  split; [exact Hb|]. split; [exact He|]. split; [exact Hp|].
  split; [intros b; apply Hb, Bullet_destroy_destroyed|].
  split; [intros e; apply He, Enemy_destroy_destroyed|].
  split; [intros p; apply Hp, PowerUp_destroy_destroyed|].
  apply cleanupEntities_twice.
Qed.

(** C10 at a bullet, an enemy and a power-up that were destroyed, and
    at the example engine. *)
Lemma destroy_idempotent_witness :
  Bullet.destroy Bullet.new = Bullet.new
  /\ Enemy.destroy Enemy.new = Enemy.new
  /\ PowerUp.destroy (PowerUp.new (host := example_host) 0.5)
     = PowerUp.new (host := example_host) 0.5
  /\ exists s',
       GameEngine3D.cleanupEntities (host := example_host) example_engine
         = Ok (tt, s')
       /\ GameEngine3D.cleanupEntities (host := example_host) s'
          = Ok (tt, s').
Proof.
  destruct (destroy_idempotent (host := example_host))
    as (Hb & He & Hp & _ & _ & _ & Htwice).
  split; [apply Hb; reflexivity|].
  split; [apply He; reflexivity|].
  split; [apply Hp; reflexivity|].
  destruct (cleanupEntities_spec (host := example_host) example_engine
              example_engine_well_typed) as (s' & Hrun & _).
  exists s'. split; [exact Hrun|].
  exact (Htwice example_engine s' example_engine_well_typed Hrun).
Defined.

(** ** WeaponManager: cooldown, switching, ammunition and the registry *)

Section WeaponManagerMore.
Import WeaponManager.





End WeaponManagerMore.


Section WeaponManagerRegistry.
Import WeaponManager.

Lemma get_None_keys id ws : get id ws = None <-> id ∉ keys ws.
Proof.
  induction ws as [|[k w] ws IH]; simpl.
  - split; [intros _; apply not_elem_of_nil|reflexivity].
  - rewrite not_elem_of_cons. destruct (String.eqb k id) eqn:E.
    + apply String.eqb_eq in E. subst k. split; [discriminate|].
      intros [H _]. congruence.
    + apply String.eqb_neq in E. rewrite IH. split; [auto|tauto].
Qed.

Lemma has_keys id ws : has id ws = true <-> id ∈ keys ws.
Proof.
  unfold has. destruct (get id ws) eqn:E.
  - split; [|reflexivity]. intros _.
    destruct (decide (id ∈ keys ws)) as [H|H]; [exact H|].
    apply get_None_keys in H. congruence.
  - split; [discriminate|]. intros H. apply get_None_keys in E. contradiction.
Qed.

Lemma keys_modify id f ws : keys (modify id f ws) = keys ws.
Proof.
  induction ws as [|[k w] ws IH]; simpl; [reflexivity|].
  destruct (String.eqb k id); simpl; [reflexivity|]. f_equal. exact IH.
Qed.

Lemma get_modify_other id id' f ws :
  id' <> id -> get id' (modify id f ws) = get id' ws.
Proof.
  intros Hne. induction ws as [|[k w] ws IH]; simpl; [reflexivity|].
  destruct (String.eqb k id) eqn:E; simpl.
  - apply String.eqb_eq in E. subst k.
    assert (String.eqb id id' = false) as ->
      by (apply String.eqb_neq; congruence).
    reflexivity.
  - destruct (String.eqb k id'); [reflexivity|exact IH].
Qed.

Lemma registered_equipWeapon id m :
  registered m -> registered (snd (equipWeapon id m)).
Proof.
  intros [Hnd Heq]. unfold equipWeapon.
  destruct (negb (has id (weapons m)) || is_equipped m id) eqn:E;
    [split; assumption|].
  apply orb_false_iff in E as [Hhas _]. apply negb_false_iff in Hhas.
  split; [exact Hnd|]. simpl. intros id' [= <-]. apply has_keys, Hhas.
Qed.

Lemma registered_equip_at ids i m :
  registered m -> registered (equip_at ids i m).
Proof.
  intros H. unfold equip_at. destruct (at_index ids i); [|exact H].
  apply registered_equipWeapon, H.
Qed.

Lemma registered_addWeapon id config m :
  registered m -> registered (addWeapon id config m).
Proof.
  intros [Hnd Heq]. unfold addWeapon.
  destruct (get id (weapons m)) as [existing|] eqn:G.
  - destruct (negb (is_infinite (ammoCurrent existing))
              && ammo_gt0 (ammoMax config)); [|split; assumption].
    split; simpl; rewrite keys_modify; assumption.
  - assert (registered (mk (weapons m ++ [(id, config)]) (equippedWeaponId m)
                           (fireTimer m))) as H1.
    { split; simpl.
      - unfold keys. rewrite map_app. simpl. apply NoDup_app.
        split; [exact Hnd|]. split; [|apply NoDup_singleton].
        intros x Hx Hx'. apply list_elem_of_singleton in Hx'. subst x.
        apply get_None_keys in G. contradiction.
      - intros id' H. unfold keys. rewrite map_app. apply elem_of_app.
        left. apply Heq, H. }
    destruct (nothing_equipped _); [|exact H1].
    apply registered_equipWeapon, H1.
Qed.

Lemma registered_call c m : registered m -> registered (snd (call c m)).
Proof.
  intros H. destruct c; simpl.
  - destruct (canFire m) eqn:Hc.
    + destruct (proj1 (canFire_true_iff m) Hc) as (w & Hw & _).
      unfold currentWeapon in Hw.
      destruct (equippedWeaponId m) as [id|] eqn:E; [|discriminate].
      rewrite (fire_succeeds m _ _ id w Hc E Hw). simpl.
      destruct H as [Hnd Heq]. split; simpl; rewrite keys_modify;
        [exact Hnd|]. intros id' [= <-]. apply Heq, E.
    + rewrite (fire_fails m _ _ Hc). exact H.
  - unfold update. destruct (Qltb 0 (fireTimer m)); exact H.
  - apply registered_equipWeapon, H.
  - unfold switchToNextWeapon. destruct (length (weapons m) <=? 1)%nat;
      [exact H|]. apply registered_equip_at, H.
  - unfold switchToPreviousWeapon. destruct (length (weapons m) <=? 1)%nat;
      [exact H|]. apply registered_equip_at, H.
Qed.

End WeaponManagerRegistry.

Section WeaponManagerSwitch.
Import WeaponManager.

Lemma indexOf_from_nth ids :
  forall i k id,
    NoDup ids -> nth_error ids k = Some id ->
    indexOf_from i ids id = (i + Z.of_nat k)%Z.
Proof.
  induction ids as [|x ids IH]; intros i k id Hnd Hk.
  - destruct k; discriminate.
  - apply NoDup_cons in Hnd as [Hx Hnd]. simpl. destruct k as [|k]; simpl in Hk.
    + injection Hk as ->. rewrite String.eqb_refl. lia.
    + assert (String.eqb x id = false) as ->.
      { apply String.eqb_neq. intros ->. apply Hx.
        apply list_elem_of_In. eapply nth_error_In, Hk. }
      rewrite (IH (i + 1)%Z k id Hnd Hk). lia.
Qed.

Lemma elem_of_nth_error (ids : list string) id :
  id ∈ ids -> exists k, nth_error ids k = Some id /\ (k < length ids)%nat.
Proof.
  intros H. apply list_elem_of_In, In_nth_error in H as [k Hk].
  exists k. split; [exact Hk|]. apply nth_error_Some. congruence.
Qed.

Lemma at_index_nat ids k : at_index ids (Z.of_nat k) = nth_error ids k.
Proof.
  unfold at_index.
  assert ((Z.of_nat k <? 0)%Z = false) as -> by (apply Z.ltb_ge; lia).
  rewrite Nat2Z.id. reflexivity.
Qed.

Lemma nth_error_keys_has ws k id :
  nth_error (keys ws) k = Some id -> has id ws = true.
Proof.
  intros H. apply has_keys, list_elem_of_In. eapply nth_error_In, H.
Qed.

(** Equipping the identifier at index [j] of a well-formed registry
    whose equipped identifier is at another index. *)
Lemma equip_at_other m k j id id' :
  NoDup (keys (weapons m)) ->
  equippedWeaponId m = Some id ->
  nth_error (keys (weapons m)) k = Some id ->
  nth_error (keys (weapons m)) j = Some id' ->
  k <> j ->
  equip_at (keys (weapons m)) (Z.of_nat j) m = mk (weapons m) (Some id') 0
  /\ id' <> id.
Proof.
  intros Hnd He Hk Hj Hne.
  assert (id' <> id) as Hid.
  { intros ->. apply Hne.
    apply (proj1 (NoDup_nth_error (keys (weapons m)))) with (i := k) (j := j).
    - apply NoDup_ListNoDup, Hnd.
    - apply nth_error_Some. congruence.
    - congruence. }
  split; [|exact Hid].
  unfold equip_at. rewrite at_index_nat, Hj. unfold equipWeapon.
  rewrite (nth_error_keys_has _ _ _ Hj). unfold is_equipped. rewrite He.
  assert (String.eqb id id' = false) as ->
    by (apply String.eqb_neq; congruence).
  reflexivity.
Qed.

(** X2.  In a registry of at least two weapons whose identifiers are
    distinct (which [addWeapon] and all other calls keep),
    [switchToNextWeapon] equips another registered weapon, keeps the
    registry and clears the timer, and [switchToPreviousWeapon] after it
    equips the weapon that was equipped before; likewise the other way
    round. *)
Theorem switch_round_trip (m : t) (id : string) :
  registered m ->
  equippedWeaponId m = Some id ->
  (2 <= length (weapons m))%nat ->
  let next := switchToNextWeapon m in
  let prev := switchToPreviousWeapon m in
  (exists id', equippedWeaponId next = Some id' /\ id' <> id
               /\ id' ∈ keys (weapons m))
  /\ (exists id', equippedWeaponId prev = Some id' /\ id' <> id
                  /\ id' ∈ keys (weapons m))
  /\ weapons next = weapons m /\ fireTimer next = 0
  /\ weapons prev = weapons m /\ fireTimer prev = 0
  /\ switchToPreviousWeapon next = mk (weapons m) (Some id) 0
  /\ switchToNextWeapon prev = mk (weapons m) (Some id) 0.
Proof.
  intros [Hnd Hreg] He Hlen next prev.
  set (ids := keys (weapons m)).
  assert (length ids = length (weapons m)) as Hlenids
    by (unfold ids, keys; apply length_map).
  destruct (elem_of_nth_error ids id (Hreg id He)) as (k & Hk & Hklt).
  set (n := length (weapons m)) in *.
  assert ((n <=? 1)%nat = false) as Hbig by (apply Nat.leb_gt; lia).
  assert (indexOf ids (Some id) = Z.of_nat k) as Hidx.
  { simpl. rewrite (indexOf_from_nth ids 0 k id Hnd Hk). lia. }
  (* the next and the previous index *)
  set (jn := if decide (S k = n) then O else S k).
  set (jp := if decide (k = O) then (n - 1)%nat else (k - 1)%nat).
  assert (Z.rem (Z.of_nat k + 1) (Z.of_nat (length ids)) = Z.of_nat jn)
    as Hjn.
  { rewrite Hlenids. fold n. unfold jn. destruct (decide (S k = n)) as [E|E].
    - replace (Z.of_nat k + 1)%Z with (Z.of_nat n) by lia.
      apply Z.rem_same. lia.
    - rewrite Z.rem_small by lia. lia. }
  assert (Z.rem (Z.of_nat k - 1 + Z.of_nat (length ids))
                (Z.of_nat (length ids)) = Z.of_nat jp) as Hjp.
  { rewrite Hlenids. fold n. unfold jp. destruct (decide (k = O)) as [E|E].
    - subst k. rewrite Z.rem_small by lia. lia.
    - replace (Z.of_nat k - 1 + Z.of_nat n)%Z
        with (Z.of_nat (k - 1) + 1 * Z.of_nat n)%Z by lia.
      rewrite Z.rem_add by lia. rewrite Z.rem_small by lia. reflexivity. }
  assert (jn < length ids)%nat as Hjnlt
    by (unfold jn; destruct (decide (S k = n)); lia).
  assert (jp < length ids)%nat as Hjplt
    by (unfold jp; destruct (decide (k = O)); lia).
  assert (k <> jn) as Hkn by (unfold jn; destruct (decide (S k = n)); lia).
  assert (k <> jp) as Hkp by (unfold jp; destruct (decide (k = O)); lia).
  destruct (nth_error ids jn) as [idn|] eqn:Hn;
    [|apply nth_error_None in Hn; lia].
  destruct (nth_error ids jp) as [idp|] eqn:Hp;
    [|apply nth_error_None in Hp; lia].
  destruct (equip_at_other m k jn id idn Hnd He Hk Hn Hkn) as [Hnext Hidn].
  destruct (equip_at_other m k jp id idp Hnd He Hk Hp Hkp) as [Hprev Hidp].
  assert (next = mk (weapons m) (Some idn) 0) as Enext.
  { unfold next, switchToNextWeapon. fold n. rewrite Hbig. cbv zeta.
    fold ids. rewrite He, Hidx, Hjn. exact Hnext. }
  assert (prev = mk (weapons m) (Some idp) 0) as Eprev.
  { unfold prev, switchToPreviousWeapon. fold n. rewrite Hbig. cbv zeta.
    fold ids. rewrite He, Hidx, Hjp. exact Hprev. }
  assert (idn ∈ ids) as Hinn
    by (apply list_elem_of_In; eapply nth_error_In, Hn).
  assert (idp ∈ ids) as Hinp
    by (apply list_elem_of_In; eapply nth_error_In, Hp).
  split; [exists idn; rewrite Enext; auto|].
  split; [exists idp; rewrite Eprev; auto|].
  rewrite Enext, Eprev. repeat (split; [reflexivity|]).
  (* back again *)
  assert (Z.rem (Z.of_nat jn - 1 + Z.of_nat (length ids))
                (Z.of_nat (length ids)) = Z.of_nat k) as Hback.
  { rewrite Hlenids. fold n. unfold jn. destruct (decide (S k = n)) as [E|E].
    - rewrite Z.rem_small by lia. lia.
    - replace (Z.of_nat (S k) - 1 + Z.of_nat n)%Z
        with (Z.of_nat k + 1 * Z.of_nat n)%Z by lia.
      rewrite Z.rem_add by lia. rewrite Z.rem_small by lia. reflexivity. }
  assert (Z.rem (Z.of_nat jp + 1) (Z.of_nat (length ids)) = Z.of_nat k)
    as Hforth.
  { rewrite Hlenids. fold n. unfold jp. destruct (decide (k = O)) as [E|E].
    - subst k. replace (Z.of_nat (n - 1) + 1)%Z with (Z.of_nat n) by lia.
      apply Z.rem_same. lia.
    - rewrite Z.rem_small by lia. lia. }
  split.
  - unfold switchToPreviousWeapon. simpl. fold n. rewrite Hbig. fold ids.
    rewrite (indexOf_from_nth ids 0 jn idn Hnd Hn), Z.add_0_l, Hback.
    apply (equip_at_other (mk (weapons m) (Some idn) 0) jn k idn id);
      auto.
  - unfold switchToNextWeapon. simpl. fold n. rewrite Hbig. fold ids.
    rewrite (indexOf_from_nth ids 0 jp idp Hnd Hp), Z.add_0_l, Hforth.
    apply (equip_at_other (mk (weapons m) (Some idp) 0) jp k idp id);
      auto.
Qed.

End WeaponManagerSwitch.

Lemma new_registered : WeaponManager.registered WeaponManager.new.
Proof.
  split.
  - change (NoDup ["pistol"%string; "rifle"%string]).
    apply NoDup_cons. split; [|apply NoDup_singleton].
    intros H. apply list_elem_of_singleton in H. discriminate.
  - intros id [= <-]. change ("pistol"%string ∈ ["pistol"; "rifle"]%string).
    apply elem_of_cons. auto.
Defined.

(** At the default manager: the next weapon of the pistol is the
    rifle, and the previous weapon of the rifle is the pistol again. *)
Lemma switch_round_trip_witness :
  WeaponManager.equippedWeaponId
    (WeaponManager.switchToPreviousWeapon
       (WeaponManager.switchToNextWeapon WeaponManager.new))
  = Some "pistol"%string.
Proof.
  destruct (switch_round_trip WeaponManager.new "pistol" new_registered
              eq_refl (le_n 2)) as (_ & _ & _ & _ & _ & _ & H & _).
  rewrite H. reflexivity.
Defined.

Section WeaponManagerAmmo.
Import WeaponManager.

Lemma rounds_consume id ws w :
  get id ws = Some w ->
  rounds (modify id consume ws)
  = (if is_infinite (ammoCurrent w) then rounds ws else rounds ws - 1)%Z.
Proof.
  induction ws as [|[k v] ws IH]; simpl; [discriminate|].
  destruct (String.eqb k id) eqn:E; simpl.
  - intros [= ->]. unfold consume.
    destruct (ammoCurrent w) as [n|] eqn:Ea; simpl; rewrite ?Ea; lia.
  - intros G. rewrite (IH G).
    destruct (ammoCurrent v); destruct (is_infinite (ammoCurrent w)); lia.
Qed.

Lemma all_finite_consume id ws :
  Forall (fun kw => is_infinite (ammoCurrent (snd kw)) = false) ws ->
  Forall (fun kw => is_infinite (ammoCurrent (snd kw)) = false)
         (modify id consume ws).
Proof.
  induction 1 as [|[k v] ws Hv Hws IH]; simpl; [constructor|].
  destruct (String.eqb k id).
  - constructor; [|exact Hws]. simpl in *. unfold consume. rewrite Hv. simpl.
    destruct (ammoCurrent v); [reflexivity|discriminate].
  - constructor; [exact Hv|exact IH].
Qed.

Lemma get_all_finite id ws w :
  Forall (fun kw => is_infinite (ammoCurrent (snd kw)) = false) ws ->
  get id ws = Some w -> is_infinite (ammoCurrent w) = false.
Proof.
  induction 1 as [|[k v] ws Hv _ IH]; simpl; [discriminate|].
  destruct (String.eqb k id); [intros [= <-]; exact Hv|exact IH].
Qed.

(** One call: the weapons afterwards. *)
Lemma call_weapons c m :
  weapons (snd (call c m)) = weapons m
  \/ exists id w, fst (call c m) = true /\ get id (weapons m) = Some w
                  /\ weapons (snd (call c m)) = modify id consume (weapons m).
Proof.
  destruct c; simpl.
  - destruct (canFire m) eqn:Hc.
    + destruct (proj1 (canFire_true_iff m) Hc) as (w & Hw & _).
      unfold currentWeapon in Hw.
      destruct (equippedWeaponId m) as [id|] eqn:E; [|discriminate].
      rewrite (fire_succeeds m _ _ id w Hc E Hw). right. exists id, w. auto.
    + rewrite (fire_fails m _ _ Hc). auto.
  - left. unfold update. destruct (Qltb 0 (fireTimer m)); reflexivity.
  - left. apply equipWeapon_weapons.
  - left. unfold switchToNextWeapon.
    destruct (length (weapons m) <=? 1)%nat; [reflexivity|].
    apply equip_at_weapons.
  - left. unfold switchToPreviousWeapon.
    destruct (length (weapons m) <=? 1)%nat; [reflexivity|].
    apply equip_at_weapons.
Qed.

Lemma call_fired_weapons c m :
  fst (call c m) = false -> weapons (snd (call c m)) = weapons m.
Proof.
  intros H. destruct (call_weapons c m) as [Hw|(id & w & Hf & _)];
    [exact Hw|congruence].
Qed.

(** X3.  Ammunition is conserved.  Over every sequence of [fire()],
    [update(dt)], [equipWeapon(id)] and switch calls the identifiers of
    the registry stay as they are and the rounds of the finite supplies
    go down by at most the number of shots fired, never up; when every
    weapon has a finite supply they go down by exactly that number. *)
Theorem ammo_conserved (cs : list Call) (m : t) :
  let shots := Z.of_nat (fst (calls cs m)) in
  let m' := snd (calls cs m) in
  keys (weapons m') = keys (weapons m)
  /\ (totalRounds m - shots <= totalRounds m' <= totalRounds m)%Z
  /\ (all_finite m ->
      all_finite m' /\ totalRounds m' = (totalRounds m - shots)%Z).
Proof.
  revert m. induction cs as [|c cs IH]; intros m; simpl.
  - unfold totalRounds. split; [reflexivity|]. split; [lia|].
    intros H. split; [exact H|lia].
  - specialize (IH (snd (call c m))).
    destruct (call c m) as [fired m1] eqn:Ec. simpl in IH.
    destruct (calls cs m1) as [n m2] eqn:Ecs. simpl in IH. simpl.
    destruct IH as (Hk & Hbounds & Hfin).
    pose proof (call_weapons c m) as Hw. rewrite Ec in Hw. simpl in Hw.
    unfold totalRounds, all_finite in *.
    destruct Hw as [Hw|(id & w & Hf & G & Hw)].
    + rewrite Hw in *. split; [exact Hk|].
      split; [destruct fired; lia|].
      intros H. destruct (Hfin H) as [H1 H2]. split; [exact H1|].
      destruct fired; [|lia].
      (* a shot that changes no weapon is one of an infinite supply *)
      exfalso. clear - Ec Hw H.
      destruct c; simpl in Ec; try discriminate Ec.
      destruct (canFire m) eqn:Hc.
      * destruct (proj1 (canFire_true_iff m) Hc) as (w & Hcw & _).
        unfold currentWeapon in Hcw.
        destruct (equippedWeaponId m) as [id|] eqn:E; [|discriminate].
        rewrite (fire_succeeds m _ _ id w Hc E Hcw) in Ec.
        injection Ec as <-. simpl in Hw.
        pose proof (rounds_consume id (weapons m) w Hcw) as Hr.
        rewrite Hw, (get_all_finite id _ w H Hcw) in Hr. lia.
      * rewrite (fire_fails m _ _ Hc) in Ec. discriminate Ec.
    + subst fired. rewrite Hw in *. rewrite keys_modify in Hk.
      pose proof (rounds_consume id (weapons m) w G) as Hr.
      split; [exact Hk|].
      split; [destruct (is_infinite (ammoCurrent w)); lia|].
      intros H. destruct (Hfin (all_finite_consume id _ H)) as [H1 H2].
      split; [exact H1|].
      rewrite (get_all_finite id _ w H G) in Hr. lia.
Qed.

(** X4.  [addWeapon] for an identifier that is registered adds the
    rounds picked up to a finite supply, up to the maximum of the
    weapon; it changes nothing else: not the identifiers, the other
    weapons, the weapon equipped or the timer, and no weapon with an
    infinite supply. *)
Theorem addWeapon_pickup (id : string) (config existing : Weapon) (m : t) :
  get id (weapons m) = Some existing ->
  let m' := addWeapon id config m in
  keys (weapons m') = keys (weapons m)
  /\ equippedWeaponId m' = equippedWeaponId m
  /\ fireTimer m' = fireTimer m
  /\ (forall id', id' <> id -> get id' (weapons m') = get id' (weapons m))
  /\ exists w',
       get id (weapons m') = Some w'
       /\ set_ammoCurrent (ammoCurrent existing) w' = existing
       /\ (is_infinite (ammoCurrent existing) = true ->
           ammoCurrent w' = InfiniteAmmo)
       /\ (forall n, ammoCurrent existing = Rounds n ->
           ammo_gt0 (ammoMax config) = true ->
           ammoCurrent w'
           = ammo_min (ammoMax existing)
               (ammo_add (Rounds n) (ammoCurrent config))
           /\ ammo_leq (ammoCurrent w') (ammoMax existing))
       /\ (ammo_gt0 (ammoMax config) = false -> w' = existing).
Proof.
  intros G m'. unfold m', addWeapon. rewrite G.
  assert (set_ammoCurrent (ammoCurrent existing) existing = existing) as Hid
    by (destruct existing; reflexivity).
  destruct (ammoCurrent existing) as [n|] eqn:Ea; simpl.
  - destruct (ammo_gt0 (ammoMax config)) eqn:Hmax; simpl.
    + rewrite keys_modify. repeat (split; [reflexivity|]).
      split; [intros id' Hne; apply get_modify_other, Hne|].
      eexists. split; [apply get_modify_same, G|].
      split; [unfold set_ammoCurrent in *; simpl; exact Hid|].
      split; [discriminate|]. split; [|discriminate].
      intros n' [= <-] _. split; [reflexivity|].
      simpl. destruct (ammoMax existing) as [mx|];
        destruct (ammoCurrent config) as [c|]; simpl; try lia; exact I.
    + repeat (split; [reflexivity|]).
      exists existing. split; [exact G|]. rewrite Ea.
      split; [exact Hid|]. split; [discriminate|].
      split; [discriminate|reflexivity].
  - repeat (split; [reflexivity|]).
    exists existing. split; [exact G|]. rewrite Ea.
    split; [exact Hid|]. split; [intros _; reflexivity|].
    split; [discriminate|reflexivity].
Qed.

End WeaponManagerAmmo.

(** At a manager that holds only the rifle: two shots in a row leave
    148 of its 150 rounds. *)
Lemma ammo_conserved_witness :
  let m := WeaponManager.addWeapon "rifle" WeaponManager.rifle
             (WeaponManager.mk [] None 0) in
  let cs := [WeaponManager.Fire v3_zero v3_zero; WeaponManager.Update 0.1;
             WeaponManager.Fire v3_zero v3_zero] in
  WeaponManager.totalRounds (snd (WeaponManager.calls cs m))
  = (150 - Z.of_nat (fst (WeaponManager.calls cs m)))%Z.
Proof.
  intros m cs.
  destruct (ammo_conserved cs m) as (_ & _ & H).
  destruct H as [_ H]; [|exact H].
  repeat constructor.
Defined.

(** At the default manager after two shots of the rifle: a pick-up of
    the rifle fills its supply up to the maximum of 150. *)
Lemma addWeapon_pickup_witness :
  let m0 := snd (WeaponManager.equipWeapon "rifle" WeaponManager.new) in
  let m :=
    snd (WeaponManager.calls
           [WeaponManager.Fire v3_zero v3_zero; WeaponManager.Update 0.1;
            WeaponManager.Fire v3_zero v3_zero] m0) in
  WeaponManager.getCurrentAmmo m = WeaponManager.Rounds 148
  /\ exists w',
       WeaponManager.get "rifle"
         (WeaponManager.weapons
            (WeaponManager.addWeapon "rifle" WeaponManager.rifle m))
       = Some w'
       /\ WeaponManager.ammoCurrent w' = WeaponManager.Rounds 150.
Proof.
  intros m0 m. split; [reflexivity|].
  destruct (addWeapon_pickup "rifle" WeaponManager.rifle
              (WeaponManager.set_ammoCurrent (WeaponManager.Rounds 148)
                 WeaponManager.rifle) m eq_refl)
    as (_ & _ & _ & _ & w' & Hw' & _ & _ & Hfin & _).
  destruct (Hfin 148%Z eq_refl eq_refl) as [Ha _].
  exists w'. split; [exact Hw'|]. rewrite Ha. reflexivity.
Defined.

Section WeaponManagerInvariant.
Import WeaponManager.

Lemma registered_calls cs : forall m, registered m -> registered (snd (calls cs m)).
Proof.
  induction cs as [|c cs IH]; intros m H; [exact H|].
  simpl. pose proof (registered_call c m H) as H1.
  destruct (call c m) as [fired m1]. simpl in H1.
  specialize (IH m1 H1). destruct (calls cs m1). exact IH.
Qed.

(** X5.  The registry stays well formed: when no identifier is
    registered twice and the equipped identifier is registered, the same
    holds after [addWeapon] and after every sequence of [fire()],
    [update(dt)], [equipWeapon(id)] and switch calls; so the weapon
    equipped is always a weapon of the registry. *)
Theorem registry_kept (m : t) :
  registered m ->
  (forall id config, registered (addWeapon id config m))
  /\ (forall cs, registered (snd (calls cs m)))
  /\ (forall cs id,
        equippedWeaponId (snd (calls cs m)) = Some id ->
        exists w, currentWeapon (snd (calls cs m)) = Some w).
Proof.
  intros H. split; [intros; apply registered_addWeapon, H|].
  split; [intros; apply registered_calls, H|].
  intros cs id He.
  destruct (registered_calls cs m H) as [_ Hreg].
  specialize (Hreg id He). apply has_keys in Hreg.
  unfold currentWeapon. rewrite He. unfold has in Hreg.
  destruct (get id (weapons (snd (calls cs m)))) as [w|];
    [eauto|discriminate].
Qed.

End WeaponManagerInvariant.

(** At the default manager, which the constructor builds from the
    empty registry by [addWeapon]. *)
Lemma registry_kept_witness :
  WeaponManager.registered
    (WeaponManager.addWeapon "rifle" WeaponManager.rifle WeaponManager.new)
  /\ WeaponManager.registered
       (snd (WeaponManager.calls
               [WeaponManager.SwitchNext; WeaponManager.Fire v3_zero v3_zero]
               WeaponManager.new)).
Proof.
  destruct (registry_kept WeaponManager.new new_registered) as (Ha & Hc & _).
  split; [apply Ha|apply Hc].
Defined.

(** ** Player: damage *)

Section PlayerMore.
Import Player.






End PlayerMore.


(** ** Enemy: the state machine over frames *)

Section EnemyMore.
Import Enemy.
Context {host : Host}.

Lemma updateTimers_fields dt e :
  currentState (updateTimers dt e) = currentState e
  /\ stateTimer (updateTimers dt e) = stateTimer e
  /\ _destroyed (updateTimers dt e) = _destroyed e
  /\ position (updateTimers dt e) = position e
  /\ health (updateTimers dt e) = health e
  /\ config (updateTimers dt e) = config e
  /\ canShoot (updateTimers dt e) = canShoot e.
Proof. unfold updateTimers. destruct (isInvincible e); repeat split. Qed.

Lemma destroy_fields e :
  _destroyed e = false ->
  _destroyed (destroy e) = true /\ currentState (destroy e) = INACTIVE
  /\ position (destroy e) = position e /\ health (destroy e) = health e
  /\ config (destroy e) = config e.
Proof.
  intros H. unfold destroy. rewrite H. unfold setState. simpl.
  destruct (currentState e) eqn:E; simpl; rewrite ?E; repeat split.
Qed.






Ltac fin :=
  repeat split; try reflexivity; try assumption; try discriminate;
  try (left; reflexivity).

(** What one frame of [update] does to an enemy that is not destroyed,
    whatever it yields. *)
Lemma update_cases dt rnd player e e' shots :
  update dt rnd player e = Ok (e', shots) ->
  fsm_edge (live player) (currentState e) (currentState e') = true
  /\ config e' = config e
  /\ (live player = false -> shots = [] /\ position e' = position e)
  /\ (shots = [] \/
      exists pv cfg sb,
        player = Some pv /\ pv_destroyed pv = false
        /\ currentState e = ATTACKING /\ canShoot e = true
        /\ config e = Some cfg /\ shots = [sb]
        /\ sb_isPlayerBullet sb = false
        /\ sb_damage sb = or_default (cfg_attack cfg) 5).
Proof.
  unfold update.
  destruct (_destroyed e) eqn:Hd; simpl.
  { intros [= <- <-]. destruct (currentState e), (live player); simpl; fin. }
  destruct (state_eqb (currentState e) INACTIVE) eqn:Hin.
  { intros [= <- <-]. apply state_eqb_eq in Hin. rewrite Hin.
    destruct (live player); simpl; fin. }
  destruct (updateTimers_fields dt e) as (Hs & _ & Hd' & Hp & _ & Hc & Hcs).
  set (e1 := updateTimers dt e) in *. clearbody e1.
  rewrite <- Hs, <- Hc, <- Hp, <- Hcs. rewrite <- Hs in Hin.
  rewrite Hd in Hd'. clear Hs Hc Hp Hcs Hd e.
  unfold updateFSM, live.
  destruct player as [pv|]; simpl.
  - destruct (pv_destroyed pv) eqn:Hpv; simpl.
    + (* a destroyed player *)
      destruct (currentState e1) eqn:Hst; simpl in *; try discriminate;
        unfold setState; rewrite Hst; simpl;
        repeat match goal with
               | |- context [Qleb ?a ?b] => destruct (Qleb a b)
               end; simpl; rewrite ?Hd'; simpl;
        intros [= <- <-]; simpl; rewrite ?Hst;
        try match goal with
            | |- context [destroy ?x] =>
                destruct (destroy_fields x Hd') as (_ & Hx2 & Hx3 & _ & Hx5);
                rewrite ?Hx2, ?Hx3, ?Hx5
            end; simpl; fin.
    + (* a live player *)
      unfold updateFSM_target, stateLogic, transitions, shoot. simpl.
      rewrite Hpv, Hd'. simpl.
      destruct (currentState e1) eqn:Hst; simpl in *; try discriminate.
      * destruct (Qleb (stateTimer e1 - dt) 0); simpl; rewrite Hst; simpl;
          match goal with
          | |- context [le_square ?a ?b] => destruct (le_square a b)
          end; intros [= <- <-]; unfold setState; simpl; rewrite ?Hst;
          simpl; fin.
      * rewrite Hst. simpl.
        repeat match goal with
               | |- context [le_square ?a ?b] => destruct (le_square a b)
               end; simpl; intros [= <- <-]; unfold setState; simpl;
          rewrite ?Hst; simpl;
          repeat match goal with
                 | |- context [if ?c then _ else _] => destruct c
                 end; simpl; fin.
      * destruct (canShoot e1) eqn:Hcan; simpl.
        -- destruct (ext_le0 (ext_sub (shootTimer e1) dt)); simpl.
           ++ destruct (config e1) as [cfg|] eqn:Hcfg; simpl;
                [|discriminate]. rewrite Hst. simpl.
              match goal with
              | |- context [le_square ?a ?b] => destruct (le_square a b)
              end; simpl; intros [= <- <-]; unfold setState; simpl;
                rewrite ?Hst, ?Hcan; simpl;
                (split; [reflexivity|]); (split; [assumption|]);
                (split; [discriminate|]); right;
                exists pv, cfg; eexists; repeat split;
                try reflexivity; assumption.
           ++ rewrite Hst. simpl.
              match goal with
              | |- context [le_square ?a ?b] => destruct (le_square a b)
              end; simpl; intros [= <- <-]; unfold setState; simpl;
                rewrite ?Hst, ?Hcan; simpl; fin.
        -- rewrite Hst. simpl.
           match goal with
           | |- context [le_square ?a ?b] => destruct (le_square a b)
           end; simpl; intros [= <- <-]; unfold setState; simpl;
             rewrite ?Hst, ?Hcan; simpl; fin.
      * rewrite ?Hst. simpl. intros [= <- <-].
        unfold set_stateTimer, set_fsm. simpl. rewrite ?Hst. fin.
      * destruct (Qleb (stateTimer e1 - dt) 0); simpl.
        -- destruct (destroy_fields (set_stateTimer (stateTimer e1 - dt) e1)
                       Hd') as (_ & Hx2 & _ & _ & Hx5).
           rewrite Hx2. simpl. intros [= <- <-]. rewrite Hx2, Hx5. fin.
        -- rewrite ?Hst. simpl. intros [= <- <-].
           unfold set_stateTimer, set_fsm. simpl. rewrite ?Hst. fin.
  - (* no player *)
    destruct (currentState e1) eqn:Hst; simpl in *; try discriminate;
      unfold setState; rewrite Hst; simpl;
      repeat match goal with
             | |- context [Qleb ?a ?b] => destruct (Qleb a b)
             end; simpl; rewrite ?Hd'; simpl;
      intros [= <- <-]; simpl; rewrite ?Hst;
      try match goal with
          | |- context [destroy ?x] =>
              destruct (destroy_fields x Hd') as (_ & Hx2 & Hx3 & _ & Hx5);
              rewrite ?Hx2, ?Hx3, ?Hx5
          end; simpl; fin.
Qed.

(** Without a live player [update] yields a result, and an enemy
    that is neither Dying nor Inactive is Idle afterwards. *)
Lemma update_without_player dt rnd player e :
  live player = false ->
  exists e',
    update dt rnd player e = Ok (e', [])
    /\ (_destroyed e = false ->
        currentState e <> DYING -> currentState e <> INACTIVE ->
        currentState e' = IDLE).
Proof.
  intros Hlive. unfold update.
  destruct (_destroyed e) eqn:Hd; simpl;
    [exists e; split; [reflexivity|discriminate]|].
  destruct (state_eqb (currentState e) INACTIVE) eqn:Hin.
  { apply state_eqb_eq in Hin. exists e. split; [reflexivity|]. congruence. }
  unfold updateFSM. unfold live in Hlive. rewrite Hlive.
  destruct (updateTimers_fields dt e) as (Hs & _).
  set (e1 := updateTimers dt e) in *. clearbody e1. rewrite <- Hs.
  destruct (currentState e1) eqn:Hst; simpl; unfold setState;
    rewrite ?Hst; simpl;
    repeat match goal with
           | |- context [Qleb ?a ?b] => destruct (Qleb a b)
           end; simpl; eexists; (split; [reflexivity|]); simpl;
    intros; congruence.
Qed.

(** An enemy that has been reset has a configuration, and [update]
    yields a result for it. *)
Lemma update_configured dt rnd player e :
  config e <> None -> exists e' shots, update dt rnd player e = Ok (e', shots).
Proof.
  intros Hcfg.
  destruct (live player) eqn:Hlive;
    [|destruct (update_without_player dt rnd player e Hlive) as (e' & H & _);
      eauto].
  unfold update.
  destruct (_destroyed e) eqn:Hd; simpl; [eauto|].
  destruct (state_eqb (currentState e) INACTIVE) eqn:Hin; [eauto|].
  destruct (updateTimers_fields dt e) as (Hs & _ & Hd' & _ & _ & Hc & _).
  set (e1 := updateTimers dt e) in *. clearbody e1.
  rewrite <- Hc in Hcfg. rewrite Hd in Hd'.
  unfold updateFSM. unfold live in Hlive. rewrite Hlive.
  destruct player as [pv|]; [|discriminate].
  apply negb_true_iff in Hlive.
  unfold updateFSM_target, stateLogic, shoot. simpl. rewrite Hlive, Hd'.
  simpl. destruct (config e1) as [cfg|] eqn:Hcfg1; [|congruence].
  destruct (currentState e1); simpl;
    repeat match goal with
           | |- context [if ?c then _ else _] => destruct c
           end; simpl; eauto.
Qed.

(** X8.  The moves of the state machine.  Within one [update] an
    enemy goes from Idle to Chasing, from Chasing to Attacking or Idle
    and from Attacking to Chasing when there is a live player; from
    Chasing, Attacking and Fleeing to Idle when there is none; from
    Dying to Inactive; or keeps its state.  So [update] never makes an
    enemy Dying or Fleeing, never lets it go from Idle to Attacking at
    once, never takes it out of Dying other than to Inactive, and leaves
    an Inactive enemy as it is. *)
Theorem enemy_fsm_moves (dt rnd : Q) (player : option PlayerView)
  (e e' : t) (shots : list SpawnBullet) :
  update dt rnd player e = Ok (e', shots) ->
  fsm_edge (live player) (currentState e) (currentState e') = true
  /\ (currentState e' = DYING -> currentState e = DYING)
  /\ (currentState e' = FLEEING -> currentState e = FLEEING)
  /\ (currentState e' = ATTACKING ->
      currentState e = ATTACKING \/ currentState e = CHASING)
  /\ (currentState e = DYING ->
      currentState e' = DYING \/ currentState e' = INACTIVE)
  /\ (currentState e = INACTIVE -> e' = e).
Proof.
  intros Hrun. destruct (update_cases dt rnd player e e' shots Hrun)
    as (Hedge & _).
  split; [exact Hedge|].
  assert (currentState e = INACTIVE -> e' = e) as Hin.
  { intros H. unfold update in Hrun. rewrite H in Hrun.
    rewrite orb_true_r in Hrun. congruence. }
  destruct (live player), (currentState e), (currentState e');
    simpl in Hedge; try discriminate; repeat split; intros; auto;
    discriminate.
Qed.

(** X9.  Only an attacking shooter fires.  [update] asks the engine for
    at most one bullet, and only for an enemy that is Attacking and can
    shoot while there is a live player; the bullet is an enemy bullet
    whose damage is the [attack] of the configuration, or 5 when it has
    none.  For an enemy that has been reset [update] always yields a
    result. *)
Theorem enemy_shoots_when_attacking (dt rnd : Q)
  (player : option PlayerView) (e : t) :
  (forall e' shots,
     update dt rnd player e = Ok (e', shots) ->
     (length shots <= 1)%nat
     /\ (shots <> [] ->
         live player = true /\ currentState e = ATTACKING
         /\ canShoot e = true)
     /\ forall sb, sb ∈ shots ->
          sb_isPlayerBullet sb = false
          /\ exists cfg, config e = Some cfg
                         /\ sb_damage sb = or_default (cfg_attack cfg) 5)
  /\ (config e <> None ->
      exists e' shots, update dt rnd player e = Ok (e', shots)).
Proof.
  split; [|apply update_configured].
  intros e' shots Hrun.
  destruct (update_cases dt rnd player e e' shots Hrun)
    as (_ & _ & _ & [->|(pv & cfg & sb & -> & Hpv & Hst & Hcan & Hcfg & ->
                         & Hsb1 & Hsb2)]).
  - split; [simpl; lia|]. split; [congruence|].
    intros sb H. apply elem_of_nil in H. contradiction.
  - split; [simpl; lia|]. split.
    + intros _. unfold live. rewrite Hpv. auto.
    + intros sb' H. apply list_elem_of_singleton in H. subst sb'.
      split; [exact Hsb1|]. exists cfg. auto.
Qed.

(** X10.  Without a live player ([engine.player] missing or destroyed)
    [update] yields a result, fires nothing and does not move the
    enemy; an enemy that is Chasing, Attacking or Fleeing falls back to
    Idle, and an Idle one stays Idle. *)
Theorem enemy_without_player (dt rnd : Q) (player : option PlayerView)
  (e : t) :
  live player = false ->
  exists e',
    update dt rnd player e = Ok (e', [])
    /\ position e' = position e
    /\ (_destroyed e = false ->
        currentState e = CHASING \/ currentState e = ATTACKING
        \/ currentState e = FLEEING \/ currentState e = IDLE ->
        currentState e' = IDLE).
Proof.
  intros Hlive.
  destruct (update_without_player dt rnd player e Hlive)
    as (e' & Hrun & Hidle).
  exists e'. split; [exact Hrun|].
  destruct (update_cases dt rnd player e e' [] Hrun)
    as (_ & _ & Hpos & _).
  split; [apply Hpos, Hlive|].
  intros Hd Hst. apply Hidle; [exact Hd| |];
    destruct Hst as [Hst|[Hst|[Hst|Hst]]]; congruence.
Qed.

End EnemyMore.


(** At the basic enemy, idle and 5 units from a live player: the frame
    makes it Chasing, which is a move of the state machine. *)
Lemma enemy_fsm_moves_witness :
  let pv := Enemy.mkPlayerView false v3_zero 1.8 in
  exists e',
    Enemy.update (host := example_host) 0.016 0.5 (Some pv) example_enemy
    = Ok (e', [])
    /\ Enemy.fsm_edge true Enemy.IDLE (Enemy.currentState e') = true.
Proof.
  intros pv.
  assert (exists e',
            Enemy.update (host := example_host) 0.016 0.5 (Some pv)
              example_enemy = Ok (e', [])) as [e' Hrun]
    by (eexists; vm_compute; reflexivity).
  exists e'. split; [exact Hrun|].
  exact (proj1 (enemy_fsm_moves (host := example_host) 0.016 0.5 (Some pv)
                  example_enemy e' [] Hrun)).
Defined.

(** At the basic enemy without a player. *)
Lemma enemy_without_player_witness :
  exists e',
    Enemy.update (host := example_host) 0.016 0.5 None example_enemy
    = Ok (e', [])
    /\ Enemy.position e' = Enemy.position example_enemy.
Proof.
  destruct (enemy_without_player (host := example_host) 0.016 0.5 None
              example_enemy eq_refl) as (e' & Hrun & Hpos & _).
  exists e'. split; [exact Hrun|exact Hpos].
Defined.

(** ** Bullet: the flight over frames *)

Section BulletMore.
Import Bullet.






End BulletMore.


(** ** GameEngine3D: waves, pausing and the end of the game *)

Section WaveMore.
Import GameEngine3D.

Lemma calculateEnemiesForWave_closed wave :
  calculateEnemiesForWave wave = (5 + wave + wave / 2)%Z.
Proof.
  unfold calculateEnemiesForWave, Qfloor. simpl.
  change (Z.pos (1 * 10)) with 10%Z.
  change (Z.pos (1 * (1 * 10))) with 10%Z.
  symmetry. apply Z.div_unique with (r := (5 * (wave mod 2))%Z).
  - left. pose proof (Z.mod_pos_bound wave 2). lia.
  - pose proof (Z.div_mod wave 2). lia.
Qed.

(** X12.  The size of a wave.  [calculateEnemiesForWave(wave)] is
    [5 + wave + floor(wave / 2)], so every wave is larger than the one
    before.  [startNextWave] moves to the next wave in state Playing
    with that many enemies to spawn, sets the counter of active enemies
    to 0 and starts one more spawn timer, whose interval is
    [1500 - 50 * wave] ms but at least 200 ms; it leaves the entities,
    the pools, the scene and the score as they are. *)
Theorem wave_size (s : t) (wave wave' : Z) :
  calculateEnemiesForWave wave = (5 + wave + wave / 2)%Z
  /\ ((wave < wave')%Z ->
      (calculateEnemiesForWave wave < calculateEnemiesForWave wave')%Z)
  /\ (let s' := startNextWave s in
      let next := (currentWave s + 1)%Z in
      gameState s' = PLAYING /\ currentWave s' = next
      /\ enemiesToSpawn s' = calculateEnemiesForWave next
      /\ enemiesRemainingInWave s' = calculateEnemiesForWave next
      /\ enemiesActive s' = 0%Z
      /\ score s' = score s /\ same_world s s'
      /\ exists interval,
           spawnTimers s' = spawnTimers s ++ [mkSpawnTimer interval 0 false]
           /\ 200 <= interval /\ 1500 - 50 * inject_Z next <= interval
           /\ (interval == 200 \/ interval == 1500 - 50 * inject_Z next)).
Proof.
  split; [apply calculateEnemiesForWave_closed|]. split.
  - intros H. rewrite !calculateEnemiesForWave_closed.
    assert (wave / 2 <= wave' / 2)%Z by (apply Z.div_le_mono; lia). lia.
  - simpl. repeat (split; [reflexivity|]).
    split; [repeat split|].
    eexists. split; [reflexivity|]. split; [apply Q.le_max_l|].
    split.
    + eapply Qle_trans; [|apply Q.le_max_r]. lra.
    + destruct (Q.max_spec 200 (1500 - inject_Z (currentWave s + 1) * 50))
        as [[_ H]|[_ H]]; rewrite H; [right; ring|left; reflexivity].
Qed.




End WaveMore.

(** ** GameEngine3D: a new game and the wave transition *)

Section ResetFacts.
Import GameEngine3D.

Lemma pool_includes_in_pool q r s :
  pool_includes q r s = true <-> in_pool q r s.
Proof.
  unfold pool_includes, in_pool. destruct (pools s !! q) as [pool|].
  - rewrite bool_decide_eq_true. split; [eauto|].
    intros (pool' & [= <-] & H). exact H.
  - split; [discriminate|]. intros (pool' & [=] & _).
Qed.

(** What the loop of [resetGame] does for one entity: its mesh leaves
    the scene, which gains nothing; the pools keep their members and
    gain none; meshes stay. *)
Lemma resetEntity_spec e s :
  let s' := resetEntity e s in
  invisible e s'
  /\ (forall r, r ∈ scene s' -> r ∈ scene s)
  /\ (forall q r, in_pool q r s' <-> in_pool q r s)
  /\ (forall r, has_mesh (heap s' r) = has_mesh (heap s r)).
Proof.
  assert (forall pn,
            pool_includes pn e (scene_remove e s) = true ->
            let s' := returnObjectToPool (Some e) pn (scene_remove e s) in
            invisible e s'
            /\ (forall r, r ∈ scene s' -> r ∈ scene s)
            /\ (forall q r, in_pool q r s' <-> in_pool q r s)
            /\ (forall r, has_mesh (heap s' r) = has_mesh (heap s r)))
    as Hret.
  { intros pn Hinc s'. subst s'.
    apply pool_includes_in_pool in Hinc.
    destruct (scene_remove_fields e s) as (Hh & Hp & _).
    split; [|split; [|split]].
    - intros Hm Hin. apply returnObjectToPool_sub in Hin.
      apply (scene_remove_gone e s); [|exact Hin].
      rewrite returnObjectToPool_heap, heap_set_same,
        has_mesh_set_destroyed in Hm. exact Hm.
    - intros r Hr. eapply scene_remove_sub, returnObjectToPool_sub, Hr.
    - intros q r. rewrite returnObjectToPool_in_pool.
      unfold in_pool. rewrite Hp. split; [|auto].
      intros [H|(-> & -> & _)]; [exact H|].
      unfold in_pool in Hinc. rewrite Hp in Hinc. exact Hinc.
    - intros r. rewrite returnObjectToPool_heap, Hh.
      unfold heap_set. destruct (Pos.eqb r e) eqn:E; [|reflexivity].
      apply Pos.eqb_eq in E. subst r. apply has_mesh_set_destroyed. }
  unfold resetEntity.
  destruct (pool_includes "bullets" e (scene_remove e s)) eqn:E1;
    [apply Hret, E1|].
  destruct (pool_includes "enemies" e (scene_remove e s)) eqn:E2;
    [apply Hret, E2|].
  destruct (pool_includes "powerUps" e (scene_remove e s)) eqn:E3;
    [apply Hret, E3|].
  destruct (scene_remove_fields e s) as (Hh & Hp & _).
  split; [apply scene_remove_gone|]. split; [apply scene_remove_sub|].
  split; [intros q r; unfold in_pool; rewrite Hp; tauto|].
  intros r. rewrite Hh. reflexivity.
Qed.

Lemma returnObjectToPool_scalars r poolName s :
  let s' := returnObjectToPool (Some r) poolName s in
  score s' = score s /\ currentWave s' = currentWave s
  /\ waveCooldownDuration s' = waveCooldownDuration s
  /\ gameState s' = gameState s.
Proof.
  unfold returnObjectToPool, scene_remove. simpl.
  destruct (has_mesh _); simpl; destruct (pools s !! poolName); auto.
Qed.

Lemma resetEntity_scalars e s :
  let s' := resetEntity e s in
  score s' = score s /\ currentWave s' = currentWave s
  /\ waveCooldownDuration s' = waveCooldownDuration s
  /\ gameState s' = gameState s.
Proof.
  assert (let s' := scene_remove e s in
          score s' = score s /\ currentWave s' = currentWave s
          /\ waveCooldownDuration s' = waveCooldownDuration s
          /\ gameState s' = gameState s) as (A1 & A2 & A3 & A4).
  { unfold scene_remove. destruct (has_mesh _); simpl; auto. }
  unfold resetEntity.
  repeat match goal with
         | |- context [if ?c then _ else _] => destruct c
         end;
    try (destruct (returnObjectToPool_scalars e "bullets" (scene_remove e s))
          as (B1 & B2 & B3 & B4); simpl in *; rewrite B1, B2, B3, B4; auto);
    try (destruct (returnObjectToPool_scalars e "enemies" (scene_remove e s))
          as (B1 & B2 & B3 & B4); simpl in *; rewrite B1, B2, B3, B4; auto);
    try (destruct (returnObjectToPool_scalars e "powerUps" (scene_remove e s))
          as (B1 & B2 & B3 & B4); simpl in *; rewrite B1, B2, B3, B4; auto);
    auto.
Qed.

Lemma resetEntities_scalars entities :
  forall s,
    let s' := fold_left (fun acc e => resetEntity e acc) entities s in
    score s' = score s /\ currentWave s' = currentWave s
    /\ waveCooldownDuration s' = waveCooldownDuration s
    /\ gameState s' = gameState s.
Proof.
  induction entities as [|e entities IH]; intros s; simpl; [auto|].
  destruct (IH (resetEntity e s)) as (I1 & I2 & I3 & I4).
  destruct (resetEntity_scalars e s) as (B1 & B2 & B3 & B4).
  simpl in *. rewrite I1, I2, I3, I4. auto.
Qed.

Lemma resetEntities_spec entities :
  forall s,
    let s' := fold_left (fun acc e => resetEntity e acc) entities s in
    (forall r, r ∈ entities -> invisible r s')
    /\ (forall r, r ∈ scene s' -> r ∈ scene s)
    /\ (forall q r, in_pool q r s' <-> in_pool q r s)
    /\ (forall r, has_mesh (heap s' r) = has_mesh (heap s r)).
Proof.
  induction entities as [|e entities IH]; intros s; simpl.
  - split; [intros r H; apply elem_of_nil in H; contradiction|].
    split; [auto|]. split; [tauto|reflexivity].
  - destruct (resetEntity_spec e s) as (G1 & G2 & G3 & G4).
    destruct (IH (resetEntity e s)) as (I1 & I2 & I3 & I4).
    split; [|split; [|split]].
    + intros r Hr. apply elem_of_cons in Hr as [->|Hr]; [|apply I1, Hr].
      intros Hm Hin. apply I2 in Hin. apply G1; [|exact Hin].
      rewrite I4 in Hm. exact Hm.
    + intros r Hr. apply G2, I2, Hr.
    + intros q r. rewrite I3. apply G3.
    + intros r. rewrite I4. apply G4.
Qed.

(** X15.  A new game.  From the title screen and from game over
    [transitionToGame()] starts the wave transition with the full
    cooldown, with score, wave and the counters of enemies at 0 and
    with empty active lists; the meshes of the entities that were
    active are out of the scene.  The pools hold the instances they held
    before and no others: an active entity that was in no pool is in no
    pool afterwards.  On a page without the game-over screen the call
    throws instead, and in every other state it does nothing. *)
Theorem new_game (s : t) :
  (gameState s = TITLE \/ gameState s = GAME_OVER ->
   transitionToGame false s = TypeError
   /\ exists s',
        transitionToGame true s = Ok s'
        /\ gameState s' = WAVE_TRANSITION
        /\ waveCooldownTimer s' = waveCooldownDuration s
        /\ score s' = 0 /\ currentWave s' = 0%Z
        /\ enemiesToSpawn s' = 0%Z /\ enemiesRemainingInWave s' = 0%Z
        /\ enemiesActive s' = 0%Z
        /\ active s' = []
        /\ (forall r, r ∈ active s -> invisible r s')
        /\ (forall r, r ∈ scene s' -> r ∈ scene s)
        /\ (forall q r, in_pool q r s' <-> in_pool q r s))
  /\ (gameState s <> TITLE -> gameState s <> GAME_OVER ->
      forall gameOverElem, transitionToGame gameOverElem s = Ok s).
Proof.
  split.
  - intros Hst. split.
    { unfold transitionToGame. destruct Hst as [-> | ->]; reflexivity. }
    exists (set_waveCooldownTimer (waveCooldownDuration (resetGame s))
              (set_gameState WAVE_TRANSITION (resetGame s))).
    split.
    { unfold transitionToGame. destruct Hst as [-> | ->]; reflexivity. }
    unfold resetGame. simpl.
    set (s1 := set_currentWave 0 (set_score 0 s)).
    destruct (resetEntities_spec
                (activeBullets s ++ activeEnemies s ++ activePowerUps s
                 ++ activeEffects s) s1) as (H1 & H2 & H3 & H4).
    destruct (resetEntities_scalars
                (activeBullets s ++ activeEnemies s ++ activePowerUps s
                 ++ activeEffects s) s1) as (S1 & S2 & S3 & _).
    split; [reflexivity|]. split; [exact S3|]. split; [exact S1|].
    split; [exact S2|].
    repeat (split; [reflexivity|]).
    split; [|split; [exact H2|exact H3]].
    intros r Hr. unfold invisible. simpl. apply H1.
    unfold active in Hr. rewrite !elem_of_app in Hr. rewrite !elem_of_app.
    tauto.
  - intros H1 H2 g. unfold transitionToGame.
    destruct (gameState s); congruence.
Qed.

End ResetFacts.

Section CountdownFacts.
Import GameEngine3D.





End CountdownFacts.


(** At the example engine after the game has ended: the new game has
    empty active lists, and enemy 2, which was active and in no pool,
    is in no pool. *)
Lemma new_game_witness :
  exists s,
    GameEngine3D.transitionToGame true (GameEngine3D.endGame example_engine) = Ok s
    /\ GameEngine3D.active s = []
    /\ forall q, ~ GameEngine3D.in_pool q 2%positive s.
Proof.
  destruct (new_game (GameEngine3D.endGame example_engine)) as [H _].
  destruct (H (or_intror eq_refl))
    as (_ & s & Hrun & _ & _ & _ & _ & _ & _ & _ & Hact & _ & _ & Hpool).
  exists s. split; [exact Hrun|]. split; [exact Hact|].
  intros q Hq. apply (proj1 (Hpool q 2%positive)) in Hq.
  destruct Hq as (pool & Hp & Hr).
  change (GameEngine3D.pools (GameEngine3D.endGame example_engine))
    with (<["enemies"%string := []]>
            (<["bullets"%string := []]>
               (<["powerUps"%string := [4%positive]]>
                  (∅ : gmap string (list GameEngine3D.ref))))) in Hp.
  destruct (decide (q = "enemies"%string)) as [->|N1].
  { rewrite lookup_insert_eq in Hp. injection Hp as <-.
    apply elem_of_nil in Hr. exact Hr. }
  rewrite lookup_insert_ne in Hp by congruence.
  destruct (decide (q = "bullets"%string)) as [->|N2].
  { rewrite lookup_insert_eq in Hp. injection Hp as <-.
    apply elem_of_nil in Hr. exact Hr. }
  rewrite lookup_insert_ne in Hp by congruence.
  destruct (decide (q = "powerUps"%string)) as [->|N3].
  { rewrite lookup_insert_eq in Hp. injection Hp as <-.
    apply list_elem_of_singleton in Hr. discriminate. }
  rewrite lookup_insert_ne in Hp by congruence.
  rewrite lookup_empty in Hp. discriminate.
Defined.

(** ** GameEngine3D: the type of a spawned enemy *)

Section EnemyTypeFacts.
Import GameEngine3D.
Context {host : Host}.

(** The type the loop picks has a positive share, unless it is the
    first of the table or the default after the loop. *)
Lemma pickType_table basic tank fast shooter scale rand :
  let ty :=
    pickType [("basic"%string, basic); ("tank"%string, tank);
              ("fast"%string, fast); ("shooter"%string, shooter)]
      scale 0 rand in
  (ty = "basic"%string
   /\ (rand < basic * scale
       \/ (basic + tank + fast + shooter) * scale <= rand))
  \/ (ty = "tank"%string /\ 0 < tank * scale)
  \/ (ty = "fast"%string /\ 0 < fast * scale)
  \/ (ty = "shooter"%string /\ 0 < shooter * scale).
Proof.
  simpl.
  destruct (Qltb rand (0 + basic * scale)) eqn:E1.
  { apply Qltb_true in E1. left. split; [reflexivity|]. left. lra. }
  apply Qltb_false in E1.
  destruct (Qltb rand (0 + basic * scale + tank * scale)) eqn:E2.
  { apply Qltb_true in E2. right. left. split; [reflexivity|]. lra. }
  apply Qltb_false in E2.
  destruct (Qltb rand (0 + basic * scale + tank * scale + fast * scale))
    eqn:E3.
  { apply Qltb_true in E3. right. right. left. split; [reflexivity|]. lra. }
  apply Qltb_false in E3.
  destruct (Qltb rand
              (0 + basic * scale + tank * scale + fast * scale
               + shooter * scale)) eqn:E4.
  { apply Qltb_true in E4. right. right. right. split; [reflexivity|]. lra. }
  apply Qltb_false in E4. left. split; [reflexivity|]. right. lra.
Qed.

Lemma zero_share scale : ~ 0 < 0 * scale.
Proof. intros H. lra. Qed.

Lemma inject_Z_le_const (a : Z) (w : Z) :
  (a <= w)%Z -> inject_Z a <= inject_Z w.
Proof. intros H. rewrite <- Zle_Qle. exact H. Qed.

(** X17.  The type of a spawned enemy.  For every wave number
    [getRandomEnemyTypeByWaveNumber] returns a key of the table
    [enemyTypes] and touches neither entities nor pools.  It returns
    ["fast"] only from wave 2 on, ["tank"] only from wave 3 on and
    ["shooter"] only from wave 5 on, so that up to wave 1 every enemy is
    ["basic"]; and from wave 13 on, where the share of ["basic"] has
    fallen to 0, no enemy is ["basic"] for a value of [Math.random()]
    in [0, 1). *)
Theorem enemy_type_by_wave (wave : Z) (s : t) :
  exists ty s',
    getRandomEnemyTypeByWaveNumber wave s = Ok (ty, s')
    /\ same_world s s'
    /\ is_Some (lookup_enemyType ty enemyTypes)
    /\ (ty = "fast"%string -> (2 <= wave)%Z)
    /\ (ty = "tank"%string -> (3 <= wave)%Z)
    /\ (ty = "shooter"%string -> (5 <= wave)%Z)
    /\ ((wave <= 1)%Z -> ty = "basic"%string)
    /\ ((13 <= wave)%Z ->
        0 <= Math_random (randomCalls s) < 1 -> ty <> "basic"%string).
Proof.
  destruct (getRandomEnemyTypeByWaveNumber wave s) as [[ty s']| |] eqn:Hrun.
  2,3: unfold getRandomEnemyTypeByWaveNumber in Hrun; cbv zeta in Hrun;
       destruct (Qleb _ 0); discriminate Hrun.
  exists ty, s'. split; [reflexivity|].
  split; [eapply getRandomEnemyTypeByWaveNumber_same_world, Hrun|].
  unfold getRandomEnemyTypeByWaveNumber in Hrun. cbv zeta in Hrun.
  set (w := inject_Z wave) in *.
  set (basic := Qmax 0 (1 - w * 0.08)) in *.
  set (fast := if (2 <=? wave)%Z then Qmin 0.4 (w * 0.05) else 0) in *.
  set (tank := if (3 <=? wave)%Z then Qmin 0.3 ((w - 2) * 0.04) else 0) in *.
  set (shooter := if (5 <=? wave)%Z then Qmin 0.25 ((w - 4) * 0.03) else 0)
    in *.
  set (total := basic + fast + tank + shooter) in *.
  destruct (Qleb total 0) eqn:Etot.
  - injection Hrun as <- <-. apply Qleb_true in Etot.
    split; [eexists; reflexivity|].
    repeat (split; [discriminate|]). split; [reflexivity|].
    intros Hw _. exfalso.
    assert (13 <= w) by (apply (inject_Z_le_const 13), Hw).
    assert (fast == 0.4) as Hf.
    { unfold fast. destruct (Z.leb_spec 2 wave); [|lia].
      apply Q.min_l. lra. }
    assert (0 <= basic) by apply Q.le_max_l.
    assert (0 <= tank).
    { unfold tank. destruct (3 <=? wave)%Z; [|lra].
      apply Q.min_glb; lra. }
    assert (0 <= shooter).
    { unfold shooter. destruct (5 <=? wave)%Z; [|lra].
      apply Q.min_glb; lra. }
    unfold total in Etot. lra.
  - apply Qleb_false in Etot.
    cbv beta iota delta [bind random ret obind] in Hrun.
    match type of Hrun with
    | Ok (?picked, _) = _ => assert (picked = ty) as Hty by congruence
    end.
    clear Hrun.
    set (rand := Math_random (randomCalls s)) in *.
    set (scale := 1 / total) in *.
    pose proof (pickType_table basic tank fast shooter scale rand) as Hpick.
    cbv zeta in Hpick. rewrite Hty in Hpick. clear Hty.
    split.
    { destruct Hpick as [[-> _]|[[-> _]|[[-> _]|[-> _]]]];
        eexists; reflexivity. }
    split.
    { intros Hty. destruct (Z.leb_spec 2 wave) as [|Hlt]; [assumption|].
      exfalso.
      destruct Hpick as [[E _]|[[E _]|[[_ Hp]|[E _]]]];
        try (rewrite Hty in E; discriminate E).
      unfold fast in Hp. destruct (Z.leb_spec 2 wave); [lia|].
      exact (zero_share _ Hp). }
    split.
    { intros Hty. destruct (Z.leb_spec 3 wave) as [|Hlt]; [assumption|].
      exfalso.
      destruct Hpick as [[E _]|[[_ Hp]|[[E _]|[E _]]]];
        try (rewrite Hty in E; discriminate E).
      unfold tank in Hp. destruct (Z.leb_spec 3 wave); [lia|].
      exact (zero_share _ Hp). }
    split.
    { intros Hty. destruct (Z.leb_spec 5 wave) as [|Hlt]; [assumption|].
      exfalso.
      destruct Hpick as [[E _]|[[E _]|[[E _]|[_ Hp]]]];
        try (rewrite Hty in E; discriminate E).
      unfold shooter in Hp. destruct (Z.leb_spec 5 wave); [lia|].
      exact (zero_share _ Hp). }
    split.
    { intros Hw.
      destruct Hpick as [[E _]|[[_ Hp]|[[_ Hp]|[_ Hp]]]]; [exact E|..];
        exfalso.
      - unfold tank in Hp. destruct (Z.leb_spec 3 wave); [lia|].
        exact (zero_share _ Hp).
      - unfold fast in Hp. destruct (Z.leb_spec 2 wave); [lia|].
        exact (zero_share _ Hp).
      - unfold shooter in Hp. destruct (Z.leb_spec 5 wave); [lia|].
        exact (zero_share _ Hp). }
    intros Hw [Hr0 Hr1] Hty.
    assert (13 <= w) by (apply (inject_Z_le_const 13), Hw).
    assert (basic == 0) as Hb by (unfold basic; apply Q.max_l; lra).
    assert (total * scale == 1) as Hone.
    { unfold scale. field. lra. }
    assert (basic * scale == 0) as Hb0 by (rewrite Hb; ring).
    destruct Hpick as [[_ [Hp|Hp]]|[[E _]|[[E _]|[E _]]]];
      try (rewrite Hty in E; discriminate E).
    + lra.
    + unfold total in Hone.
      assert ((basic + tank + fast + shooter) * scale
              == (basic + fast + tank + shooter) * scale) as Hc by ring.
      lra.
Qed.

End EnemyTypeFacts.

(** ** GameEngine3D: spawning *)

Section EnemyResetFacts.
Import Enemy.
Context {host : Host}.

(** What [reset] leaves of the enemy it is called on: only the
    invincibility duration. *)
Lemma Enemy_reset_fields ty cfg pos r1 r2 r3 e :
  let e' := reset ty cfg pos r1 r2 r3 e in
  type e' = Some ty /\ config e' = Some cfg
  /\ health e' = cfg_health cfg /\ speed e' = cfg_speed cfg
  /\ currentState e' = IDLE /\ _destroyed e' = false
  /\ isInvincible e' = false /\ position e' = pos.
Proof.
  unfold reset, setState. cbv zeta.
  match goal with
  | |- context [state_eqb IDLE ?x] => destruct (state_eqb IDLE x) eqn:E
  end.
  - apply state_eqb_eq in E. simpl in E. simpl. rewrite <- E. repeat split.
  - simpl. repeat split.
Qed.

End EnemyResetFacts.

Section SpawnMore.
Import GameEngine3D.
Context {host : Host}.

Lemma getObjectFromPool_popped poolName pool r s :
  pools s !! poolName = Some (push r pool) ->
  getObjectFromPool poolName s = Ok (Some r, popped poolName pool r s).
Proof.
  intros H. unfold getObjectFromPool. rewrite H, pop_push. reflexivity.
Qed.

Lemma popped_fields poolName pool r s :
  let s1 := popped poolName pool r s in
  pools s1 = <[poolName := pool]> (pools s)
  /\ heap s1 = heap_set r (set_destroyed false (heap s r)) (heap s)
  /\ (has_mesh (heap s r) = true -> r ∈ scene s1)
  /\ gameState s1 = gameState s /\ score s1 = score s
  /\ currentWave s1 = currentWave s /\ enemiesToSpawn s1 = enemiesToSpawn s
  /\ enemiesRemainingInWave s1 = enemiesRemainingInWave s
  /\ enemiesActive s1 = enemiesActive s
  /\ spawnTimers s1 = spawnTimers s
  /\ activeEnemies s1 = activeEnemies s /\ activeBullets s1 = activeBullets s
  /\ activePowerUps s1 = activePowerUps s
  /\ activeEffects s1 = activeEffects s.
Proof.
  unfold popped, scene_add. simpl. rewrite heap_set_same,
    has_mesh_set_destroyed.
  destruct (has_mesh (heap s r)) eqn:Hm; simpl; repeat split;
    try discriminate.
  intros _. set_solver.
Qed.

Lemma enemy_type_in_table wave s :
  exists ty cfg n,
    getRandomEnemyTypeByWaveNumber wave s
    = Ok (ty, set_randomCalls n s)
    /\ lookup_enemyType ty enemyTypes = Some cfg.
Proof.
  unfold getRandomEnemyTypeByWaveNumber. cbv zeta.
  match goal with
  | |- context [Qleb ?total 0] => destruct (Qleb total 0)
  end.
  - exists "basic"%string. eexists. exists (randomCalls s).
    split; [|reflexivity]. unfold ret. destruct s. reflexivity.
  - cbv beta iota delta [bind random ret obind].
    match goal with
    | |- context [pickType ?l ?scale 0 ?rand] =>
        pose proof (pickType_table
                      (Qmax 0 (1 - inject_Z wave * 0.08))
                      (if (3 <=? wave)%Z
                       then Qmin 0.3 ((inject_Z wave - 2) * 0.04) else 0)
                      (if (2 <=? wave)%Z
                       then Qmin 0.4 (inject_Z wave * 0.05) else 0)
                      (if (5 <=? wave)%Z
                       then Qmin 0.25 ((inject_Z wave - 4) * 0.03) else 0)
                      scale rand) as Hpick;
        cbv zeta in Hpick;
        exists (pickType l scale 0 rand)
    end.
    destruct Hpick as [[E _]|[[E _]|[[E _]|[E _]]]]; rewrite E;
      eexists; exists (S (randomCalls s)); split; reflexivity.
Qed.

Lemma bind_run {A B : Type} (m : M A) (k : A -> M B) s a s1 :
  m s = Ok (a, s1) -> bind m k s = k a s1.
Proof. intros H. unfold bind. rewrite H. reflexivity. Qed.

Lemma getRandomSpawnPosition_run s :
  exists pos,
    vy pos = 0.5
    /\ getRandomSpawnPosition s
       = Ok (pos, set_randomCalls (S (S (randomCalls s))) s).
Proof.
  eexists. split; cycle 1.
  - unfold getRandomSpawnPosition, bind, random, ret, obind. reflexivity.
  - reflexivity.
Qed.

Lemma spawnEnemy_pops s pool r e :
  pools s !! "enemies"%string = Some (push r pool) ->
  heap s r = OEnemy e ->
  exists ty cfg pos r1 r2 r3 n,
    lookup_enemyType ty enemyTypes = Some cfg
    /\ vy pos = 0.5
    /\ spawnEnemy s
       = Ok (tt, spawned r
                   (Enemy.reset ty cfg pos r1 r2 r3
                      (Enemy.set_destroyed false e))
                   n (popped "enemies" pool r s)).
Proof.
  intros Hpool Hr.
  pose proof (getObjectFromPool_popped _ _ _ _ Hpool) as Hget.
  set (s1 := popped "enemies" pool r s) in *.
  assert (heap s1 r = OEnemy (Enemy.set_destroyed false e)) as Hh.
  { destruct (popped_fields "enemies" pool r s) as (_ & Hh & _).
    fold s1 in Hh. rewrite Hh, heap_set_same, Hr. reflexivity. }
  destruct (enemy_type_in_table (currentWave s1) s1)
    as (ty & cfg & n & Hty & Hcfg).
  destruct (getRandomSpawnPosition_run (set_randomCalls n s1))
    as (pos & Hy & Hpos).
  exists ty, cfg, pos.
  unfold spawnEnemy.
  rewrite (bind_run _ _ _ _ _ Hget). cbv beta iota.
  rewrite (bind_run (gets currentWave) _ s1 (currentWave s1) s1 eq_refl).
  rewrite (bind_run _ _ _ _ _ Hty).
  rewrite (bind_run _ _ _ _ _ Hpos).
  match goal with
  | |- context [bind (gets ?f) ?k ?s3] =>
      rewrite (bind_run (gets f) k s3
                 (OEnemy (Enemy.set_destroyed false e)) s3)
        by (unfold gets; simpl; rewrite Hh; reflexivity)
  end.
  cbv beta iota. rewrite Hcfg.
  unfold bind, random, obind, modify.
  destruct (Enemy.state_eqb Enemy.IDLE
              (Enemy.currentState (Enemy.set_destroyed false e)));
    do 4 eexists; (split; [reflexivity|]); (split; [exact Hy|]);
    reflexivity.
Qed.

Lemma spawned_fields pool r e' n s :
  let s' := spawned r e' n (popped "enemies" pool r s) in
  heap s' r = OEnemy e'
  /\ (forall x, x <> r -> heap s' x = heap s x)
  /\ pools s' = <["enemies"%string := pool]> (pools s)
  /\ (has_mesh (heap s r) = true -> r ∈ scene s')
  /\ activeEnemies s' = activeEnemies s ++ [r]
  /\ enemiesActive s' = (enemiesActive s + 1)%Z
  /\ gameState s' = gameState s /\ score s' = score s
  /\ currentWave s' = currentWave s /\ enemiesToSpawn s' = enemiesToSpawn s
  /\ enemiesRemainingInWave s' = enemiesRemainingInWave s
  /\ spawnTimers s' = spawnTimers s
  /\ activeBullets s' = activeBullets s
  /\ activePowerUps s' = activePowerUps s
  /\ activeEffects s' = activeEffects s.
Proof.
  destruct (popped_fields "enemies" pool r s)
    as (P1 & P2 & P3 & P4 & P5 & P6 & P7 & P8 & P9 & P10 & P11 & P12 & P13
        & P14).
  unfold spawned. simpl.
  rewrite heap_set_same, P1, P2, P4, P5, P6, P7, P8, P9, P10, P11, P12, P13,
    P14.
  repeat split; try exact P3.
  intros x Hx. rewrite !heap_set_other by exact Hx. reflexivity.
Qed.

(** X18.  Spawning an enemy.  When the pool [enemies] is not empty and
    its last instance is an enemy, [spawnEnemy()] does not throw: it
    takes that instance from the pool, resets it to a type of the table
    [enemyTypes] with the health of that type, in state Idle, neither
    destroyed nor invincible, at height 0.5; it appends it to the active
    enemies, counts it in [enemiesActive] and has its mesh in the
    scene.  No other object changes, and neither do the score, the wave
    and the other active lists. *)
Theorem spawn_enemy (s : t) (pool : list ref) (r : ref) (e : Enemy.t) :
  pools s !! "enemies"%string = Some (pool ++ [r]) ->
  heap s r = OEnemy e ->
  exists s' e' ty cfg,
    spawnEnemy s = Ok (tt, s')
    /\ heap s' r = OEnemy e'
    /\ lookup_enemyType ty enemyTypes = Some cfg
    /\ Enemy.type e' = Some ty /\ Enemy.config e' = Some cfg
    /\ Enemy.health e' = Enemy.cfg_health cfg
    /\ Enemy.currentState e' = Enemy.IDLE
    /\ Enemy._destroyed e' = false /\ Enemy.isInvincible e' = false
    /\ vy (Enemy.position e') = 0.5
    /\ pools s' = <["enemies"%string := pool]> (pools s)
    /\ activeEnemies s' = activeEnemies s ++ [r]
    /\ enemiesActive s' = (enemiesActive s + 1)%Z
    /\ r ∈ scene s'
    /\ (forall x, x <> r -> heap s' x = heap s x)
    /\ score s' = score s /\ currentWave s' = currentWave s
    /\ activeBullets s' = activeBullets s
    /\ activePowerUps s' = activePowerUps s
    /\ activeEffects s' = activeEffects s.
Proof.
  intros Hpool Hr.
  destruct (spawnEnemy_pops s pool r e Hpool Hr)
    as (ty & cfg & pos & r1 & r2 & r3 & n & Hcfg & Hy & Hrun).
  destruct (Enemy_reset_fields ty cfg pos r1 r2 r3
              (Enemy.set_destroyed false e))
    as (E1 & E2 & E3 & _ & E5 & E6 & E7 & E8).
  destruct (spawned_fields pool r
              (Enemy.reset ty cfg pos r1 r2 r3 (Enemy.set_destroyed false e))
              n s)
    as (F1 & F2 & F3 & F4 & F5 & F6 & _ & F8 & F9 & _ & _ & _ & F13 & F14
        & F15).
  eexists. eexists. exists ty, cfg.
  split; [exact Hrun|]. split; [exact F1|]. split; [exact Hcfg|].
  split; [exact E1|]. split; [exact E2|]. split; [exact E3|].
  split; [exact E5|]. split; [exact E6|]. split; [exact E7|].
  split; [rewrite E8; exact Hy|]. split; [exact F3|]. split; [exact F5|].
  split; [exact F6|]. split; [apply F4; rewrite Hr; reflexivity|].
  split; [exact F2|]. auto.
Qed.

(** [spawnEnemy()] on such an engine: it spawns one enemy or, with an
    empty pool, none. *)
Lemma spawnEnemy_total s :
  enemies_pooled s ->
  exists s',
    spawnEnemy s = Ok (tt, s')
    /\ enemies_pooled s'
    /\ gameState s' = gameState s /\ enemiesToSpawn s' = enemiesToSpawn s
    /\ spawnTimers s' = spawnTimers s
    /\ ((pools s !! "enemies"%string = Some [] /\ s' = s)
        \/ (pools s !! "enemies"%string <> Some []
            /\ enemiesActive s' = (enemiesActive s + 1)%Z
            /\ length (activeEnemies s') = S (length (activeEnemies s)))).
Proof.
  intros [[pool Hpool] Htyped].
  destruct (pop pool) as [[r rest]|] eqn:Hpop.
  - apply pop_Some in Hpop. subst pool.
    assert (is_enemy (heap s r) = true) as Hen.
    { apply Htyped. exists (push r rest). split; [exact Hpool|].
      unfold push. rewrite elem_of_app, list_elem_of_singleton. auto. }
    destruct (heap s r) as [|e| |] eqn:Hr; try discriminate Hen.
    destruct (spawnEnemy_pops s rest r e Hpool Hr)
      as (ty & cfg & pos & r1 & r2 & r3 & n & _ & _ & Hrun).
    destruct (spawned_fields rest r
                (Enemy.reset ty cfg pos r1 r2 r3
                   (Enemy.set_destroyed false e)) n s)
      as (F1 & F2 & F3 & _ & F5 & F6 & F7 & _ & _ & F10 & _ & F12 & _).
    eexists. split; [exact Hrun|]. split.
    { split.
      - rewrite F3, lookup_insert_eq. eauto.
      - intros x (pool' & Hp' & Hx). rewrite F3, lookup_insert_eq in Hp'.
        injection Hp' as <-.
        destruct (decide (x = r)) as [->|Hne]; [rewrite F1; reflexivity|].
        rewrite F2 by exact Hne. apply Htyped.
        exists (push r rest). split; [exact Hpool|].
        unfold push. rewrite elem_of_app. auto. }
    split; [exact F7|]. split; [exact F10|]. split; [exact F12|].
    right. split.
    { rewrite Hpool. unfold push. intros [= H].
      destruct rest; discriminate H. }
    split; [exact F6|]. rewrite F5, length_app. simpl. lia.
  - apply pop_nil_iff in Hpop. subst pool.
    exists s. split; [apply spawnEnemy_skips, Hpool|].
    split; [split; [eauto|exact Htyped]|].
    repeat (split; [reflexivity|]). left. auto.
Qed.

Lemma spawnTimerCallback_cleared k s timer :
  spawnTimers s !! k = Some timer -> st_cleared timer = true ->
  spawnTimerCallback k s = Ok (tt, s).
Proof.
  intros Hk Hc. unfold spawnTimerCallback.
  rewrite (bind_run (gets spawnTimers) _ s (spawnTimers s) s eq_refl).
  rewrite Hk, Hc. reflexivity.
Qed.

Lemma spawnTimerCallback_runs_cleared k n s timer :
  spawnTimers s !! k = Some timer -> st_cleared timer = true ->
  spawnTimerCallback_runs k n s = Ok (tt, s).
Proof.
  intros Hk Hc. induction n as [|n IH]; [reflexivity|]. simpl.
  rewrite (bind_run _ _ _ _ _ (spawnTimerCallback_cleared k s timer Hk Hc)).
  exact IH.
Qed.

Lemma enemies_pooled_timers timers s :
  enemies_pooled s -> enemies_pooled (set_spawnTimers timers s).
Proof. intros H. exact H. Qed.

(** One run of the callback of a timer that is not cleared, during
    play. *)
Lemma spawnTimerCallback_step k s timer :
  spawnTimers s !! k = Some timer -> st_cleared timer = false ->
  gameState s = PLAYING -> enemies_pooled s ->
  let c := st_spawnedCount timer in
  let q := enemiesToSpawn s in
  exists s',
    spawnTimerCallback k s = Ok (tt, s')
    /\ enemies_pooled s' /\ gameState s' = PLAYING
    /\ enemiesToSpawn s' = q
    /\ (((c < q)%Z
         /\ spawnTimers s'
            = <[k := mkSpawnTimer (st_interval timer) (c + 1) false]>
                (spawnTimers s)
         /\ ((pools s !! "enemies"%string = Some []
              /\ pools s' = pools s
              /\ enemiesActive s' = enemiesActive s
              /\ activeEnemies s' = activeEnemies s)
             \/ (pools s !! "enemies"%string <> Some []
                 /\ enemiesActive s' = (enemiesActive s + 1)%Z
                 /\ length (activeEnemies s')
                    = S (length (activeEnemies s)))))
        \/ ((q <= c)%Z
            /\ s' = set_spawnTimers
                      (<[k := mkSpawnTimer (st_interval timer) c true]>
                         (spawnTimers s)) s)).
Proof.
  intros Hk Hc Hst Hinv c q. unfold spawnTimerCallback.
  rewrite (bind_run (gets spawnTimers) _ s (spawnTimers s) s eq_refl).
  rewrite Hk, Hc.
  rewrite (bind_run (gets enemiesToSpawn) _ s (enemiesToSpawn s) s eq_refl).
  rewrite (bind_run (gets gameState) _ s (gameState s) s eq_refl).
  rewrite Hst. fold c q.
  destruct (Z.ltb_spec c q) as [Hlt|Hge].
  - destruct (spawnEnemy_total s Hinv)
      as (s1 & Hrun & Hinv1 & G1 & G2 & G3 & Hcase).
    rewrite (bind_run _ _ _ _ _ Hrun). unfold modify.
    eexists. split; [reflexivity|]. split; [exact Hinv1|].
    split; [simpl; rewrite G1; exact Hst|]. split; [exact G2|].
    left. split; [exact Hlt|]. split; [simpl; rewrite G3; reflexivity|].
    destruct Hcase as [[He ->]|(Hne & Ha & Hl)]; [left|right]; auto.
  - unfold modify. eexists. split; [reflexivity|].
    split; [exact Hinv|]. split; [exact Hst|]. split; [reflexivity|].
    right. split; [exact Hge|reflexivity].
Qed.

(** X19.  The quota of a spawn timer.  During play, with a pool
    [enemies] that holds enemies only, the callback of a timer that is
    not cleared never throws.  Each of its runs counts one spawn until
    the quota [enemiesToSpawn] is reached, whether or not the pool had
    an enemy to give; the run after that clears the timer, and the runs
    after that do nothing.  So the timer adds at most as many enemies
    as its quota had left, each with one entry of [activeEnemies]; with
    an empty pool it adds none. *)
Theorem spawn_timer_quota (k n : nat) :
  forall s timer,
    spawnTimers s !! k = Some timer -> st_cleared timer = false ->
    gameState s = PLAYING -> enemies_pooled s ->
    let c := st_spawnedCount timer in
    let q := enemiesToSpawn s in
    exists s' timer',
      spawnTimerCallback_runs k n s = Ok (tt, s')
      /\ spawnTimers s' !! k = Some timer'
      /\ gameState s' = PLAYING /\ enemiesToSpawn s' = q
      /\ ((c + Z.of_nat n <= Z.max c q)%Z ->
          st_cleared timer' = false
          /\ st_spawnedCount timer' = (c + Z.of_nat n)%Z)
      /\ ((Z.max c q < c + Z.of_nat n)%Z ->
          st_cleared timer' = true /\ st_spawnedCount timer' = Z.max c q)
      /\ (enemiesActive s <= enemiesActive s'
          <= enemiesActive s + Z.min (Z.of_nat n) (Z.max 0 (q - c)))%Z
      /\ (Z.of_nat (length (activeEnemies s'))
          - Z.of_nat (length (activeEnemies s))
          = enemiesActive s' - enemiesActive s)%Z
      /\ (pools s !! "enemies"%string = Some [] ->
          enemiesActive s' = enemiesActive s
          /\ activeEnemies s' = activeEnemies s).
Proof.
  induction n as [|n IH]; intros s timer Hk Hc Hst Hinv c q.
  - exists s, timer. split; [reflexivity|]. split; [exact Hk|].
    split; [exact Hst|]. split; [reflexivity|].
    split; [intros _; split; [exact Hc|lia]|].
    split; [intros H; lia|]. split; [lia|]. split; [lia|]. auto.
  - destruct (spawnTimerCallback_step k s timer Hk Hc Hst Hinv)
      as (s1 & Hrun & Hinv1 & Hst1 & Hq1 & Hcase).
    assert (k < length (spawnTimers s))%nat as Hlen
      by (eapply lookup_lt_Some, Hk).
    simpl. rewrite (bind_run _ _ _ _ _ Hrun).
    destruct Hcase as [(Hlt & Htimers & Hspawn)|(Hge & Hs1)].
    + assert (spawnTimers s1 !! k
              = Some (mkSpawnTimer (st_interval timer) (c + 1) false)) as Hk1
        by (rewrite Htimers; apply list_lookup_insert_eq, Hlen).
      destruct (IH s1 _ Hk1 eq_refl Hst1 Hinv1)
        as (s' & timer' & Hruns & Hk' & Hst' & Hq' & Hin & Hout & Hact
            & Hlen' & Hempty).
      simpl in Hin, Hout, Hact. rewrite Hq1 in Hin, Hout, Hact, Hq'.
      fold c q in Hin, Hout, Hact, Hq'.
      exists s', timer'. split; [exact Hruns|]. split; [exact Hk'|].
      split; [exact Hst'|]. split; [exact Hq'|].
      split; [intros H; destruct Hin as [-> ->]; [lia|split; [reflexivity|lia]]|].
      split; [intros H; destruct Hout as [-> ->]; [lia|split; [reflexivity|lia]]|].
      destruct Hspawn as [(He & Hp & Ha & Hl)|(Hne & Ha & Hl)].
      * rewrite Ha, Hl in *. split; [lia|]. split; [lia|].
        intros _. apply Hempty. rewrite Hp. exact He.
      * rewrite Ha, Hl in *. split; [lia|]. split; [lia|].
        intros He. contradiction.
    + set (timer1 := mkSpawnTimer (st_interval timer) c true).
      assert (spawnTimers s1 !! k = Some timer1) as Hk1
        by (rewrite Hs1; apply list_lookup_insert_eq, Hlen).
      rewrite (spawnTimerCallback_runs_cleared k n s1 timer1 Hk1 eq_refl).
      exists s1, timer1. split; [reflexivity|]. split; [exact Hk1|].
      split; [exact Hst1|]. split; [exact Hq1|].
      split; [intros H; lia|].
      split; [intros _; split; [reflexivity|simpl; lia]|].
      rewrite Hs1. simpl. split; [lia|]. split; [lia|]. auto.
Qed.

(** X20.  Spawning a bullet.  When the pool [bullets] is not empty and
    its last instance is a bullet, [spawnBullet] does not throw: it
    takes that instance from the pool, appends it to the active bullets
    and has its mesh in the scene, and no other object changes.  With a
    position and a direction the bullet starts there, not destroyed and
    visible, with the damage given, a fresh lifespan, the normalized
    direction and speed 25 for the player and 18 otherwise.  When the
    position or the direction is missing the bullet is active and its
    mesh in the scene all the same, but it is destroyed and hidden and
    keeps the damage it had. *)
Theorem spawn_bullet (originPosition direction : option Vector3)
  (damage : Q) (isPlayerBullet : bool) (s : t) (pool : list ref) (r : ref)
  (b : Bullet.t) :
  pools s !! "bullets"%string = Some (pool ++ [r]) ->
  heap s r = OBullet b ->
  exists s' b',
    spawnBullet originPosition direction damage isPlayerBullet s
    = Ok (tt, s')
    /\ heap s' r = OBullet b'
    /\ pools s' = <["bullets"%string := pool]> (pools s)
    /\ activeBullets s' = activeBullets s ++ [r]
    /\ r ∈ scene s'
    /\ (forall x, x <> r -> heap s' x = heap s x)
    /\ (forall origin d,
          originPosition = Some origin -> direction = Some d ->
          Bullet._destroyed b' = false /\ Bullet.visible b' = true
          /\ Bullet.position b' = origin
          /\ Bullet.direction b' = normalize d
          /\ Bullet.damage b' = damage
          /\ Bullet.isPlayerBullet b' = isPlayerBullet
          /\ Bullet.lifespanTimer b' = 0
          /\ Bullet.speed b' = (if isPlayerBullet then 25 else 18))
    /\ (originPosition = None \/ direction = None ->
        Bullet._destroyed b' = true /\ Bullet.visible b' = false
        /\ Bullet.damage b' = Bullet.damage b
        /\ Bullet.position b' = Bullet.position b).
Proof.
  intros Hpool Hr.
  pose proof (getObjectFromPool_popped _ _ _ _ Hpool) as Hget.
  destruct (popped_fields "bullets" pool r s)
    as (P1 & P2 & P3 & _ & _ & _ & _ & _ & _ & _ & _ & P12 & _).
  set (s1 := popped "bullets" pool r s) in *.
  set (b0 := Bullet.mk (Bullet.speed b) (Bullet.damage b)
               (Bullet.isPlayerBullet b) (Bullet.maxLifespan b)
               (Bullet.lifespanTimer b) false (Bullet.visible b)
               (Bullet.position b) (Bullet.direction b)).
  assert (heap s1 r = OBullet b0) as Hh.
  { rewrite P2, heap_set_same, Hr. reflexivity. }
  unfold spawnBullet.
  rewrite (bind_run _ _ _ _ _ Hget). cbv beta iota.
  match goal with
  | |- context [bind (gets ?f) ?k ?s3] =>
      rewrite (bind_run (gets f) k s3 (OBullet b0) s3)
        by (unfold gets; rewrite Hh; reflexivity)
  end.
  cbv beta iota. unfold modify.
  eexists. eexists. split; [reflexivity|]. simpl.
  split; [apply heap_set_same|]. split; [exact P1|].
  split; [rewrite P12; reflexivity|].
  split; [apply P3; rewrite Hr; reflexivity|].
  split.
  { intros x Hx. rewrite heap_set_other by exact Hx.
    rewrite P2. apply heap_set_other, Hx. }
  split.
  - intros origin d -> ->. simpl. repeat split.
  - intros [-> | ->]; [|destruct originPosition]; simpl; repeat split.
Qed.

End SpawnMore.

(** At the example engine with enemy 2 in the pool: the spawn makes it
    the last active enemy, not destroyed. *)
Lemma spawn_enemy_witness :
  exists s' e',
    GameEngine3D.spawnEnemy (host := example_host) example_pooled
    = Ok (tt, s')
    /\ GameEngine3D.heap s' 2%positive = GameEngine3D.OEnemy e'
    /\ Enemy._destroyed e' = false
    /\ GameEngine3D.activeEnemies s'
       = GameEngine3D.activeEnemies example_pooled ++ [2%positive].
Proof.
  assert (GameEngine3D.pools example_pooled !! "enemies"%string
          = Some ([] ++ [2%positive])) as Hpool by (vm_compute; reflexivity).
  destruct (spawn_enemy (host := example_host) example_pooled [] 2%positive
              _ Hpool eq_refl)
    as (s' & e' & ty & cfg & H1 & H2 & _ & _ & _ & _ & _ & H3 & _ & _ & _
        & H4 & _).
  exists s', e'. auto.
Defined.

(** At the example engine with bullet 1 in the pool: a spawn without a
    position leaves the bullet destroyed but active. *)
Lemma spawn_bullet_witness :
  exists s' b',
    GameEngine3D.spawnBullet (host := example_host) None
      (Some (mkVector3 0 0 1)) 5 false example_pooled = Ok (tt, s')
    /\ GameEngine3D.heap s' 1%positive = GameEngine3D.OBullet b'
    /\ Bullet._destroyed b' = true
    /\ GameEngine3D.activeBullets s'
       = GameEngine3D.activeBullets example_pooled ++ [1%positive].
Proof.
  assert (GameEngine3D.pools example_pooled !! "bullets"%string
          = Some ([] ++ [1%positive])) as Hpool by (vm_compute; reflexivity).
  destruct (spawn_bullet (host := example_host) None (Some (mkVector3 0 0 1))
              5 false example_pooled [] 1%positive _ Hpool eq_refl)
    as (s' & b' & H1 & H2 & _ & H3 & _ & _ & _ & H4).
  exists s', b'. split; [exact H1|]. split; [exact H2|].
  split; [apply H4; left; reflexivity|exact H3].
Defined.

Lemma example_wave1_pooled :
  GameEngine3D.enemies_pooled example_wave1.
Proof.
  split.
  - exists []. reflexivity.
  - intros r (pool & Hp & Hr).
    assert (GameEngine3D.pools example_wave1 !! "enemies"%string = Some [])
      as Hp' by reflexivity.
    rewrite Hp' in Hp. injection Hp as <-. apply elem_of_nil in Hr.
    contradiction.
Defined.

(** In wave 1 of a new engine, whose pool is empty: seven runs of the
    callback count the six spawns of the quota and clear the timer, and
    no enemy is active. *)
Lemma spawn_timer_quota_witness :
  exists s' timer',
    GameEngine3D.spawnTimerCallback_runs (host := example_host) 0 7
      example_wave1 = Ok (tt, s')
    /\ GameEngine3D.spawnTimers s' !! 0%nat = Some timer'
    /\ GameEngine3D.st_cleared timer' = true
    /\ GameEngine3D.st_spawnedCount timer' = 6%Z
    /\ GameEngine3D.enemiesActive s' = 0%Z.
Proof.
  destruct (spawn_timer_quota (host := example_host) 0 7 example_wave1
              (GameEngine3D.mkSpawnTimer 1450 0 false))
    as (s' & timer' & H1 & H2 & _ & _ & _ & H3 & _ & _ & H4).
  - reflexivity.
  - reflexivity.
  - reflexivity.
  - exact example_wave1_pooled.
  - exists s', timer'. split; [exact H1|]. split; [exact H2|].
    destruct H3 as [H3 H3']; [vm_compute; reflexivity|].
    split; [exact H3|]. split; [rewrite H3'; reflexivity|].
    destruct H4 as [H4 _]; [reflexivity|]. rewrite H4. reflexivity.
Defined.

(** ** InputState: aiming and triggered actions *)

Section InputFacts.
Import InputState.

Lemma handle_keeps_lock e i :
  keeps_lock e = true -> isPointerLocked (handle e i) = isPointerLocked i.
Proof.
  destruct e; try discriminate; intros _; simpl; try reflexivity.
  - unfold handleKeyDown. destruct repeat; reflexivity.
  - unfold handleMouseMove. destruct (isPointerLocked i) eqn:E; simpl; auto.
  - unfold handleMouseDown. destruct (isPointerLocked i) eqn:E; [|exact E].
    destruct (button =? 0)%Z, (button =? 1)%Z, (button =? 2)%Z; exact E.
Qed.

Lemma handle_locked_delta e i :
  keeps_lock e = true -> isPointerLocked i = true ->
  deltaX (handle e i) == deltaX i + fst (movement [e])
  /\ deltaY (handle e i) == deltaY i + snd (movement [e]).
Proof.
  destruct e; try discriminate; intros _ Hl; simpl.
  - unfold handleKeyDown. destruct repeat; simpl; split; ring.
  - split; ring.
  - unfold handleMouseMove. rewrite Hl. simpl. split; ring.
  - unfold handleMouseDown. rewrite Hl.
    destruct (button =? 0)%Z, (button =? 1)%Z, (button =? 2)%Z; simpl;
      split; ring.
  - split; ring.
Qed.

Lemma movement_cons e es :
  fst (movement (e :: es)) == fst (movement [e]) + fst (movement es)
  /\ snd (movement (e :: es)) == snd (movement [e]) + snd (movement es).
Proof. destruct e; simpl; split; ring. Qed.

Lemma handle_all_locked es :
  forall i,
    forallb keeps_lock es = true -> isPointerLocked i = true ->
    isPointerLocked (handle_all es i) = true
    /\ deltaX (handle_all es i) == deltaX i + fst (movement es)
    /\ deltaY (handle_all es i) == deltaY i + snd (movement es).
Proof.
  induction es as [|e es IH]; intros i Hes Hl.
  - simpl. split; [exact Hl|]. split; ring.
  - simpl in Hes. apply andb_true_iff in Hes as [He Hes].
    destruct (handle_locked_delta e i He Hl) as [Hx Hy].
    destruct (IH (handle e i) Hes) as (I1 & I2 & I3).
    { rewrite handle_keeps_lock by exact He. exact Hl. }
    destruct (movement_cons e es) as [Mx My].
    unfold handle_all in *. cbn [fold_left].
    split; [exact I1|]. split.
    + rewrite I2, Hx, Mx. ring.
    + rewrite I3, Hy, My. ring.
Qed.

(** X21.  Aiming.  While the pointer is locked, [update()] hands the
    mouse movement of the events since the last [update()] to
    [aimDelta]: the sum of their [movementX] and of their [movementY],
    added to what was accumulated before, whatever keys and buttons were
    pressed in between; and it clears the accumulated movement, so that
    a second [update()] without events yields an [aimDelta] of 0.  When
    the lock is lost the accumulated movement and [aimDelta] are
    dropped. *)
Theorem aim_delta_accumulates (es : list Event) (i : t) :
  forallb keeps_lock es = true -> isPointerLocked i = true ->
  let i' := update (handle_all es i) in
  fst (aimDelta i') == deltaX i + fst (movement es)
  /\ snd (aimDelta i') == deltaY i + snd (movement es)
  /\ deltaX i' = 0 /\ deltaY i' = 0
  /\ aimDelta (update i') = (0, 0)
  /\ (let lost := handlePointerLockChange false (handle_all es i) in
      aimDelta lost = (0, 0) /\ aimDelta (update lost) = (0, 0)).
Proof.
  intros Hes Hl.
  destruct (handle_all_locked es i Hes Hl) as (_ & Hx & Hy).
  simpl. repeat split; assumption.
Qed.

Lemma handle_unlocked e i :
  moves_or_presses e = true -> isPointerLocked i = false ->
  let i' := handle e i in
  keys i' = keys i /\ buttons i' = buttons i /\ deltaX i' = deltaX i
  /\ deltaY i' = deltaY i /\ isPointerLocked i' = false
  /\ actions i' = actions i /\ aimDelta i' = aimDelta i.
Proof.
  destruct e; try discriminate; intros _ Hl; simpl.
  - unfold handleMouseMove. rewrite Hl. simpl. auto 10.
  - unfold handleMouseDown. rewrite Hl. auto 10.
Qed.

Lemma handle_all_unlocked es :
  forall i,
    forallb moves_or_presses es = true -> isPointerLocked i = false ->
    let i' := handle_all es i in
    keys i' = keys i /\ buttons i' = buttons i /\ deltaX i' = deltaX i
    /\ deltaY i' = deltaY i /\ isPointerLocked i' = false
    /\ actions i' = actions i /\ aimDelta i' = aimDelta i.
Proof.
  induction es as [|e es IH]; intros i Hes Hl; [simpl; auto 10|].
  simpl in Hes. apply andb_true_iff in Hes as [He Hes].
  destruct (handle_unlocked e i He Hl) as (H1 & H2 & H3 & H4 & H5 & H6 & H7).
  destruct (IH (handle e i) Hes H5) as (I1 & I2 & I3 & I4 & I5 & I6 & I7).
  unfold handle_all in *. cbn [fold_left]. cbv zeta in *.
  rewrite I1, I2, I3, I4, I5, I6, I7. auto 10.
Qed.

(** X22.  The mouse without pointer lock.  As long as the pointer is not
    locked, moving the mouse and pressing its buttons changes neither
    the buttons, the accumulated movement, the keys nor any action.
    After [update()] the player neither aims by such events nor shoots
    by them. *)
Theorem mouse_needs_pointer_lock (es : list Event) (i : t) :
  forallb moves_or_presses es = true -> isPointerLocked i = false ->
  let i' := handle_all es i in
  buttons i' = buttons i /\ deltaX i' = deltaX i /\ deltaY i' = deltaY i
  /\ actions i' = actions i /\ keys i' = keys i
  /\ actions (update i') = actions (update i)
  /\ aimDelta (update i') = aimDelta (update i).
Proof.
  intros Hes Hl.
  destruct (handle_all_unlocked es i Hes Hl)
    as (I1 & I2 & I3 & I4 & I5 & I6 & I7).
  cbv zeta in *. repeat (split; [assumption|]).
  unfold update, key. rewrite I1, I2, I3, I4, I6. split; reflexivity.
Qed.

Lemma handle_triggers e i : triggers_leq (actions i) (actions (handle e i)).
Proof.
  unfold triggers_leq. destruct e; simpl.
  - unfold handleKeyDown. destruct repeat; simpl; [auto|].
    repeat split; intros H; rewrite ?H;
      repeat match goal with |- context [if ?c then _ else _] =>
        destruct c end; reflexivity.
  - auto.
  - destruct locked; simpl; auto.
  - unfold handleMouseMove. destruct (isPointerLocked i); simpl; auto.
  - unfold handleMouseDown. destruct (isPointerLocked i); [|auto].
    destruct (button =? 0)%Z, (button =? 1)%Z, (button =? 2)%Z; simpl;
      repeat split; auto; intros H; rewrite H; destruct (shoot (actions i));
      reflexivity.
  - auto.
Qed.

Lemma handle_all_triggers es :
  forall i, triggers_leq (actions i) (actions (handle_all es i)).
Proof.
  induction es as [|e es IH]; intros i; [unfold triggers_leq; simpl; auto|].
  pose proof (handle_triggers e i) as (A1 & A2 & A3 & A4 & A5).
  pose proof (IH (handle e i)) as (B1 & B2 & B3 & B4 & B5).
  unfold handle_all in *. cbn [fold_left].
  unfold triggers_leq. auto 10.
Qed.

(** X23.  Triggered actions.  A first [keydown] of P, E, 1 or 2 sets its
    action (pause, interact, previous weapon, next weapon), and a
    triggered action that is set stays set through every later event
    and through [update()]: only [resetTriggers()] clears the five of
    them, and it leaves the keys and the continuous actions as they
    are.  A [keydown] that repeats, from a key held down, changes
    nothing, so that a held key triggers once. *)
Theorem triggers_last_until_reset (code : string) (es : list Event) (i : t) :
  let pressed := handleKeyDown code false i in
  let later := update (handle_all es pressed) in
  (forall b, trigger_of code (actions pressed) = Some b -> b = true)
  /\ (forall b, trigger_of code (actions later) = Some b -> b = true)
  /\ triggers_leq (actions i) (actions later)
  /\ handleKeyDown code true later = later
  /\ (let a := actions (resetTriggers later) in
      shootPressed a = false /\ switchWeaponPrev a = false
      /\ switchWeaponNext a = false /\ pause a = false
      /\ interact a = false
      /\ forward a = forward (actions later)
      /\ backward a = backward (actions later)
      /\ left a = left (actions later) /\ right a = right (actions later)
      /\ jump a = jump (actions later) /\ shoot a = shoot (actions later))
  /\ keys (resetTriggers later) = keys later.
Proof.
  intros pressed later.
  assert (forall b, trigger_of code (actions pressed) = Some b -> b = true)
    as Hset.
  { intros b. unfold trigger_of, pressed, handleKeyDown. simpl.
    destruct (String.eqb code "KeyP") eqn:E1; [intros [= <-]; reflexivity|].
    destruct (String.eqb code "KeyE") eqn:E2; [intros [= <-]; reflexivity|].
    destruct (String.eqb code "Digit1") eqn:E3;
      [intros [= <-]; reflexivity|].
    destruct (String.eqb code "Digit2") eqn:E4;
      [intros [= <-]; reflexivity|].
    discriminate. }
  pose proof (handle_all_triggers es pressed) as (B1 & B2 & B3 & B4 & B5).
  pose proof (handle_triggers (KeyDown code false) i)
    as (A1 & A2 & A3 & A4 & A5).
  change (handle (KeyDown code false) i) with pressed in *.
  split; [exact Hset|]. split.
  { intros b. unfold trigger_of in *. unfold later, update. simpl.
    destruct (String.eqb code "KeyP"); [intros [= <-]; auto|].
    destruct (String.eqb code "KeyE"); [intros [= <-]; auto|].
    destruct (String.eqb code "Digit1"); [intros [= <-]; auto|].
    destruct (String.eqb code "Digit2"); [intros [= <-]; auto|].
    discriminate. }
  split; [unfold triggers_leq, later, update; simpl; auto 10|].
  split; [reflexivity|]. split; [simpl; repeat split|reflexivity].
Qed.

End InputFacts.

(** With the pointer locked the frame aims by (4, -1). *)
Lemma aim_delta_accumulates_witness :
  let i :=
    InputState.update
      (InputState.handle_all example_events
         (InputState.handlePointerLockChange true InputState.new)) in
  fst (InputState.aimDelta i) == 4 /\ snd (InputState.aimDelta i) == -1.
Proof.
  destruct (aim_delta_accumulates example_events
              (InputState.handlePointerLockChange true InputState.new)
              eq_refl eq_refl) as (Hx & Hy & _).
  split; [rewrite Hx|rewrite Hy]; reflexivity.
Defined.

(** Without the lock the same mouse events neither aim nor shoot. *)
Lemma mouse_needs_pointer_lock_witness :
  let i :=
    InputState.update
      (InputState.handle_all
         [InputState.MouseMove 3 (-2) 400 300 (InputState.mkRect 0 0 800 600);
          InputState.MouseDown 0]
         InputState.new) in
  InputState.aimDelta i = (0, 0)
  /\ InputState.shoot (InputState.actions i) = false.
Proof.
  destruct (mouse_needs_pointer_lock
              [InputState.MouseMove 3 (-2) 400 300
                 (InputState.mkRect 0 0 800 600);
               InputState.MouseDown 0]
              InputState.new eq_refl eq_refl)
    as (_ & _ & _ & _ & _ & Ha & Hd).
  cbv zeta. rewrite Ha, Hd. split; reflexivity.
Defined.

(** ** Physics: the registry of bodies *)

Section PhysicsFacts.
Import Physics.

(** X24.  The registry of bodies.  For a game object with a [uuid],
    [getBody] after [addBody] yields the body added, and [removeBody]
    then takes the body out of the physics world and out of both maps.
    A second [addBody] for the same object replaces the body [getBody]
    yields, but the first body stays in the world and keeps its mesh:
    [removeBody] removes the second one only.  No [removeBody] takes a
    [collide] listener off a body, and [removeBody] of an object that
    has no body changes nothing. *)
Theorem physics_registry (o : GameObject) (b b2 : body) (m m2 : mesh)
  (p : t) :
  no_uuid o = false ->
  let p1 := addBody (Some o) (Some b) (Some m) p in
  let p2 := removeBody (Some o) p1 in
  getBody (Some o) p1 = Some b
  /\ meshMap p1 !! b = Some m
  /\ world p1 = world p ++ [AddBody b]
  /\ getBody (Some o) p2 = None
  /\ meshMap p2 !! b = None
  /\ world p2 = world p ++ [AddBody b; RemoveBody b]
  /\ listenersOf b p2 = S (listenersOf b p)
  /\ removeBody (Some o) p2 = p2
  /\ (b2 <> b ->
      let p3 :=
        removeBody (Some o) (addBody (Some o) (Some b2) (Some m2) p1) in
      getBody (Some o) p3 = None
      /\ meshMap p3 !! b = Some m
      /\ RemoveBody b ∉ drop (length (world p)) (world p3)).
Proof.
  intros Hu p1 p2.
  assert (removeBody (Some o) p1
          = mk (delete (uuid o) (bodyMap p1)) (delete b (meshMap p1))
               (gameObjectOf p1) (push (RemoveBody b) (world p1))
               (listeners p1)) as Hp2.
  { unfold removeBody. rewrite Hu. unfold p1. simpl.
    rewrite lookup_insert_eq. reflexivity. }
  fold p2 in Hp2.
  split; [apply lookup_insert_eq|]. split; [apply lookup_insert_eq|].
  split; [reflexivity|].
  split; [rewrite Hp2; apply lookup_delete_eq|].
  split; [rewrite Hp2; apply lookup_delete_eq|].
  split; [rewrite Hp2; unfold push; simpl; unfold push;
          rewrite <- app_assoc; reflexivity|].
  split.
  { rewrite Hp2. unfold listenersOf at 1. simpl.
    rewrite lookup_insert_eq. reflexivity. }
  split.
  { unfold removeBody at 1. rewrite Hu, Hp2. simpl.
    rewrite lookup_delete_eq. reflexivity. }
  intros Hne p3.
  assert (p3 = let q := addBody (Some o) (Some b2) (Some m2) p1 in
               mk (delete (uuid o) (bodyMap q)) (delete b2 (meshMap q))
                  (gameObjectOf q) (push (RemoveBody b2) (world q))
                  (listeners q)) as ->.
  { unfold p3, removeBody. rewrite Hu. simpl.
    rewrite lookup_insert_eq. reflexivity. }
  simpl. split; [apply lookup_delete_eq|]. split.
  { rewrite lookup_delete_ne by exact Hne.
    rewrite lookup_insert_ne by exact Hne. apply lookup_insert_eq. }
  unfold push. rewrite <- !app_assoc, drop_app_length. simpl.
  intros H. repeat (apply elem_of_cons in H as [H|H]; [congruence|]).
  apply elem_of_nil in H. exact H.
Qed.

(** X25.  Game objects without a [uuid].  [addBody] registers such an
    object all the same, under the key [undefined] that all of them
    share: [getBody] of any of them yields the body added last.
    [removeBody] returns at once for them, so that their bodies never
    leave the physics world. *)
Theorem physics_without_uuid (o o' : GameObject) (b : body) (m : mesh)
  (p : t) :
  uuid o = None -> uuid o' = None ->
  let p1 := addBody (Some o) (Some b) (Some m) p in
  getBody (Some o') p1 = Some b
  /\ world p1 = world p ++ [AddBody b]
  /\ removeBody (Some o) p1 = p1
  /\ removeBody (Some o') p1 = p1.
Proof.
  intros Hu Hu' p1. unfold getBody, removeBody, no_uuid, p1. simpl.
  rewrite Hu, Hu'. split; [apply lookup_insert_eq|]. repeat split.
Qed.

End PhysicsFacts.

(** An enemy with the uuid ["e1"], registered with body 7 and mesh 8 in
    a new registry, then removed. *)
Lemma physics_registry_witness :
  let o := Physics.mkGameObject (Some "e1"%string) in
  let p1 :=
    Physics.addBody (Some o) (Some 7%positive) (Some 8%positive)
      Physics.new in
  Physics.getBody (Some o) p1 = Some 7%positive
  /\ Physics.world (Physics.removeBody (Some o) p1)
     = [Physics.AddBody 7%positive; Physics.RemoveBody 7%positive]
  /\ Physics.listenersOf 7%positive (Physics.removeBody (Some o) p1) = 1%nat.
Proof.
  destruct (physics_registry (Physics.mkGameObject (Some "e1"%string))
              7%positive 9%positive 8%positive 8%positive Physics.new
              eq_refl)
    as (H1 & _ & _ & _ & _ & H2 & H3 & _).
  split; [exact H1|]. split; [exact H2|exact H3].
Defined.

(** Two objects without a uuid: the body of the first is the one
    [getBody] yields for the second. *)
Lemma physics_without_uuid_witness :
  Physics.getBody (Some (Physics.mkGameObject None))
    (Physics.addBody (Some (Physics.mkGameObject None)) (Some 7%positive)
       (Some 8%positive) Physics.new)
  = Some 7%positive.
Proof.
  destruct (physics_without_uuid (Physics.mkGameObject None)
              (Physics.mkGameObject None) 7%positive 8%positive Physics.new
              eq_refl eq_refl) as (H & _).
  exact H.
Defined.

(** ** Player and PowerUp: the effects of power-ups *)

Section PowerUpFacts.
Import PlayerPowerUps.

Lemma consistent_new : consistent new.
Proof.
  unfold consistent, new. simpl. split; [|split; [|split; [|split]]].
  - intros type e H. rewrite lookup_empty in H. discriminate.
  - intros id timeout H. rewrite lookup_empty in H. discriminate.
  - intros id timeout H. rewrite lookup_empty in H. discriminate.
  - lia.
  - apply lookup_empty.
Qed.

Lemma consistent_setPowerUpTimer now type duration cb p :
  consistent p -> consistent (setPowerUpTimer now type duration cb p).
Proof.
  intros (C1 & C2 & C3 & C4 & C5).
  assert (timeouts p !! nextTimeoutId p = None) as Hfresh.
  { destruct (timeouts p !! nextTimeoutId p) eqn:E; [|reflexivity].
    apply C3 in E. lia. }
  set (pending :=
         match activePowerUps p !! type with
         | Some e =>
             if Nat.eqb (timeoutId e) 0 then timeouts p
             else clearTimeout (timeoutId e) (timeouts p)
         | None => timeouts p
         end).
  assert (forall id timeout, pending !! id = Some timeout ->
            timeouts p !! id = Some timeout /\ to_type timeout <> type)
    as Hpending.
  { intros id timeout H. unfold pending in H.
    destruct (activePowerUps p !! type) as [e|] eqn:Ee.
    - destruct (C1 _ _ Ee) as (t0 & Ht0 & Hty0).
      assert (timeoutId e <> 0)%nat as Hnz.
      { intros Hz. rewrite Hz, C5 in Ht0. discriminate. }
      apply Nat.eqb_neq in Hnz. rewrite Hnz in H.
      unfold clearTimeout in H. apply lookup_delete_Some in H as [Hne H].
      split; [exact H|]. intros Hty.
      destruct (C2 _ _ H) as (e' & He' & Hid). rewrite Hty, Ee in He'.
      injection He' as <-. congruence.
    - split; [exact H|]. intros Hty.
      destruct (C2 _ _ H) as (e' & He' & _). rewrite Hty, Ee in He'.
      discriminate. }
  assert (forall id timeout, timeouts p !! id = Some timeout ->
            to_type timeout <> type -> pending !! id = Some timeout)
    as Hkept.
  { intros id timeout H Hty. unfold pending.
    destruct (activePowerUps p !! type) as [e|] eqn:Ee; [|exact H].
    destruct (Nat.eqb (timeoutId e) 0); [exact H|].
    unfold clearTimeout. apply lookup_delete_Some. split; [|exact H].
    intros <-. destruct (C1 _ _ Ee) as (t0 & Ht0 & Hty0).
    rewrite H in Ht0. injection Ht0 as <-. contradiction. }
  unfold consistent, setPowerUpTimer. fold pending. simpl.
  split; [|split; [|split; [|split]]].
  - intros ty e H. apply lookup_insert_Some in H as [[<- <-]|[Hne H]].
    + simpl. rewrite lookup_insert_eq. eauto.
    + destruct (C1 _ _ H) as (t0 & Ht0 & Hty0).
      exists t0. split; [|exact Hty0].
      rewrite lookup_insert_ne.
      * apply Hkept; [exact Ht0|congruence].
      * intros Heq. rewrite <- Heq, Hfresh in Ht0. discriminate.
  - intros id timeout H. apply lookup_insert_Some in H as [[<- <-]|[Hne H]].
    + simpl. rewrite lookup_insert_eq. eauto.
    + apply Hpending in H as [H Hty].
      destruct (C2 _ _ H) as (e & He & Hid).
      exists e. split; [|exact Hid].
      rewrite lookup_insert_ne by congruence. exact He.
  - intros id timeout H. apply lookup_insert_Some in H as [[<- <-]|[Hne H]].
    + lia.
    + apply Hpending in H as [H _]. apply C3 in H. lia.
  - lia.
  - rewrite lookup_insert_ne by lia.
    destruct (pending !! O) eqn:E; [|reflexivity].
    apply Hpending in E as [E _]. rewrite C5 in E. discriminate.
Qed.

Lemma consistent_runTimeout id p : consistent p -> consistent (runTimeout id p).
Proof.
  intros (C1 & C2 & C3 & C4 & C5). unfold runTimeout.
  destruct (timeouts p !! id) as [timeout|] eqn:Hid;
    [|repeat split; assumption].
  destruct (C2 _ _ Hid) as (e0 & He0 & Hid0).
  assert (consistent
            (mk (player p) (speedMultiplier p)
               (delete (to_type timeout) (activePowerUps p))
               (delete id (timeouts p)) (nextTimeoutId p))) as Hc.
  { unfold consistent. simpl. split; [|split; [|split; [|split]]].
    - intros ty e H. apply lookup_delete_Some in H as [Hne H].
      destruct (C1 _ _ H) as (t0 & Ht0 & Hty0).
      exists t0. split; [|exact Hty0].
      apply lookup_delete_Some. split; [|exact Ht0].
      intros Heq. rewrite <- Heq, Hid in Ht0. injection Ht0 as <-.
      congruence.
    - intros id' t' H. apply lookup_delete_Some in H as [Hne H].
      destruct (C2 _ _ H) as (e & He & Hide).
      exists e. split; [|exact Hide].
      apply lookup_delete_Some. split; [|exact He].
      intros Hty. rewrite <- Hty, He0 in He. injection He as <-.
      congruence.
    - intros id' t' H. apply lookup_delete_Some in H as [_ H].
      apply C3 in H. exact H.
    - exact C4.
    - destruct (delete id (timeouts p) !! O) eqn:E; [|reflexivity].
      apply lookup_delete_Some in E as [_ E]. rewrite C5 in E.
      discriminate. }
  destruct (to_removeEffect timeout); exact Hc.
Qed.

Lemma consistent_call c p : consistent p -> consistent (call c p).
Proof.
  intros H. destruct c; simpl.
  - apply consistent_setPowerUpTimer. exact H.
  - apply consistent_setPowerUpTimer. exact H.
  - apply consistent_runTimeout, H.
Qed.

Lemma consistent_calls cs : forall p, consistent p -> consistent (calls cs p).
Proof.
  induction cs as [|c cs IH]; intros p H; [exact H|].
  apply (IH (call c p)), consistent_call, H.
Qed.

(** X26.  The timers of the power-ups.  Whatever boosts and shields a new
    player is given and whichever timeouts the browser runs, the entries
    of [activePowerUps] and the pending timeouts correspond one to one:
    every entry has its timeout pending, every pending timeout belongs
    to the entry of its type, and so no type ever has two timeouts
    pending.  A power-up applied again replaces its timer instead of
    adding one. *)
Theorem power_up_timers (cs : list Call) :
  let p := calls cs new in
  consistent p
  /\ (forall id1 id2 t1 t2,
        timeouts p !! id1 = Some t1 -> timeouts p !! id2 = Some t2 ->
        to_type t1 = to_type t2 -> id1 = id2)
  /\ (forall type, is_Some (activePowerUps p !! type) <->
        exists id timeout, timeouts p !! id = Some timeout
                           /\ to_type timeout = type).
Proof.
  intros p.
  pose proof (consistent_calls cs new consistent_new) as Hc. fold p in Hc.
  split; [exact Hc|]. destruct Hc as (C1 & C2 & _). split.
  - intros id1 id2 t1 t2 H1 H2 Hty.
    destruct (C2 _ _ H1) as (e1 & He1 & <-).
    destruct (C2 _ _ H2) as (e2 & He2 & <-).
    rewrite Hty, He2 in He1. injection He1 as <-. reflexivity.
  - intros type. split.
    + intros [e He]. destruct (C1 _ _ He) as (t0 & H0 & Hty). eauto.
    + intros (id & t0 & H0 & <-). destruct (C2 _ _ H0) as (e & He & _).
      eauto.
Qed.

Lemma runTimeout_pending id timeout p :
  timeouts p !! id = Some timeout ->
  let p' := runTimeout id p in
  activePowerUps p' = delete (to_type timeout) (activePowerUps p)
  /\ timeouts p' = delete id (timeouts p)
  /\ match to_removeEffect timeout with
     | ResetSpeed => speedMultiplier p' = 1.0 /\ player p' = player p
     | DropShield =>
         speedMultiplier p' = speedMultiplier p
         /\ player p' = set_isShielded false (player p)
     end.
Proof.
  intros H. unfold runTimeout. rewrite H.
  destruct (to_removeEffect timeout); simpl; auto.
Qed.

Lemma setPowerUpTimer_clears now type duration cb p e :
  activePowerUps p !! type = Some e -> timeoutId e <> O ->
  timeoutId e <> nextTimeoutId p ->
  timeouts (setPowerUpTimer now type duration cb p) !! timeoutId e = None.
Proof.
  intros He Hnz Hne. unfold setPowerUpTimer. rewrite He.
  apply Nat.eqb_neq in Hnz. rewrite Hnz. simpl.
  rewrite lookup_insert_ne by congruence. apply lookup_delete_eq.
Qed.

(** X27.  The end of a power-up.  A speed boost raises the multiplier to
    the stronger of the old and the new one, and its timeout sets it
    back to 1.0 and drops the entry.  A boost applied again before that
    clears the first timeout, which then does nothing when its time
    comes: the boost ends with the second timeout.  A shield makes
    [takeDamage] return 0 without touching the player until its timeout
    drops it. *)
Theorem power_up_expiry (now now' m m' d d' amount : Q) (p : t) :
  consistent p ->
  let id1 := nextTimeoutId p in
  let p1 := applySpeedBoost now m d p in
  let p2 := applySpeedBoost now' m' d' p1 in
  let id2 := nextTimeoutId p1 in
  let q1 := activateShield now d p in
  speedMultiplier p1 = Qmax (speedMultiplier p) m
  /\ speedMultiplier (runTimeout id1 p1) = 1.0
  /\ activePowerUps (runTimeout id1 p1) !! "speed"%string = None
  /\ speedMultiplier p2 = Qmax (Qmax (speedMultiplier p) m) m'
  /\ runTimeout id1 p2 = p2
  /\ speedMultiplier (runTimeout id2 p2) = 1.0
  /\ activePowerUps (runTimeout id2 p2) !! "speed"%string = None
  /\ Player.isShielded (player q1) = true
  /\ Player.takeDamage amount (player q1) = (0, player q1, false)
  /\ Player.isShielded (player (runTimeout id1 q1)) = false
  /\ speedMultiplier (runTimeout id1 q1) = speedMultiplier p.
Proof.
  intros (C1 & C2 & C3 & C4 & C5) id1 p1 p2 id2 q1.
  assert (timeouts p1 !! id1 = Some (mkTimeout "speed" ResetSpeed d)) as H1
    by apply lookup_insert_eq.
  assert (activePowerUps p1 !! "speed"%string
          = Some (mkEntry (now + d) id1)) as He1 by apply lookup_insert_eq.
  assert (timeouts p2 !! id2 = Some (mkTimeout "speed" ResetSpeed d')) as H2
    by apply lookup_insert_eq.
  assert (timeouts q1 !! id1 = Some (mkTimeout "shield" DropShield d)) as H3
    by apply lookup_insert_eq.
  assert (timeouts p2 !! id1 = None) as H4.
  { apply (setPowerUpTimer_clears now' "speed" d' ResetSpeed
             (mk (player p1) (Qmax (speedMultiplier p1) m')
                (activePowerUps p1) (timeouts p1) (nextTimeoutId p1))
             (mkEntry (now + d) id1) He1); simpl; unfold id1; lia. }
  destruct (runTimeout_pending id1 _ p1 H1) as (A1 & _ & A3 & _).
  destruct (runTimeout_pending id2 _ p2 H2) as (B1 & _ & B3 & _).
  destruct (runTimeout_pending id1 _ q1 H3) as (_ & _ & D3 & D4).
  cbv zeta in *. simpl in A1, B1.
  split; [reflexivity|]. split; [exact A3|].
  split; [rewrite A1; apply lookup_delete_eq|].
  split; [reflexivity|].
  split; [unfold runTimeout; rewrite H4; reflexivity|].
  split; [exact B3|]. split; [rewrite B1; apply lookup_delete_eq|].
  split; [reflexivity|].
  split.
  { unfold Player.takeDamage. simpl. rewrite orb_true_r. reflexivity. }
  split; [rewrite D4; reflexivity|exact D3].
Qed.

End PowerUpFacts.

Section CollectFacts.
Import PowerUp.

(** X28.  Collecting a power-up.  [collect(player)] on a power-up that
    is not destroyed and has its configuration does not throw, and
    leaves the power-up destroyed and hidden, so that a second
    [collect] changes neither the power-up nor the player: an effect is
    applied once.  A heal raises the health by the amount of the
    configuration, or by 25 when it names none, but not over
    [maxHealth]; a power-up of a type other than heal, speed and shield
    is used up without any effect on the player. *)
Theorem power_up_collect (now : Q) (player : PlayerPowerUps.t) (p : t)
  (cfg : Config) :
  _destroyed p = false -> config p = Some cfg ->
  exists p' player',
    collect now player p = Ok (p', player')
    /\ _destroyed p' = true /\ visible p' = false
    /\ (forall now', collect now' player' p' = Ok (p', player'))
    /\ (type p = "heal"%string ->
        Player._destroyed (PlayerPowerUps.player player) = false ->
        let pl := PlayerPowerUps.player player in
        let pl' := PlayerPowerUps.player player' in
        Player.health pl'
        = Qmin (Player.maxHealth pl)
            (Player.health pl + or_default (cfg_amount cfg) 25)
        /\ Player.health pl' <= Player.maxHealth pl
        /\ PlayerPowerUps.timeouts player' = PlayerPowerUps.timeouts player)
    /\ (type p <> "heal"%string -> type p <> "speed"%string ->
        type p <> "shield"%string -> player' = player).
Proof.
  intros Hd Hc.
  assert (_destroyed (destroy p) = true /\ visible (destroy p) = false)
    as [Hd' Hv'] by (unfold destroy; rewrite Hd; auto).
  assert (forall pl now', collect now' pl (destroy p) = Ok (destroy p, pl))
    as Hagain by (intros pl now'; unfold collect; rewrite Hd'; reflexivity).
  unfold collect. rewrite Hd, Hc.
  destruct (String.eqb (type p) "heal") eqn:E1.
  { apply String.eqb_eq in E1. simpl.
    eexists. eexists. split; [reflexivity|].
    split; [exact Hd'|]. split; [exact Hv'|]. split; [intros; apply Hagain|].
    split.
    - intros _ Hpl. simpl. unfold Player.heal. rewrite Hpl. simpl.
      split; [reflexivity|]. split; [apply Q.le_min_l|reflexivity].
    - intros H. contradiction. }
  destruct (String.eqb (type p) "speed") eqn:E2.
  { apply String.eqb_eq in E2. apply String.eqb_neq in E1. simpl.
    eexists. eexists. split; [reflexivity|].
    split; [exact Hd'|]. split; [exact Hv'|]. split; [intros; apply Hagain|].
    split; [intros H; contradiction|]. intros _ H. contradiction. }
  destruct (String.eqb (type p) "shield") eqn:E3.
  { apply String.eqb_eq in E3. apply String.eqb_neq in E1. simpl.
    eexists. eexists. split; [reflexivity|].
    split; [exact Hd'|]. split; [exact Hv'|]. split; [intros; apply Hagain|].
    split; [intros H; contradiction|]. intros _ _ H. contradiction. }
  apply String.eqb_neq in E1. simpl.
  eexists. eexists. split; [reflexivity|].
  split; [exact Hd'|]. split; [exact Hv'|]. split; [intros; apply Hagain|].
  split; [intros H; contradiction|]. reflexivity.
Qed.

End CollectFacts.

(** A new player boosted to 1.5 at time 0 for 5000 ms and to 2 at time
    1000: the first timeout, 1, is cleared, and the second, 2, ends the
    boost. *)
Lemma power_up_expiry_witness :
  let p2 :=
    PlayerPowerUps.applySpeedBoost 1000 2 5000
      (PlayerPowerUps.applySpeedBoost 0 1.5 5000 PlayerPowerUps.new) in
  PlayerPowerUps.runTimeout 1 p2 = p2
  /\ PlayerPowerUps.speedMultiplier (PlayerPowerUps.runTimeout 2 p2) = 1.0.
Proof.
  destruct (power_up_expiry 0 1000 1.5 2 5000 5000 10 PlayerPowerUps.new
              consistent_new)
    as (_ & _ & _ & _ & H1 & H2 & _).
  split; [exact H1|exact H2].
Defined.

(** A heal collected by a player with 90 of 100 health points: the
    health is 100. *)
Lemma power_up_collect_witness :
  let player :=
    PlayerPowerUps.mk (Player.set_health 90 Player.new) 1.0 ∅ ∅ 1 in
  let p :=
    PowerUp.reset (host := example_host) v3_zero (Some "heal"%string) 0.5 0.5
      (PowerUp.new (host := example_host) 0.5) in
  exists p' player',
    PowerUp.collect 0 player p = Ok (p', player')
    /\ Player.health (PlayerPowerUps.player player') == 100.
Proof.
  intros player p.
  destruct (power_up_collect 0 player p (PowerUp.mkConfig 0 None None)
              eq_refl eq_refl)
    as (p' & player' & Hrun & _ & _ & _ & Hheal & _).
  exists p', player'. split; [exact Hrun|].
  destruct (Hheal eq_refl eq_refl) as (Hh & _). rewrite Hh. reflexivity.
Defined.

(** ** LocalizationService *)

Section LocalizationFacts.
Import Stdlib.Strings.Ascii.
Import LocalizationService.

Lemma split_nonempty sep s : split sep s <> [].
Proof.
  destruct s as [|c rest]; simpl; [discriminate|].
  destruct (Ascii.eqb c sep); [discriminate|].
  destruct (split sep rest); discriminate.
Qed.

Lemma split_parts sep s :
  Forall (fun part => contains sep part = false) (split sep s).
Proof.
  induction s as [|c rest IH]; simpl; [repeat constructor|].
  destruct (Ascii.eqb c sep) eqn:E; [constructor; [reflexivity|exact IH]|].
  destruct (split sep rest) as [|first others]; [repeat constructor; simpl;
    rewrite E; reflexivity|].
  inversion IH as [|? ? Hf Ho]; subst.
  constructor; [simpl; rewrite E; exact Hf|exact Ho].
Qed.

Lemma split_app sep ns rest :
  contains sep ns = false ->
  split sep (ns +:+ String sep rest) = ns :: split sep rest.
Proof.
  induction ns as [|c ns IH]; simpl; intros H.
  - rewrite Ascii.eqb_refl. reflexivity.
  - apply orb_false_iff in H as [Hc Hns]. rewrite Hc.
    change (String.app ns (String sep rest)) with (ns +:+ String sep rest).
    rewrite (IH Hns). reflexivity.
Qed.

Lemma eqb_contains sep name part :
  contains sep name = true -> contains sep part = false ->
  String.eqb name part = false.
Proof.
  intros Hn Hp. apply String.eqb_neq. intros <-. congruence.
Qed.






Lemma getText_missing key count s :
  isInitialized s = true ->
  lookup key s = None -> lookup (key +:+ "_plural") s = None ->
  getText key count s
  = match missingKeyHandler s with
    | Some handler => handler key (currentLanguage s)
    | None => key
    end.
Proof.
  intros Hi H1 H2. unfold getText. rewrite Hi. cbv zeta. simpl.
  destruct count as [n|]; [|rewrite H1; reflexivity].
  destruct (negb (n =? 1)%Z); [|rewrite H1; reflexivity].
  match goal with
  | |- context [if ?c then _ else _] => destruct c
  end; [rewrite H2|rewrite H1]; reflexivity.
Qed.

(** X30.  Looking up a text.  Before [init()], [getText] returns the key
    itself.  Afterwards, without a count, it returns the string of the
    key in the current language, else in the fallback language, else in
    the default language; when none of them has the key, nor its plural,
    it returns what the handler of missing keys makes of the key, which
    is the key itself when the options named no handler.  For a count
    other than 1 a plural that only the fallback language has is used
    even though the current language has the singular.  A key
    [ns.rest] is looked up as [rest] inside the object [ns]; so a
    property whose own name has a dot in it is never found, under any
    key. *)
Theorem localization_get_text (key : string) (count : option Z) (s : t) :
  (isInitialized s = false -> getText key count s = key)
  /\ (isInitialized s = true ->
      (forall t, getString key (currentLanguage s) s = Some t ->
                 getText key None s = t)
      /\ (forall t, getString key (currentLanguage s) s = None ->
                    getString key (fallbackLang s) s = Some t ->
                    getText key None s = t)
      /\ (forall t, getString key (currentLanguage s) s = None ->
                    getString key (fallbackLang s) s = None ->
                    getString key (defaultLang s) s = Some t ->
                    getText key None s = t)
      /\ (lookup key s = None -> lookup (key +:+ "_plural") s = None ->
          getText key count s
          = match missingKeyHandler s with
            | Some handler => handler key (currentLanguage s)
            | None => key
            end)
      /\ (forall n t t',
            n <> 1%Z ->
            getString key (currentLanguage s) s = Some t ->
            getString (key +:+ "_plural") (currentLanguage s) s = None ->
            getString (key +:+ "_plural") (fallbackLang s) s = Some t' ->
            getText key (Some n) s = replaceAll "{count}" (pretty n) O t'))
  /\ (forall ns rest lang fields,
        contains "." ns = false ->
        stringCache s !! lang = Some (JObject fields) ->
        getString (ns +:+ String "." rest) lang s
        = match property ns fields with
          | Some v => walk (split "." rest) v
          | None => None
          end)
  /\ (forall name v lang fields,
        contains "." name = true ->
        getString key lang
          (set_stringCache
             (<[lang := JObject ((name, v) :: fields)]> (stringCache s)) s)
        = getString key lang
            (set_stringCache (<[lang := JObject fields]> (stringCache s)) s)).
Proof.
  split; [intros Hi; unfold getText; rewrite Hi; reflexivity|].
  split.
  { intros Hi. split; [|split; [|split; [|split]]].
    - intros t H. unfold getText, lookup. rewrite Hi. simpl. rewrite H.
      reflexivity.
    - intros t H1 H2. unfold getText, lookup. rewrite Hi. simpl.
      rewrite H1, H2. reflexivity.
    - intros t H1 H2 H3. unfold getText, lookup. rewrite Hi. simpl.
      rewrite H1, H2.
      destruct (String.eqb (fallbackLang s) (defaultLang s)) eqn:E.
      + apply String.eqb_eq in E. rewrite E in H2. congruence.
      + simpl. rewrite H3. reflexivity.
    - apply getText_missing, Hi.
    - intros n t t' Hn H1 H2 H3. unfold getText. rewrite Hi. simpl.
      apply Z.eqb_neq in Hn. rewrite Hn. simpl.
      rewrite H3.
      rewrite (bool_decide_eq_true_2 (is_Some (Some t'))) by eauto.
      rewrite orb_true_r. simpl.
      unfold lookup. rewrite H2, H3. reflexivity. }
  split.
  - intros ns rest lang fields Hns Hc. unfold getString. rewrite Hc.
    rewrite (split_app "." ns rest Hns). reflexivity.
  - intros name v lang fields Hname. unfold getString. simpl.
    rewrite !lookup_insert_eq.
    pose proof (split_parts "." key) as Hparts.
    destruct (split "." key) as [|part parts]; [reflexivity|].
    inversion Hparts as [|? ? Hp _]; subst. simpl.
    rewrite (eqb_contains "." name part Hname Hp). reflexivity.
Qed.

End LocalizationFacts.
